(** * szip: the archive engine and its security envelope

    A shallow embedding of the TypeScript sources of szip
    ([SimplZip] in the archive module, [CryptoUtils] in [src/crypto.ts],
    [SecurityUtils] in the security module) together with the parts of the
    JavaScript and Node.js run time they call ([String.prototype.split],
    [parseInt], [path.posix], [crypto.pbkdf2Sync], [fs]) and the check
    [yauzl] makes of the name of an entry.

    Conventions.
    - A JavaScript string is a Rocq [string]: the sequence of the bytes of its
      UTF-8 encoding.  All separators the code looks for are ASCII.
    - A thrown exception is [None] (or an error constructor), so that the
      [try]/[catch] blocks of the source are visible in the model.
    - The operating system is POSIX: [path.sep] is ["/"]. *)

From Stdlib Require Import ZArith QArith Qabs Qround Lia Lqa Bool List Ascii
  String.
From stdpp Require Import gmap strings list.

Set Default Proof Using "Type".

(** ** JavaScript strings *)

Module JsString.

(** [s.startsWith(p)] *)
Fixpoint startsWith (s p : string) {struct p} : bool :=
  match p with
  | EmptyString => true
  | String a p' =>
      match s with
      | EmptyString => false
      | String b s' => Ascii.eqb a b && startsWith s' p'
      end
  end.

(** [s.includes(p)] *)
Fixpoint includes (s p : string) : bool :=
  startsWith s p ||
  match s with
  | EmptyString => false
  | String _ s' => includes s' p
  end.

(** [s.split(sep)] for a non-empty separator, after ECMAScript's
    [String.prototype.split]: the occurrences of [sep] are searched from
    left to right and do not overlap.  [splitFrom sep s skip] is the
    non-empty list of pieces as a head and a tail; [skip] counts the
    characters of a matched separator that are still to be dropped. *)
Fixpoint splitFrom (sep s : string) (skip : nat) : string * list string :=
  match s with
  | EmptyString => (EmptyString, [])
  | String c s' =>
      match skip with
      | S k => splitFrom sep s' k
      | O =>
          if startsWith s sep
          then let '(h, t) := splitFrom sep s' (String.length sep - 1) in
               (EmptyString, h :: t)
          else let '(h, t) := splitFrom sep s' 0 in
               (String c h, t)
      end
  end.

Definition chars (s : string) : list string :=
  (λ c, String c EmptyString) <$> list_ascii_of_string s.

Definition split (s sep : string) : list string :=
  match sep with
  | EmptyString => chars s
  | _ => let '(h, t) := splitFrom sep s 0 in h :: t
  end.

(** JavaScript truthiness of a string: [""] is falsy. *)
Definition truthy (s : string) : bool :=
  match s with EmptyString => false | _ => true end.

(** [a || b] on strings *)
Definition or_else (a b : string) : string := if truthy a then a else b.

(** [parts[i]]; an index out of range gives [undefined], which every caller
    in the sources treats like the empty string ([|| ''], truthiness). *)
Definition nth_part (parts : list string) (i : nat) : string :=
  default EmptyString (parts !! i).

Definition has_char (c : ascii) (s : string) : bool :=
  existsb (Ascii.eqb c) (list_ascii_of_string s).

(** The string with its [i]-th character replaced by [c]. *)
Fixpoint setChar (i : nat) (c : ascii) (s : string) : string :=
  match s, i with
  | EmptyString, _ => EmptyString
  | String _ s', O => String c s'
  | String x s', S i' => String x (setChar i' c s')
  end.

(** [pieces.join(sep)] *)
Fixpoint join (sep : string) (pieces : list string) : string :=
  match pieces with
  | [] => EmptyString
  | [p] => p
  | p :: ps => p +:+ sep +:+ join sep ps
  end.

(** [a === b] on strings, and the number of character comparisons a
    left-to-right comparison with early exit performs (the usual
    implementation of string equality: [memcmp] after a length test). *)
Definition strictEquals (a b : string) : bool := String.eqb a b.

Fixpoint strictEqualsSteps (a b : string) : nat :=
  match a, b with
  | String c a', String d b' =>
      if Ascii.eqb c d then S (strictEqualsSteps a' b') else 1
  | _, _ => 0
  end.

End JsString.

Import JsString.

(** ** JavaScript numbers read from and written to strings *)

Module JsNumber.

Local Open Scope Z_scope.

Definition code (c : ascii) : Z := Z.of_nat (nat_of_ascii c).

(** White space skipped by [parseInt] ([StrWhiteSpaceChar]), as UTF-8:
    the ASCII blanks and line terminators (one byte), U+00A0 (two bytes),
    U+1680, U+2000-U+200A, U+2028, U+2029, U+202F, U+205F, U+3000 and
    U+FEFF (three bytes). *)
Definition isSpace1 (c : Z) : bool := ((9 <=? c) && (c <=? 13)) || (c =? 32).

Definition isSpace2 (c d : Z) : bool := (c =? 194) && (d =? 160).

Definition isSpace3 (c d e : Z) : bool :=
  ((c =? 225) && (d =? 154) && (e =? 128))
  || ((c =? 226) && (d =? 128)
      && (((128 <=? e) && (e <=? 138)) || (e =? 168) || (e =? 169)
          || (e =? 175)))
  || ((c =? 226) && (d =? 129) && (e =? 159))
  || ((c =? 227) && (d =? 128) && (e =? 128))
  || ((c =? 239) && (d =? 187) && (e =? 191)).

Fixpoint trimStart (s : string) : string :=
  match s with
  | EmptyString => s
  | String c s1 =>
      if isSpace1 (code c) then trimStart s1
      else
        match s1 with
        | EmptyString => s
        | String d s2 =>
            if isSpace2 (code c) (code d) then trimStart s2
            else
              match s2 with
              | EmptyString => s
              | String e s3 =>
                  if isSpace3 (code c) (code d) (code e) then trimStart s3
                  else s
              end
        end
  end.

(** A decimal digit, a string of decimal digits. *)
Definition isDigit (c : ascii) : bool := (48 <=? code c) && (code c <=? 57).

Definition isDigits (s : string) : bool :=
  forallb isDigit (list_ascii_of_string s).

(** The value of a character as a digit: [0-9], then [a-z] and [A-Z] for
    10 to 35. *)
Definition digitValue (c : ascii) : option Z :=
  let n := code c in
  if (48 <=? n) && (n <=? 57) then Some (n - 48)
  else if (97 <=? n) && (n <=? 122) then Some (n - 87)
  else if (65 <=? n) && (n <=? 90) then Some (n - 55)
  else None.

(** The longest prefix of digits in the radix; [None] when it is empty. *)
Fixpoint parseDigits (radix : Z) (s : string) (acc : option Z) : option Z :=
  match s with
  | EmptyString => acc
  | String c s' =>
      match digitValue c with
      | Some d =>
          if d <? radix
          then parseDigits radix s' (Some (default 0 acc * radix + d))
          else acc
      | None => acc
      end
  end.

(** [parseInt(s)] without a radix: white space, a sign, a [0x] prefix for
    radix 16, digits.  [None] is [NaN]. *)
Definition parseInt (s : string) : option Z :=
  let s1 := trimStart s in
  let '(neg, s2) :=
    match s1 with
    | String c r =>
        if code c =? 45 then (true, r)
        else if code c =? 43 then (false, r)
        else (false, s1)
    | EmptyString => (false, s1)
    end in
  let '(radix, s3) :=
    match s2 with
    | String c (String d r) =>
        if (code c =? 48) && ((code d =? 120) || (code d =? 88))
        then (16, r) else (10, s2)
    | _ => (10, s2)
    end in
  (λ v, if neg : bool then - v else v) <$> parseDigits radix s3 None.

Definition digitChar (d : Z) : ascii :=
  ascii_of_nat (Z.to_nat (if d <? 10 then 48 + d else 87 + d)).

(** The decimal digits of a natural number, most significant first. *)
Fixpoint digitsOf (fuel : nat) (n : Z) : string :=
  match fuel with
  | O => EmptyString
  | S f =>
      (if n <? 10 then EmptyString else digitsOf f (n / 10))
      +:+ String (digitChar (n mod 10)) EmptyString
  end.

(** [`${n}`] for an integer [n] (the decimal form; JavaScript switches to
    an exponent only from [1e21] on). *)
Definition toString (n : Z) : string :=
  if n <? 0
  then String "-"%char (digitsOf (S (Z.to_nat (Z.log2 (- n)))) (- n))
  else digitsOf (S (Z.to_nat (Z.log2 n))) n.

(** [buffer.toString('hex')]: two lower-case digits for each byte. *)
Fixpoint toHex (bytes : list Z) : string :=
  match bytes with
  | [] => EmptyString
  | b :: bs =>
      String (digitChar ((b / 16) mod 16))
        (String (digitChar (b mod 16)) (toHex bs))
  end.

(** [Buffer.from(s, 'utf8')] *)
Definition bytesOf (s : string) : list Z :=
  code <$> list_ascii_of_string s.

End JsNumber.

Import JsNumber.

(** ** JavaScript arithmetic

    A finite JavaScript number is a rational number.  The result of an
    arithmetic operation is the exact result rounded to a number the
    machine has; the rounding [fl] is a parameter, with two instances:
    [exact], which does not round, and [binary64], which rounds to the
    nearest IEEE 754 double, ties to even (overflow left aside). *)

Module JsArith.

Local Open Scope Q_scope.

Section WithRounding.

Variable fl : Q → Q.

Definition sub (x y : Q) : Q := fl (x - y).
Definition mul (x y : Q) : Q := fl (x * y).
Definition div (x y : Q) : Q := fl (x / y).

End WithRounding.

(** [Math.round(x)]: the nearest integer, a tie going up. *)
Definition round (x : Q) : Z := Qfloor (x + (1 # 2)).

Definition exact (x : Q) : Q := x.

Definition roundHalfEven (x : Q) : Z :=
  let f := Qfloor x in
  match Qcompare (x - inject_Z f) (1 # 2) with
  | Lt => f
  | Gt => (f + 1)%Z
  | Eq => if Z.even f then f else (f + 1)%Z
  end.

Definition binary64 (x : Q) : Q :=
  if Qeq_bool x 0 then 0
  else
    let a := Qabs x in
    let e0 := (Z.log2 (Qnum a) - Z.log2 (Zpos (Qden a)))%Z in
    let e1 := if Qle_bool (2 ^ e0) a then e0 else (e0 - 1)%Z in
    let e := Z.max (e1 - 52) (-1074) in
    let m := inject_Z (roundHalfEven (a / 2 ^ e)) * 2 ^ e in
    Qred (if Qle_bool 0 x then m else - m).

End JsArith.

(** ** [crypto.pbkdf2Sync(password, salt, iterations, 64, 'sha512')]

    PBKDF2 (RFC 8018) over HMAC (RFC 2104) over SHA-512, which stays a
    parameter: nothing below depends on what the hash function computes. *)

Module Pbkdf2.

Local Open Scope Z_scope.

Section WithHash.

Variable sha512 : list Z → list Z.

(** The block length of SHA-512, in bytes. *)
Definition blockLen : nat := 128.

(** HMAC keys longer than a block are hashed; all are padded with zeros. *)
Definition padKey (key : list Z) : list Z :=
  let k := if (blockLen <? length key)%nat then sha512 key else key in
  k ++ replicate (blockLen - length k) 0.

Definition hmac (key msg : list Z) : list Z :=
  let k0 := padKey key in
  sha512 ((Z.lxor 92 <$> k0) ++ sha512 ((Z.lxor 54 <$> k0) ++ msg)).

(** One more round: [U_(j+1) = PRF(P, U_j)], xored into the block. *)
Definition round (key : list Z) (st : list Z * list Z) : list Z * list Z :=
  let u := hmac key st.1 in (u, zip_with Z.lxor st.2 u).

(** The first block [T_1 = U_1 xor ... xor U_c]; the digest of SHA-512 has
    64 bytes, so a key of 64 bytes is the first block alone. *)
Definition pbkdf2 (key salt : list Z) (c : Z) (keylen : nat) : list Z :=
  let u1 := hmac key (salt ++ [0; 0; 0; 1]) in
  take keylen (Z.iter (c - 1) (round key) (u1, u1)).2.

(** [pbkdf2Sync] throws ([None]) unless the iteration count is an integer
    from 1 to 2^31 - 1. *)
Definition pbkdf2Sync (password salt : string) (iterations : Z)
    : option (list Z) :=
  if (1 <=? iterations) && (iterations <=? 2147483647)
  then Some (pbkdf2 (bytesOf password) (bytesOf salt) iterations 64)
  else None.

End WithHash.

End Pbkdf2.

Import Pbkdf2.

(** ** [CryptoUtils]: the password credential ([src/crypto.ts]) *)

Module CryptoUtils.

Section WithHash.

Variable sha512 : list Z → list Z.

(** [generatePasswordHash(password, salt?, iterations = 100000)].
    [random] is the result of [crypto.randomBytes(32)]; [None] is the
    exception of [pbkdf2Sync], which the function does not catch. *)
Definition generatePasswordHash (random : list Z) (password : string)
    (salt : option string) (iterations : option Z) : option string :=
  let iterations := default 100000%Z iterations in
  let saltToUse := or_else (default EmptyString salt) (toHex random) in
  hash ← pbkdf2Sync sha512 password saltToUse iterations;
  Some ("pbkdf2_sha512$" +:+ toString iterations +:+ "$" +:+ saltToUse
        +:+ "$" +:+ toHex hash).

(** [verifyPassword(password, hash)]; every exception is caught and gives
    [false]. *)
Definition verifyPassword (password hash : string) : bool :=
  let parts := split hash "$" in
  if negb (length parts =? 4)%nat
     || negb (strictEquals (nth_part parts 0) "pbkdf2_sha512")
  then false
  else
    match parseInt (or_else (nth_part parts 1) "100000") with
    | None => false
    | Some iterations =>
        let salt := nth_part parts 2 in
        let originalHash := nth_part parts 3 in
        match pbkdf2Sync sha512 password (or_else salt "") iterations with
        | None => false
        | Some hashToVerify => strictEquals originalHash (toHex hashToVerify)
        end
    end.

(** The same function, counting the character comparisons of its final
    [===] (0 when the comparison is not reached). *)
Definition verifyPasswordSteps (password hash : string) : nat :=
  let parts := split hash "$" in
  if negb (length parts =? 4)%nat
     || negb (strictEquals (nth_part parts 0) "pbkdf2_sha512")
  then 0%nat
  else
    match parseInt (or_else (nth_part parts 1) "100000") with
    | None => 0%nat
    | Some iterations =>
        let salt := nth_part parts 2 in
        let originalHash := nth_part parts 3 in
        match pbkdf2Sync sha512 password (or_else salt "") iterations with
        | None => 0%nat
        | Some hashToVerify =>
            strictEqualsSteps originalHash (toHex hashToVerify)
        end
    end.

(** The digest of a password in hexadecimal, as both functions compute it. *)
Definition hexDigest (password : string) (iterations : Z) (salt : string)
    : string :=
  toHex (pbkdf2 sha512 (bytesOf password) (bytesOf salt) iterations 64).

(** The salt [generatePasswordHash] uses. *)
Definition saltToUse (random : list Z) (salt : option string) : string :=
  or_else (default EmptyString salt) (toHex random).

(** [crypto.timingSafeEqual(a, b)] as [verifyHMAC] calls it on two buffers:
    an exception ([None]) for different lengths, otherwise every pair of
    bytes is compared; with the number of comparisons. *)
Definition timingSafeEqual (a b : list Z) : option bool :=
  if (length a =? length b)%nat
  then Some (forallb (λ p : Z * Z, p.1 =? p.2)%Z (zip a b))
  else None.

Definition timingSafeEqualSteps (a b : list Z) : nat :=
  if (length a =? length b)%nat then length a else 0%nat.

End WithHash.

(** *** The hash engine *)

Record HashResult : Type := {
  algorithm : string;
  hash : string;
  fileSize : Z;
  fileName : string;
  computeTime : Z
}.

(** What [fs.createReadStream(filePath, { highWaterMark })] delivers in its
    [data] events: the content in chunks of [highWaterMark] bytes, the last
    one possibly shorter. *)
Fixpoint chunksOf (fuel highWaterMark : nat) (content : list Z)
    : list (list Z) :=
  match fuel, content with
  | O, _ | _, [] => []
  | S fuel', _ =>
      take highWaterMark content
      :: chunksOf fuel' highWaterMark (drop highWaterMark content)
  end.

Definition readStream (highWaterMark : nat) (content : list Z)
    : list (list Z) :=
  chunksOf (length content) highWaterMark content.

Section WithDigest.

(** [crypto.createHash(algorithm)]: the state of an incremental digest,
    [hash.update(data)] and [hash.digest('hex')]. *)
Variable State : Type.
Variable createHash : string → State.
Variable update : State → list Z → State.
Variable digest : State → string.

(** The rounding of the machine's arithmetic. *)
Variable fl : Q → Q.

(** The handler of the [data] event: the state is the digest, the bytes
    processed, the size of the file and the values passed to the progress
    callback so far. *)
Definition onData (progressCallback : bool) (totalSize : Z)
    (st : State * Z * Z * list Z) (data : list Z) : State * Z * Z * list Z :=
  let '(h, processedBytes, fileSize, reports) := st in
  let h := update h data in
  let processedBytes := (processedBytes + Z.of_nat (length data))%Z in
  let fileSize := (fileSize + Z.of_nat (length data))%Z in
  if progressCallback && (0 <? totalSize)%Z then
    let progress :=
      JsArith.round
        (JsArith.mul fl
           (JsArith.div fl (inject_Z processedBytes) (inject_Z totalSize))
           100) in
    (h, processedBytes, fileSize, reports ++ [progress])
  else (h, processedBytes, fileSize, reports).

(** [generateFileHash(filePath, algorithm, progressCallback)] on a file
    with the given content, read between [startTime] and [endTime]; the
    second component lists the calls of the progress callback. *)
Definition generateFileHash (content : list Z) (baseName : string)
    (startTime endTime : Z) (algorithm : string) (progressCallback : bool)
    : HashResult * list Z :=
  let totalSize := Z.of_nat (length content) in
  let '(h, _, fileSize, reports) :=
    foldl (onData progressCallback totalSize)
      (createHash algorithm, 0%Z, 0%Z, [])
      (readStream (64 * 1024) content) in
  ({| algorithm := algorithm; hash := digest h; fileSize := fileSize;
      fileName := baseName; computeTime := (endTime - startTime)%Z |},
   reports).

End WithDigest.

End CryptoUtils.

Import CryptoUtils.

(** ** [path.posix]: the path functions of Node.js on a POSIX system *)

Module Path.

(** [path.sep] *)
Definition sep : string := "/".

Definition isAbsolute (path : string) : bool := startsWith path "/".

Fixpoint endsWithSlash (path : string) : bool :=
  match path with
  | EmptyString => false
  | String c EmptyString => Ascii.eqb c "/"
  | String _ rest => endsWithSlash rest
  end.

(** [normalizeString]: the segments between separators, left to right;
    empty segments and ["."] are dropped, [".."] removes the segment before
    it, or stays when there is none and the path is relative.  [res] is
    the result so far, last segment first. *)
Fixpoint normalizeSegments (allowAboveRoot : bool) (res segs : list string)
    : list string :=
  match segs with
  | [] => reverse res
  | seg :: rest =>
      if String.eqb seg "" || String.eqb seg "." then
        normalizeSegments allowAboveRoot res rest
      else if String.eqb seg ".." then
        match res with
        | top :: res' =>
            if String.eqb top ".."
            then normalizeSegments allowAboveRoot
                   (if allowAboveRoot then seg :: res else res) rest
            else normalizeSegments allowAboveRoot res' rest
        | [] =>
            normalizeSegments allowAboveRoot
              (if allowAboveRoot then [seg] else []) rest
        end
      else normalizeSegments allowAboveRoot (seg :: res) rest
  end.

Definition segments (allowAboveRoot : bool) (path : string) : list string :=
  normalizeSegments allowAboveRoot [] (split path "/").

Definition normalizeString (path : string) (allowAboveRoot : bool) : string :=
  join "/" (segments allowAboveRoot path).

(** [path.normalize(path)] *)
Definition normalize (path : string) : string :=
  if negb (truthy path) then "."
  else
    let isAbs := isAbsolute path in
    let trailingSeparator := endsWithSlash path in
    let p := normalizeString path (negb isAbs) in
    if negb (truthy p) then
      if isAbs then "/" else if trailingSeparator then "./" else "."
    else
      (if isAbs then "/" else "") +:+ p
      +:+ (if trailingSeparator then "/" else "").

(** [path.join(...args)] *)
Definition joinPaths (args : list string) : string :=
  match filter (λ a, truthy a = true) args with
  | [] => "."
  | parts => normalize (join "/" parts)
  end.

(** The file an argument of [path.resolve] names, as the list of its
    segments below the root: the argument itself when it is absolute,
    otherwise the argument under the working directory [cwd] (an absolute
    path, as [process.cwd()] always is). *)
Definition resolveSegments (cwd path : string) : list string :=
  let resolvedPath := if truthy path then path +:+ "/" else "" in
  if truthy path && isAbsolute path then segments false resolvedPath
  else segments false (cwd +:+ "/" +:+ resolvedPath).

(** The absolute path with the given segments. *)
Definition fromSegments (segs : list string) : string :=
  "/" +:+ join "/" segs.

(** [path.resolve(path)] *)
Definition resolve (cwd path : string) : string :=
  fromSegments (resolveSegments cwd path).

(** A segment of a resolved path: not empty, not ["."] or [".."], and
    without a separator. *)
Definition cleanSegment (seg : string) : bool :=
  negb (String.eqb seg "") && negb (String.eqb seg ".")
  && negb (String.eqb seg "..") && negb (has_char "/" seg).

(** The segments, each one followed by a separator. *)
Fixpoint withSlashes (segs : list string) : string :=
  match segs with
  | [] => ""
  | seg :: rest => seg +:+ String "/" (withSlashes rest)
  end.

Fixpoint dropSlashes (l : list ascii) : list ascii :=
  match l with
  | c :: l' => if Ascii.eqb c "/" then dropSlashes l' else l
  | [] => []
  end.

Fixpoint dropToSlash (l : list ascii) : list ascii :=
  match l with
  | c :: l' => if Ascii.eqb c "/" then l else dropToSlash l'
  | [] => []
  end.

(** [path.dirname(path)]: the scan from the end, down to the second
    character, skips the trailing separators, then the last segment. *)
Definition dirname (path : string) : string :=
  match path with
  | EmptyString => "."
  | String c rest =>
      let hasRoot := Ascii.eqb c "/" in
      match dropToSlash (dropSlashes (reverse (list_ascii_of_string rest)))
      with
      | [] => if hasRoot then "/" else "."
      | _ :: r =>
          if hasRoot && bool_decide (r = []) then "//"
          else String c (string_of_list_ascii (reverse r))
      end
  end.

(** [path.slice(start, end)] *)
Definition slice (path : string) (start stop : Z) : string :=
  String.substring (Z.to_nat start) (Z.to_nat (stop - start)) path.

(** The loop of [path.extname], from the last character (index [i]) down;
    the state is [startDot], [startPart], [end], [matchedSlash] and
    [preDotState]. *)
Fixpoint extnameScan (chars : list ascii) (i : Z)
    (st : Z * Z * Z * bool * Z) : Z * Z * Z * bool * Z :=
  let '(startDot, startPart, stop, matchedSlash, preDotState) := st in
  match chars with
  | [] => st
  | c :: rest =>
      if Ascii.eqb c "/" then
        if negb matchedSlash
        then (startDot, i + 1, stop, matchedSlash, preDotState)
        else extnameScan rest (i - 1) st
      else
        let '(stop, matchedSlash) :=
          if stop =? -1 then (i + 1, false) else (stop, matchedSlash) in
        let '(startDot, preDotState) :=
          if Ascii.eqb c "." then
            if startDot =? -1 then (i, preDotState) else (startDot, 1)
          else if negb (startDot =? -1) then (startDot, -1)
          else (startDot, preDotState) in
        extnameScan rest (i - 1)
          (startDot, startPart, stop, matchedSlash, preDotState)
  end%Z.

(** [path.extname(path)] *)
Definition extname (path : string) : string :=
  let n := Z.of_nat (String.length path) in
  let '(startDot, startPart, stop, _, preDotState) :=
    extnameScan (reverse (list_ascii_of_string path)) (n - 1)
      (-1, 0, -1, true, 0)%Z in
  if ((startDot =? -1) || (stop =? -1) || (preDotState =? 0)
      || ((preDotState =? 1) && (startDot =? stop - 1)
          && (startDot =? startPart + 1)))%Z
  then ""
  else slice path startDot stop.

(** The loop of [path.basename] without a suffix; the state is [start],
    [end] and [matchedSlash]. *)
Fixpoint basenameScan (chars : list ascii) (i : Z) (st : Z * Z * bool)
    : Z * Z * bool :=
  let '(start, stop, matchedSlash) := st in
  match chars with
  | [] => st
  | c :: rest =>
      if Ascii.eqb c "/" then
        if negb matchedSlash then (i + 1, stop, matchedSlash)
        else basenameScan rest (i - 1) st
      else if stop =? -1 then basenameScan rest (i - 1) (start, i + 1, false)
      else basenameScan rest (i - 1) st
  end%Z.

(** The loop of [path.basename] with a suffix; the state is [start],
    [end], [matchedSlash], [extIdx] and [firstNonSlashEnd]. *)
Fixpoint basenameSuffixScan (suffix : string) (chars : list ascii) (i : Z)
    (st : Z * Z * bool * Z * Z) : Z * Z * bool * Z * Z :=
  let '(start, stop, matchedSlash, extIdx, firstNonSlashEnd) := st in
  match chars with
  | [] => st
  | c :: rest =>
      if Ascii.eqb c "/" then
        if negb matchedSlash
        then (i + 1, stop, matchedSlash, extIdx, firstNonSlashEnd)
        else basenameSuffixScan suffix rest (i - 1) st
      else
        let '(matchedSlash, firstNonSlashEnd) :=
          if firstNonSlashEnd =? -1 then (false, i + 1)
          else (matchedSlash, firstNonSlashEnd) in
        let '(extIdx, stop) :=
          if 0 <=? extIdx then
            if bool_decide (String.get (Z.to_nat extIdx) suffix = Some c)
            then (extIdx - 1, if extIdx - 1 =? -1 then i else stop)
            else (-1, firstNonSlashEnd)
          else (extIdx, stop) in
        basenameSuffixScan suffix rest (i - 1)
          (start, stop, matchedSlash, extIdx, firstNonSlashEnd)
  end%Z.

(** [path.basename(path, suffix)] *)
Definition basename (path suffix : string) : string :=
  let n := Z.of_nat (String.length path) in
  let chars := reverse (list_ascii_of_string path) in
  if truthy suffix && (String.length suffix <=? String.length path)%nat then
    if String.eqb suffix path then ""
    else
      let '(start, stop, _, _, firstNonSlashEnd) :=
        basenameSuffixScan suffix chars (n - 1)
          (0, -1, true, Z.of_nat (String.length suffix) - 1, -1)%Z in
      let stop :=
        if (start =? stop)%Z then firstNonSlashEnd
        else if (stop =? -1)%Z then n else stop in
      slice path start stop
  else
    let '(start, stop, _) := basenameScan chars (n - 1) (0, -1, true)%Z in
    if (stop =? -1)%Z then "" else slice path start stop.

End Path.

Import Path.

(** ** [fs]: a file system without symbolic links

    A file or directory is named by the list of its segments below the
    root; the root itself is [[]] and always a directory.  There are
    directories and files only: [fs.mkdirSync] and [fs.createWriteStream]
    follow symbolic links, and what is proved of a disk is proved of a
    disk that has none. *)

Module Fs.

Inductive node : Type :=
  | Dir
  | File (content : list Z).

Global Instance node_eq_dec : EqDecision node.
Proof. solve_decision. Defined.

Definition lookupNode (disk : gmap (list string) node) (p : list string)
    : option node :=
  match p with
  | [] => Some Dir
  | _ => disk !! p
  end.

(** [fs.mkdirSync(p, { recursive: true })] from the directory [above]
    down: missing directories are made, existing ones are kept, a file in
    the way is an exception ([None]). *)
Fixpoint mkdirFrom (disk : gmap (list string) node)
    (above below : list string) : option (gmap (list string) node) :=
  match below with
  | [] => Some disk
  | seg :: rest =>
      let p := above ++ [seg] in
      match disk !! p with
      | Some (File _) => None
      | Some Dir => mkdirFrom disk p rest
      | None => mkdirFrom (<[p := Dir]> disk) p rest
      end
  end.

Definition mkdirSync (disk : gmap (list string) node) (p : list string)
    : option (gmap (list string) node) :=
  mkdirFrom disk [] p.

(** [fs.createWriteStream(p)] with a stream of [content] piped into it and
    closed: the file is created or replaced; a directory at [p], or no
    directory above [p], is an error ([None]). *)
Definition writeStream (disk : gmap (list string) node) (p : list string)
    (content : list Z) : option (gmap (list string) node) :=
  match lookupNode disk p, lookupNode disk (removelast p) with
  | Some Dir, _ => None
  | _, Some Dir => Some (<[p := File content]> disk)
  | _, _ => None
  end.

(** What may happen to the node [q] when directories are made on the way
    to [p]: nothing, or [q] is above [p], was missing and is now a
    directory. *)
Definition keptOrMade (p q : list string)
    (before after : gmap (list string) node) : Prop :=
  after !! q = before !! q
  ∨ (q `prefix_of` p ∧ before !! q = None ∧ after !! q = Some Dir).

End Fs.

Import Fs.

(** ** [yauzl]: the names of the entries *)

Module Yauzl.

Definition isLetter (c : ascii) : bool :=
  (((65 <=? code c) && (code c <=? 90))
   || ((97 <=? code c) && (code c <=? 122)))%Z.

(** [/^[a-zA-Z]:/.test(fileName)] *)
Definition drivePrefix (fileName : string) : bool :=
  match fileName with
  | String a (String b _) => isLetter a && Ascii.eqb b ":"
  | _ => false
  end.

(** [fileName.replace(/\\/g, "/")]: without [strictFileNames] a backslash
    in a stored name is read as a separator. *)
Fixpoint allowBackslash (fileName : string) : string :=
  match fileName with
  | EmptyString => EmptyString
  | String c rest =>
      String (if Ascii.eqb c "\" then "/"%char else c) (allowBackslash rest)
  end.

(** [validateFileName(fileName)] of [yauzl], which is not in the
    repository: [yauzl.open] without [decodeStrings: false] applies it to
    the decoded name of every entry before it emits the entry.  The result
    is the message of the error, or [None] for a name that passes: a name
    with a backslash, a name that starts with a drive letter and a colon
    or with a slash, and a name with a [..] segment are refused. *)
Definition validateFileName (fileName : string) : option string :=
  if has_char "\" fileName
  then Some ("invalid characters in fileName: " +:+ fileName)
  else if drivePrefix fileName || startsWith fileName "/"
  then Some ("absolute path: " +:+ fileName)
  else if bool_decide (".." ∈ split fileName "/")
  then Some ("invalid relative path: " +:+ fileName)
  else None.

End Yauzl.

Import Yauzl.

(** ** [SimplZip]: the archive reader and writer *)

Module SimplZip.

(** An entry as [yauzl] reads it from the central directory: its decoded
    name and what [openReadStream] delivers, the content or an error
    ([None]). *)
Record Entry : Type := {
  fileName : string;
  stream : option (list Z)
}.

Record Archive : Type := {
  comment : string;
  entries : list Entry
}.

(** What is found at the path of the archive. *)
Inductive ZipFile : Type :=
  | Missing
  | Unreadable
  | Opened (archive : Archive).

Inductive Error : Type :=
  | NotFound
  | PasswordRequired
  | IncorrectPassword
  | OpenFailed
  | InvalidEntry
  | ReadFailed
  | WriteFailed.

(** How a call ends: the promise is resolved, or rejected with an error,
    or an exception escapes from an event handler. *)
Inductive Outcome : Type :=
  | Resolved (directory : string)
  | Rejected (e : Error)
  | Uncaught.

Record Run : Type := {
  outcome : Outcome;
  disk : gmap (list string) node;
  warnings : list (Z * string);
  infos : list string
}.

Definition marker : string := "SZIP_PASSWORD_PROTECTED:".

Section WithEnvironment.

Variable sha512 : list Z → list Z.

(** [process.cwd()] *)
Variable cwd : string.

(** [isPathSafe(targetPath, allowedRoot)] *)
Definition isPathSafe (targetPath allowedRoot : string) : bool :=
  let resolvedTarget := resolve cwd targetPath in
  let resolvedRoot := resolve cwd allowedRoot in
  startsWith resolvedTarget (resolvedRoot +:+ sep)
  || strictEquals resolvedTarget resolvedRoot.

(** [checkPasswordProtection(zipPath)] *)
Definition checkPasswordProtection (zip : ZipFile) : bool :=
  match zip with
  | Opened a => includes (comment a) marker
  | _ => false
  end.

(** The handlers of the [entry], [error] and [end] events: the entries
    are read one at a time, each one after the one before it is dealt
    with.  A name [yauzl] refuses is its [error] event in place of the
    entry: [zipfile.on('error', reject)] rejects the promise and no entry
    is read after it. *)
Fixpoint extractEntries (extractTo : string) (es : list Entry)
    (d : gmap (list string) node) (ws : list (Z * string))
    (log : list string) : Run :=
  match es with
  | [] => {| outcome := Resolved extractTo; disk := d;
             warnings := ws; infos := log |}
  | entry :: rest =>
      match validateFileName (fileName entry) with
      | Some _ => {| outcome := Rejected InvalidEntry; disk := d;
                     warnings := ws; infos := log |}
      | None =>
          let entryPath := joinPaths [extractTo; fileName entry] in
          if negb (isPathSafe entryPath extractTo) then
            extractEntries extractTo rest d
              (ws ++ [(103%Z, "Skipping unsafe path: " +:+ fileName entry)]) log
          else if endsWithSlash (fileName entry) then
            match mkdirSync d (resolveSegments cwd entryPath) with
            | None => {| outcome := Uncaught; disk := d;
                         warnings := ws; infos := log |}
            | Some d' => extractEntries extractTo rest d' ws log
            end
          else
            match mkdirSync d (resolveSegments cwd (dirname entryPath)) with
            | None => {| outcome := Uncaught; disk := d;
                         warnings := ws; infos := log |}
            | Some d' =>
                match stream entry with
                | None => {| outcome := Rejected ReadFailed; disk := d';
                             warnings := ws; infos := log |}
                | Some content =>
                    match writeStream d' (resolveSegments cwd entryPath) content
                    with
                    | None => {| outcome := Rejected WriteFailed; disk := d';
                                 warnings := ws; infos := log |}
                    | Some d'' => extractEntries extractTo rest d'' ws log
                    end
                end
            end
      end
  end.

(** The directory [unzip] extracts to. *)
Definition extractRoot (zipPath : string) (outputPath : option string)
    : string :=
  let zipFile := resolve cwd zipPath in
  match outputPath with
  | Some o => if truthy o then resolve cwd o else dirname zipFile
  | None => dirname zipFile
  end.

(** [unzip(zipPath, outputPath?, password?)], on the file system [d] with
    [zip] at the path of the archive. *)
Definition unzip (d : gmap (list string) node) (zip : ZipFile)
    (zipPath : string) (outputPath password : option string) : Run :=
  let extractTo := extractRoot zipPath outputPath in
  let stop o log :=
    {| outcome := o; disk := d; warnings := []; infos := log |} in
  let password := default "" password in
  match zip with
  | Missing => stop (Rejected NotFound) []
  | _ =>
      if checkPasswordProtection zip && negb (truthy password)
      then stop (Rejected PasswordRequired) []
      else
        match zip with
        | Opened a =>
            let start log := extractEntries extractTo (entries a) d [] log in
            if truthy password && truthy (comment a) then
              let commentParts := split (comment a) marker in
              if (length commentParts =? 2)%nat then
                let storedHash := nth_part commentParts 1 in
                if truthy storedHash
                   && negb (verifyPassword sha512 password storedHash)
                then stop (Rejected IncorrectPassword) []
                else start ["Password verified"]
              else start []
            else start []
        | _ => stop (Rejected OpenFailed) []
        end
  end.

End WithEnvironment.

(** *** The archive writer *)

(** A source: a file, or a directory with named children. *)
#[warnings="-register-all"] Inductive Tree : Type :=
  | FileNode (content : list Z)
  | DirNode (children : list (string * Tree)).

(** An entry as it is stored in the container: directories have a name
    that ends with a separator and no data. *)
Record Stored : Type := {
  storedName : string;
  storedData : list Z
}.

Record Container : Type := {
  containerComment : string;
  containerEntries : list Stored
}.

Record ZipOptions : Type := {
  password : option string;
  compressionLevel : option Z;
  generateHash : option string
}.

Record ZipResult : Type := {
  outputPath : string;
  size : Z;
  directory : string;
  resultHash : option string;
  hashAlgorithm : option string;
  compressionRatio : Q;
  fileCount : Z
}.

(** [calculateDirectorySize(dirPath)] *)
Fixpoint calculateDirectorySize (t : Tree) : Z :=
  match t with
  | FileNode content => Z.of_nat (length content)
  | DirNode children =>
      (fix traverse (items : list (string * Tree)) : Z :=
         match items with
         | [] => 0
         | (_, item) :: items' =>
             calculateDirectorySize item + traverse items'
         end%Z) children
  end.

(** The two steps of the [close] handler: the ratio, then its rounding
    to two decimals. *)
Definition ratioOf (fl : Q → Q) (originalSize size : Z) : Q :=
  if (0 <? originalSize)%Z
  then JsArith.mul fl
         (JsArith.div fl
            (JsArith.sub fl (inject_Z originalSize) (inject_Z size))
            (inject_Z originalSize))
         100
  else 0.

Definition roundedRatio (fl : Q → Q) (originalSize size : Z) : Q :=
  JsArith.div fl
    (inject_Z
       (JsArith.round (JsArith.mul fl (ratioOf fl originalSize size) 100)))
    100.

Section Writer.

Variable sha512 : list Z → list Z.
Variable cwd : string.
Variable fl : Q → Q.

(** The compression codec: [deflate] at a level, and [inflate], which may
    fail. *)
Variable deflate : Z → list Z → list Z.
Variable inflate : list Z → option (list Z).

(** The size in bytes of the container file, and its digest. *)
Variable containerSize : Container → Z.
Variable fileHash : string → Container → string.

(** Modelled from the spec: the entries [archiver] makes of a source
    ([archive.directory] and [archive.file] are not in the repository).
    A directory becomes an entry too, then its descendants follow; every
    name is relative to the top-level name, which is [pre] at the top. *)
Fixpoint walk (level : Z) (pre : list string) (t : Tree) : list Stored :=
  match t with
  | FileNode content =>
      [{| storedName := join "/" pre; storedData := deflate level content |}]
  | DirNode children =>
      {| storedName := join "/" pre +:+ "/"; storedData := [] |}
      :: (fix descend (items : list (string * Tree)) : list Stored :=
            match items with
            | [] => []
            | (name, item) :: items' =>
                walk level (pre ++ [name]) item ++ descend items'
            end) children
  end.

(** Modelled from the spec: [archive.directory(source, base)] enters the
    descendants of the directory, not the directory itself;
    [archive.file(source, { name: base })] enters the file. *)
Definition archiveEntries (level : Z) (base : string) (t : Tree)
    : list Stored :=
  match t with
  | FileNode _ => walk level [base] t
  | DirNode _ => drop 1 (walk level [base] t)
  end.

(** What [yauzl] reads back from a container: the name decoded, with
    the backslashes as separators.  Data that does not inflate is taken as
    an entry no stream can be opened for; a stream that breaks after it
    was opened (the file is then already made, and the error of the
    stream is caught by nothing) is no part of the model. *)
Definition readEntry (s : Stored) : Entry :=
  {| fileName := allowBackslash (storedName s);
     stream := inflate (storedData s) |}.

Definition readContainer (c : Container) : Archive :=
  {| comment := containerComment c;
     entries := readEntry <$> containerEntries c |}.

(** [zip(sourcePath, outputPath, options)] with the source found at
    [sourcePath] ([None]: nothing there) and [random] for the salt; the
    result is the container written and the value the promise resolves
    to.  The warning about a weak password is left out.  [archiveComment]
    is what [archive.comment] is set to; [archiver] takes the comment of
    the container from the options it is made with and does not read this
    property, so that the container is written with an empty comment. *)
Definition zip (random : list Z) (source : option Tree)
    (sourcePath outputPath : string) (options : ZipOptions)
    : option (Container * ZipResult) :=
  let src := resolve cwd sourcePath in
  let output := resolve cwd outputPath in
  t ← source;
  let originalSize := calculateDirectorySize t in
  let level :=
    match compressionLevel options with
    | Some l => if (l =? 0)%Z then 9%Z else l
    | None => 9%Z
    end in
  let pw := default "" (password options) in
  let archiveComment :=
    if truthy pw
    then marker +:+ default "" (generatePasswordHash sha512 random pw
                                  None None)
    else "" in
  let _ := archiveComment in
  let stored := archiveEntries level (basename src "") t in
  let container :=
    {| containerComment := ""; containerEntries := stored |} in
  let alg := default "" (generateHash options) in
  Some (container,
        {| outputPath := output;
           size := containerSize container;
           directory := dirname output;
           resultHash :=
             if truthy alg then Some (fileHash alg container) else None;
           hashAlgorithm := if truthy alg then Some alg else None;
           compressionRatio :=
             roundedRatio fl originalSize (containerSize container);
           fileCount :=
             match t with
             | FileNode _ => 1 + Z.of_nat (length stored)
             | DirNode _ => Z.of_nat (length stored)
             end |}).

End Writer.

End SimplZip.

Import SimplZip.

(** ** A source as the file system holds it *)

Module SourceTree.

(** The node of a source at a path relative to it, as [fs.statSync] and
    [fs.readdirSync] find it: the first child of that name. *)
Fixpoint lookupTree (t : Tree) (q : list string) {struct q} : option Tree :=
  match q with
  | [] => Some t
  | name :: q' =>
      match t with
      | FileNode _ => None
      | DirNode children =>
          (fix find (items : list (string * Tree)) : option Tree :=
             match items with
             | [] => None
             | (n, item) :: items' =>
                 if String.eqb n name then lookupTree item q' else find items'
             end) children
      end
  end.

(** What a node of a source is on disk. *)
Definition nodeOf (t : Tree) : node :=
  match t with
  | FileNode content => File content
  | DirNode _ => Dir
  end.

(** The names in a directory are file names (not empty, not ["."] or
    [".."], without a separator) that have no backslash, which would be
    read back as a separator, and differ from each other. *)
Fixpoint wellFormed (t : Tree) : bool :=
  match t with
  | FileNode _ => true
  | DirNode children =>
      bool_decide (NoDup children.*1)
      && forallb (λ item, cleanSegment item.1
                          && negb (has_char "\" item.1)
                          && wellFormed item.2) children
  end.

(** The segments of a name that [yauzl] reads back as it was stored and
    does not take for an absolute path: none has a backslash, and the
    first does not start with a drive letter and a colon. *)
Definition storable (pre : list string) : bool :=
  forallb (λ s, negb (has_char "\" s)) pre
  && negb (drivePrefix (hd "" pre)).

End SourceTree.

Import SourceTree.

(** ** [SecurityUtils] *)

Module SecurityUtils.

(** [s.length]: the number of UTF-16 code units of a string given by its
    UTF-8 bytes. *)
Definition jsLength (s : string) : nat :=
  length (filter (λ c, (code c <? 128)%Z || (192 <=? code c)%Z = true)
            (list_ascii_of_string s))
  + length (filter (λ c, (240 <=? code c)%Z = true) (list_ascii_of_string s)).

Definition mapChars (f : Z → Z) (s : string) : string :=
  string_of_list_ascii
    ((λ c, ascii_of_nat (Z.to_nat (f (code c)))) <$> list_ascii_of_string s).

(** [s.toUpperCase()] and [s.toLowerCase()], on the letters of ASCII (the
    names and extensions below contain no letter that another character
    maps to). *)
Definition toUpperCase : string → string :=
  mapChars (λ c, if (97 <=? c)%Z && (c <=? 122)%Z then (c - 32)%Z else c).

Definition toLowerCase : string → string :=
  mapChars (λ c, if (65 <=? c)%Z && (c <=? 90)%Z then (c + 32)%Z else c).

(** A character the regular expression of [validateFilename] refuses: a
    control character (0 to 31, 127), a double quote or one of [<>:|?*]. *)
Definition dangerousChar (c : ascii) : bool :=
  let n := code c in
  ((n <=? 31) || (n =? 127) || (n =? 60) || (n =? 62) || (n =? 58)
   || (n =? 34) || (n =? 124) || (n =? 63) || (n =? 42))%Z.

Definition reserved : list string :=
  ["CON"; "PRN"; "AUX"; "NUL"; "COM1"; "COM2"; "COM3"; "COM4"; "COM5";
   "COM6"; "COM7"; "COM8"; "COM9"; "LPT1"; "LPT2"; "LPT3"; "LPT4"; "LPT5";
   "LPT6"; "LPT7"; "LPT8"; "LPT9"].

Definition DANGEROUS_EXTENSIONS : list string :=
  [".exe"; ".bat"; ".cmd"; ".com"; ".scr"; ".vbs"; ".js"].

(** [validateFilename(filename)] *)
Definition validateFilename (filename : string) : bool :=
  if negb (truthy filename) then false
  else if (255 <? jsLength filename)%nat then false
  else if existsb dangerousChar (list_ascii_of_string filename) then false
  else
    let baseName := toUpperCase (basename filename (extname filename)) in
    if bool_decide (baseName ∈ reserved) then false
    else
      let ext := toLowerCase (extname filename) in
      if bool_decide (ext ∈ DANGEROUS_EXTENSIONS) then false
      else true.

(** [SecurityUtils.isPathSafe] has the text of [SimplZip.isPathSafe]. *)
Definition isPathSafe (cwd targetPath allowedRoot : string) : bool :=
  let resolvedTarget := resolve cwd targetPath in
  let resolvedRoot := resolve cwd allowedRoot in
  startsWith resolvedTarget (resolvedRoot +:+ sep)
  || strictEquals resolvedTarget resolvedRoot.

End SecurityUtils.

(** ** The progress of the hash engine, in the words of the specification *)

Module HashEngineSpec.

(** After each chunk: the bytes processed so far over the total, as a
    percentage rounded to an integer. *)
Fixpoint progressAfterEachChunk (fl : Q → Q) (total processed : Z)
    (chunks : list (list Z)) : list Z :=
  match chunks with
  | [] => []
  | chunk :: rest =>
      let processed' := (processed + Z.of_nat (length chunk))%Z in
      JsArith.round
        (JsArith.mul fl
           (JsArith.div fl (inject_Z processed') (inject_Z total)) 100)
      :: progressAfterEachChunk fl total processed' rest
  end.

End HashEngineSpec.

Import HashEngineSpec.

(** ** [CryptoUtils]: the checks of hashes and HMACs *)

Module CryptoChecks.

(** The value of a hexadecimal digit, in either case. *)
Definition hexValue (c : ascii) : option Z :=
  match digitValue c with
  | Some d => if (d <? 16)%Z then Some d else None
  | None => None
  end.

(** [Buffer.from(s, 'hex')]: one byte for each pair of hexadecimal digits;
    the decoding stops at the first pair that is not one, and a last
    single character is dropped. *)
Fixpoint bufferFromHex (s : string) : list Z :=
  match s with
  | String a (String b rest) =>
      match hexValue a, hexValue b with
      | Some x, Some y => (16 * x + y)%Z :: bufferFromHex rest
      | _, _ => []
      end
  | _ => []
  end.

Section WithHmac.

(** [crypto.createHmac(algorithm, key).update(data).digest()]: the bytes
    of the HMAC. *)
Variable createHmac : string → string → list Z → list Z.

(** [generateHMAC(data, key, algorithm = 'sha256')] *)
Definition generateHMAC (data : list Z) (key : string)
    (algorithm : option string) : string :=
  toHex (createHmac (default "sha256" algorithm) key data).

(** [verifyHMAC(data, key, expectedHMAC, algorithm = 'sha256')]; [None] is
    the exception of [crypto.timingSafeEqual], which is not caught. *)
Definition verifyHMAC (data : list Z) (key expectedHMAC : string)
    (algorithm : option string) : option bool :=
  let calculatedHMAC := generateHMAC data key algorithm in
  timingSafeEqual (bufferFromHex calculatedHMAC) (bufferFromHex expectedHMAC).

End WithHmac.

Section WithDigest.

Variable State : Type.
Variable createHash : string → State.
Variable update : State → list Z → State.
Variable digest : State → string.
Variable fl : Q → Q.

(** [verifyFileHash(filePath, expectedHash, algorithm = 'sha256')] on a
    file with the given content.  The digest is hexadecimal, and only the
    letters of ASCII are mapped into hexadecimal digits by
    [toLowerCase]. *)
Definition verifyFileHash (content : list Z) (baseName : string)
    (startTime endTime : Z) (expectedHash : string)
    (algorithm : option string) : bool :=
  let result :=
    (generateFileHash State createHash update digest fl content baseName
       startTime endTime (default "sha256" algorithm) false).1 in
  strictEquals (SecurityUtils.toLowerCase (hash result))
    (SecurityUtils.toLowerCase expectedHash).

End WithDigest.

End CryptoChecks.

Import CryptoChecks.

(** ** [SecurityUtils]: environment variables, rate limit, archives *)

Module SecurityChecks.

(** A character the regular expression of [sanitizeEnvVar] keeps: a
    letter of ASCII, a digit, or one of [_-./\:]. *)
Definition envChar (c : ascii) : bool :=
  let n := code c in
  (((48 <=? n) && (n <=? 57)) || ((65 <=? n) && (n <=? 90))
   || ((97 <=? n) && (n <=? 122)) || (n =? 95) || (n =? 45) || (n =? 46)
   || (n =? 47) || (n =? 92) || (n =? 58))%Z.

(** [sanitizeEnvVar(value)]: what is kept is ASCII, so that the first 1000
    code units are the first 1000 bytes. *)
Definition sanitizeEnvVar (value : string) : string :=
  if negb (truthy value) then ""
  else
    string_of_list_ascii
      (take 1000
         (filter (λ c, envChar c = true) (list_ascii_of_string value))).

(** An entry of [operationCounts]. *)
Record RateRecord : Type := {
  count : Z;
  resetTime : Z
}.

(** [checkRateLimit(operation, maxOps = 10, windowMs = 60000)] in the
    process [pid] at the time [now] ([Date.now()]); the map
    [operationCounts] is the state. *)
Definition checkRateLimit (pid now : Z)
    (operationCounts : gmap string RateRecord) (operation : string)
    (maxOps windowMs : option Z) : bool * gmap string RateRecord :=
  let maxOps := default 10%Z maxOps in
  let windowMs := default 60000%Z windowMs in
  let key := operation +:+ "_" +:+ toString pid in
  let fresh := {| count := 0; resetTime := now + windowMs |} in
  let '(record, operationCounts) :=
    match operationCounts !! key with
    | Some record =>
        if (resetTime record <? now)%Z
        then (fresh, <[key := fresh]> operationCounts)
        else (record, operationCounts)
    | None => (fresh, <[key := fresh]> operationCounts)
    end in
  if (maxOps <=? count record)%Z then (false, operationCounts)
  else
    (true,
     <[key := {| count := count record + 1;
                 resetTime := resetTime record |}]> operationCounts).

(** Calls of [checkRateLimit] for one operation, one after the other, at
    the given times. *)
Fixpoint checkRateLimits (pid : Z) (operationCounts : gmap string RateRecord)
    (operation : string) (maxOps windowMs : option Z) (times : list Z)
    : list bool * gmap string RateRecord :=
  match times with
  | [] => ([], operationCounts)
  | now :: times' =>
      let '(allowed, operationCounts) :=
        checkRateLimit pid now operationCounts operation maxOps windowMs in
      let '(rest, operationCounts) :=
        checkRateLimits pid operationCounts operation maxOps windowMs times'
      in
      (allowed :: rest, operationCounts)
  end.

(** What [validateArchive] finds at the path: nothing ([fs.statSync]
    raises), a file that cannot be read ([fs.accessSync] or
    [fs.readFileSync] raises), or a file with its content. *)
Inductive ArchiveFile : Type :=
  | NoSuchFile (message : string)
  | NotReadable (size : Z) (message : string)
  | Content (content : list Z).

Record Validation : Type := {
  valid : bool;
  issues : list string
}.

Definition sizeIssue (size : Z) : list string :=
  if (1024 * 1024 * 1024 <? size)%Z
  then ["Archive size exceeds safety limit (1GB)"] else [].

(** [validateArchive(archivePath)] *)
Definition validateArchive (file : ArchiveFile) : Validation :=
  let issues :=
    match file with
    | NoSuchFile message => ["File access error: " +:+ message]
    | NotReadable size message =>
        sizeIssue size ++ ["File access error: " +:+ message]
    | Content content =>
        let signature := toHex (take 4 content) in
        sizeIssue (Z.of_nat (length content))
        ++ (if negb (startsWith signature "504b")
               && negb (startsWith signature "504b0304")
            then ["Invalid ZIP file signature"] else [])
    end in
  {| valid := (length issues =? 0)%nat; issues := issues |}.

(** A control character: 0 to 31, or 127. *)
Definition controlChar (c : ascii) : bool :=
  ((code c <=? 31) || (code c =? 127))%Z.

(** [s.replace(/[\x00-\x1f\x7f]/g, '')] *)
Definition removeControl (s : string) : string :=
  string_of_list_ascii
    (filter (λ c, controlChar c = false) (list_ascii_of_string s)).

(** [s.replace(/\.\./g, '')]: the pairs of dots are found from left to
    right and do not overlap. *)
Fixpoint removeDotDot (s : string) : string :=
  match s with
  | EmptyString => EmptyString
  | String c rest =>
      match rest with
      | String d rest' =>
          if Ascii.eqb c "." && Ascii.eqb d "." then removeDotDot rest'
          else String c (removeDotDot rest)
      | EmptyString => s
      end
  end.

(** [s.substring(0, n)] for [n] code units of UTF-16, on the bytes of
    UTF-8: a character of four bytes has two code units, every other one
    has one, and the bytes 128 to 191 continue a character.  A cut between
    the two code units of a character leaves half of it, which is not a
    string of the model ([None]). *)
Fixpoint takeUnits (n : nat) (s : string) : option string :=
  match s with
  | EmptyString => Some EmptyString
  | String c rest =>
      if ((128 <=? code c) && (code c <=? 191))%Z
      then String c <$> takeUnits n rest
      else
        let units := if (240 <=? code c)%Z then 2%nat else 1%nat in
        if (n =? 0)%nat then Some EmptyString
        else if (n <? units)%nat then None
        else String c <$> takeUnits (n - units) rest
  end.

Definition MAX_PATH_LENGTH : nat := 260.

(** [sanitizePath(filePath)], up to the test of the length. *)
Definition strippedPath (filePath : string) : string :=
  let sanitized := removeControl filePath in
  let sanitized := normalize sanitized in
  let sanitized := removeDotDot sanitized in
  if startsWith sanitized "/" || startsWith sanitized "\"
  then match sanitized with String _ rest => rest | EmptyString => "" end
  else sanitized.

(** [sanitizePath(filePath)] *)
Definition sanitizePath (filePath : string) : option string :=
  let sanitized := strippedPath filePath in
  if (MAX_PATH_LENGTH <? SecurityUtils.jsLength sanitized)%nat then
    let ext := extname sanitized in
    let base := basename sanitized ext in
    let dir := dirname sanitized in
    let maxBase :=
      (Z.of_nat MAX_PATH_LENGTH - Z.of_nat (SecurityUtils.jsLength dir)
       - Z.of_nat (SecurityUtils.jsLength ext) - 1)%Z in
    cut ← takeUnits (Z.to_nat maxBase) base;
    Some (joinPaths [dir; cut +:+ ext])
  else Some sanitized.

End SecurityChecks.

(** * Properties *)

Section split_facts.

Lemma startsWith_nil s : startsWith s "" = true.
Proof. done. Qed.

Lemma includes_nil s : includes s "" = true.
Proof. destruct s; simpl; by rewrite ?startsWith_nil. Qed.

Lemma includes_cons c s p :
  includes (String c s) p = false → includes s p = false.
Proof. simpl. by intros [_ ?]%orb_false_iff. Qed.

Lemma includes_head s p : includes s p = false → startsWith s p = false.
Proof. destruct s; simpl; by intros [? _]%orb_false_iff. Qed.

(** A string without any occurrence of the separator is one piece. *)
Lemma splitFrom_absent sep s :
  includes s sep = false → splitFrom sep s 0 = (s, []).
Proof.
  induction s as [|c s IH]; [done|].
  intros H. cbn [splitFrom].
  rewrite (includes_head _ _ H), (IH (includes_cons _ _ _ H)). done.
Qed.

Lemma split_absent sep s :
  includes s sep = false → split s sep = [s].
Proof.
  intros H. destruct sep as [|a sep]; [by rewrite includes_nil in H|].
  unfold split. by rewrite splitFrom_absent.
Qed.

End split_facts.

Section string_facts.

Lemma sapp_cons c a b : String c a +:+ b = String c (a +:+ b).
Proof. done. Qed.

Lemma sapp_nil_r s : s +:+ "" = s.
Proof. induction s as [|c s IH]; [done|]. by rewrite sapp_cons, IH. Qed.

Lemma sapp_assoc a b c : (a +:+ b) +:+ c = a +:+ (b +:+ c).
Proof. induction a as [|x a IH]; [done|]. by rewrite !sapp_cons, IH. Qed.

Lemma truthy_app_cons a c b : truthy (a +:+ String c b) = true.
Proof. by destruct a. Qed.

Lemma has_char_cons c x s :
  has_char c (String x s) = Ascii.eqb c x || has_char c s.
Proof. done. Qed.

Lemma has_char_app c a b :
  has_char c (a +:+ b) = has_char c a || has_char c b.
Proof.
  induction a as [|x a IH]; [done|].
  by rewrite sapp_cons, !has_char_cons, IH, orb_assoc.
Qed.

Lemma startsWith_char c x s :
  startsWith (String x s) (String c "") = Ascii.eqb c x.
Proof. simpl. apply andb_true_r. Qed.

Lemma has_char_includes c s :
  has_char c s = false → includes s (String c "") = false.
Proof.
  induction s as [|x s IH]; [done|].
  rewrite has_char_cons. intros [Hx Hs]%orb_false_iff.
  cbn [includes]. by rewrite startsWith_char, Hx, (IH Hs).
Qed.

(** Splitting at a one-character separator: the piece before its first
    occurrence, then the pieces of the rest. *)
Lemma splitFrom_char c a rest :
  has_char c a = false →
  splitFrom (String c "") (a +:+ String c rest) 0
  = (a, (splitFrom (String c "") rest 0).1
        :: (splitFrom (String c "") rest 0).2).
Proof.
  induction a as [|x a IH]; intros Ha.
  - change ("" +:+ String c rest) with (String c rest).
    cbn [splitFrom]. rewrite startsWith_char, Ascii.eqb_refl. simpl.
    by destruct (splitFrom _ rest 0).
  - rewrite has_char_cons in Ha. apply orb_false_iff in Ha as [Hx Ha].
    rewrite sapp_cons. cbn [splitFrom].
    rewrite startsWith_char, Hx, (IH Ha). done.
Qed.

Lemma splitFrom_char_last c a :
  has_char c a = false → splitFrom (String c "") a 0 = (a, []).
Proof. intros. by apply splitFrom_absent, has_char_includes. Qed.

End string_facts.

Section number_facts.

Local Open Scope Z_scope.

Lemma code_ascii_of_nat (n : nat) :
  (n < 256)%nat → code (ascii_of_nat n) = Z.of_nat n.
Proof. intros. unfold code. by rewrite nat_ascii_embedding. Qed.

Lemma code_digitChar d :
  0 ≤ d < 16 → code (digitChar d) = if d <? 10 then 48 + d else 87 + d.
Proof.
  intros Hd. unfold digitChar. rewrite code_ascii_of_nat.
  - rewrite Z2Nat.id; [done|]. destruct (d <? 10); lia.
  - destruct (d <? 10) eqn:E; lia.
Qed.

Lemma code_inj c d : code c = code d → c = d.
Proof.
  unfold code. intros H%Nat2Z.inj.
  by rewrite <- (ascii_nat_embedding c), H, ascii_nat_embedding.
Qed.

Lemma eqb_code c d : Ascii.eqb c d = (code c =? code d).
Proof.
  destruct (Z.eqb_spec (code c) (code d)) as [H%code_inj|H].
  - subst. apply Ascii.eqb_refl.
  - apply Ascii.eqb_neq. by intros ->.
Qed.

(** Digits are none of the characters at or below ["/"], such as ["$"]. *)
Lemma digitChar_low c d : code c < 48 → 0 ≤ d < 16 → Ascii.eqb c (digitChar d) = false.
Proof.
  intros Hc Hd. rewrite eqb_code, code_digitChar by done.
  destruct (d <? 10); lia.
Qed.

Lemma has_char_digitsOf c f n : code c < 48 → has_char c (digitsOf f n) = false.
Proof.
  intros Hc. revert n. induction f as [|f IH]; intros n; [done|].
  cbn [digitsOf]. rewrite has_char_app, has_char_cons.
  rewrite digitChar_low by (done || (pose proof (Z.mod_pos_bound n 10); lia)).
  destruct (n <? 10); [done|]. by rewrite IH.
Qed.

Lemma has_char_toHex c bytes : code c < 48 → has_char c (toHex bytes) = false.
Proof.
  intros Hc. induction bytes as [|b bs IH]; [done|].
  cbn [toHex]. rewrite !has_char_cons, IH.
  rewrite !digitChar_low; try done.
  - pose proof (Z.mod_pos_bound b 16); lia.
  - pose proof (Z.mod_pos_bound (b / 16) 16); lia.
Qed.

Lemma isDigits_app a b : isDigits (a +:+ b) = isDigits a && isDigits b.
Proof.
  unfold isDigits. induction a as [|x a IH]; [done|].
  rewrite sapp_cons. simpl. by rewrite IH, andb_assoc.
Qed.

Lemma isDigits_digitsOf f n : isDigits (digitsOf f n) = true.
Proof.
  revert n. induction f as [|f IH]; intros n; [done|].
  cbn [digitsOf]. rewrite isDigits_app.
  assert (isDigits (String (digitChar (n mod 10)) "") = true) as ->.
  { unfold isDigits, isDigit. simpl.
    pose proof (Z.mod_pos_bound n 10).
    rewrite code_digitChar by lia.
    destruct (n mod 10 <? 10) eqn:E; lia. }
  destruct (n <? 10); [done|]. by rewrite IH.
Qed.

Lemma digitValue_digitChar d :
  0 ≤ d < 10 → digitValue (digitChar d) = Some d.
Proof.
  intros Hd. unfold digitValue. rewrite code_digitChar by lia.
  destruct (d <? 10) eqn:E; [|lia].
  destruct ((48 <=? 48 + d) && (48 + d <=? 57)) eqn:E'; [f_equal; lia|lia].
Qed.

(** Reading back the digits of [n], whatever follows them. *)
Lemma parseDigits_digitsOf f n tail :
  0 ≤ n < 10 ^ Z.of_nat (S f) →
  parseDigits 10 (digitsOf (S f) n +:+ tail) None
  = parseDigits 10 tail (Some n).
Proof.
  revert n tail. induction f as [|f IH]; intros n tail Hn.
  - cbn [digitsOf]. change (10 ^ Z.of_nat 1) with 10 in Hn.
    destruct (n <? 10) eqn:E; [|lia].
    rewrite Z.mod_small by lia.
    change (("" +:+ String (digitChar n) "") +:+ tail)
      with (String (digitChar n) tail).
    cbn [parseDigits]. rewrite digitValue_digitChar by lia.
    destruct (n <? 10); [|done]. simpl. do 2 f_equal.
  - remember (S f) as f'. cbn [digitsOf].
    pose proof (Z.mod_pos_bound n 10) as Hm.
    destruct (n <? 10) eqn:E.
    + rewrite Z.mod_small by lia.
      change (("" +:+ String (digitChar n) "") +:+ tail)
        with (String (digitChar n) tail).
      cbn [parseDigits]. rewrite digitValue_digitChar by lia.
      rewrite E. simpl. do 2 f_equal.
    + rewrite sapp_assoc, sapp_cons. subst f'. rewrite IH.
      * change ("" +:+ tail) with tail. cbn [parseDigits].
        rewrite digitValue_digitChar by lia.
        destruct (n mod 10 <? 10) eqn:E'; [|lia].
        simpl. do 2 f_equal. pose proof (Z.div_mod n 10). lia.
      * split; [apply Z.div_pos; lia|].
        apply Z.div_lt_upper_bound; [lia|].
        replace (Z.of_nat (S (S f))) with (Z.succ (Z.of_nat (S f))) in Hn by lia.
        rewrite Z.pow_succ_r in Hn by lia. lia.
Qed.

Lemma digits_fuel n : 0 ≤ n → n < 10 ^ Z.of_nat (S (Z.to_nat (Z.log2 n))).
Proof.
  intros Hn. rewrite Nat2Z.inj_succ, Z2Nat.id by apply Z.log2_nonneg.
  destruct (Z.eq_dec n 0) as [->|Hne]; [done|].
  pose proof (Z.log2_spec n ltac:(lia)) as [_ Hlt].
  eapply Z.lt_le_trans; [exact Hlt|].
  apply Z.pow_le_mono_l. lia.
Qed.

(** A string of digits has no white space, sign or [0x] prefix. *)
Lemma parseInt_digits s :
  isDigits s = true → parseInt s = parseDigits 10 s None.
Proof.
  unfold isDigits, isDigit, parseInt. intros Hs.
  destruct s as [|c s]; [done|].
  simpl in Hs. apply andb_true_iff in Hs as [Hc Hs].
  assert (trimStart (String c s) = String c s) as ->.
  { cbn [trimStart]. unfold isSpace1, isSpace2, isSpace3.
    destruct s as [|d [|e s]];
      repeat match goal with
             | |- context [?a <=? ?b] => destruct (Z.leb_spec a b); try lia
             | |- context [?a =? ?b] => destruct (Z.eqb_spec a b); try lia
             end; done. }
  destruct (Z.eqb_spec (code c) 45); [lia|].
  destruct (Z.eqb_spec (code c) 43); [lia|].
  destruct s as [|d s]; [by destruct (parseDigits _ _ _)|].
  simpl in Hs. apply andb_true_iff in Hs as [Hd Hs].
  destruct (Z.eqb_spec (code d) 120); [lia|].
  destruct (Z.eqb_spec (code d) 88); [lia|].
  rewrite andb_false_r. by destruct (parseDigits _ _ _).
Qed.

(** [parseInt(`${n}`)] is [n] for a natural number. *)
Lemma parseInt_toString n : 0 ≤ n → parseInt (toString n) = Some n.
Proof.
  intros Hn. unfold toString. destruct (n <? 0) eqn:E; [lia|].
  rewrite parseInt_digits by apply isDigits_digitsOf.
  rewrite <- (sapp_nil_r (digitsOf _ n)).
  rewrite parseDigits_digitsOf; [done|].
  split; [done|by apply digits_fuel].
Qed.

Lemma truthy_toString n : truthy (toString n) = true.
Proof.
  unfold toString. destruct (n <? 0); [done|].
  cbn [digitsOf]. apply truthy_app_cons.
Qed.

Lemma has_char_toString c n :
  code c < 45 → has_char c (toString n) = false.
Proof.
  intros Hc. unfold toString. destruct (n <? 0).
  - rewrite has_char_cons, has_char_digitsOf by lia.
    rewrite eqb_code. change (code "-") with 45.
    destruct (Z.eqb_spec (code c) 45); [lia|done].
  - apply has_char_digitsOf. lia.
Qed.

End number_facts.

Section credential_facts.

Local Open Scope Z_scope.

Variable sha512 : list Z → list Z.

Lemma or_else_nil s : or_else s "" = s.
Proof. by destruct s. Qed.

Lemma pbkdf2Sync_Some password salt n :
  1 ≤ n ≤ 2147483647 →
  pbkdf2Sync sha512 password salt n
  = Some (pbkdf2 sha512 (bytesOf password) (bytesOf salt) n 64).
Proof.
  intros [H1 H2]. unfold pbkdf2Sync.
  apply Z.leb_le in H1, H2. by rewrite H1, H2.
Qed.

Lemma pbkdf2Sync_None password salt n :
  ¬ (1 ≤ n ≤ 2147483647) → pbkdf2Sync sha512 password salt n = None.
Proof.
  intros H. unfold pbkdf2Sync.
  destruct (Z.leb_spec 1 n), (Z.leb_spec n 2147483647); simpl; (done || lia).
Qed.

(** The four fields of an encoded credential. *)
Lemma split_fields it salt d :
  has_char "$" it = false → has_char "$" salt = false →
  has_char "$" d = false →
  split ("pbkdf2_sha512$" +:+ it +:+ "$" +:+ salt +:+ "$" +:+ d) "$"
  = ["pbkdf2_sha512"; it; salt; d].
Proof.
  intros Hit Hsalt Hd. unfold split.
  change ("pbkdf2_sha512$" +:+ it +:+ "$" +:+ salt +:+ "$" +:+ d)
    with ("pbkdf2_sha512"
          +:+ String "$" (it +:+ String "$" (salt +:+ String "$" d))).
  rewrite !splitFrom_char by done.
  by rewrite splitFrom_char_last.
Qed.

(** What [verifyPassword] computes once the string has four fields. *)
Lemma verifyPassword_fields password s t it salt d :
  split s "$" = [t; it; salt; d] →
  verifyPassword sha512 password s
  = strictEquals t "pbkdf2_sha512"
    && match parseInt (or_else it "100000") with
       | Some n =>
           match pbkdf2Sync sha512 password salt n with
           | Some h => strictEquals d (toHex h)
           | None => false
           end
       | None => false
       end.
Proof.
  intros Hs. unfold verifyPassword. rewrite Hs.
  unfold nth_part. simpl. rewrite or_else_nil.
  by destruct (strictEquals t "pbkdf2_sha512").
Qed.

Lemma verifyPassword_encoded password' random password salt n h :
  has_char "$" (default "" salt) = false →
  generatePasswordHash sha512 random password salt n = Some h →
  verifyPassword sha512 password' h
  = strictEquals
      (hexDigest sha512 password (default 100000 n) (saltToUse random salt))
      (hexDigest sha512 password' (default 100000 n) (saltToUse random salt)).
Proof.
  intros Hsalt. unfold generatePasswordHash, hexDigest.
  fold (saltToUse random salt).
  set (N := default 100000 n). set (st := saltToUse random salt).
  unfold pbkdf2Sync at 1.
  destruct ((1 <=? N) && (N <=? 2147483647)) eqn:HN; [|done].
  apply andb_true_iff in HN as [H1%Z.leb_le H2%Z.leb_le].
  simpl. intros [= <-].
  assert (has_char "$" st = false) as Hst.
  { unfold st, saltToUse, or_else.
    destruct (truthy _); [done|]. by apply has_char_toHex. }
  erewrite verifyPassword_fields; last first.
  { apply split_fields; [by apply has_char_toString|done|].
    by apply has_char_toHex. }
  unfold or_else. rewrite truthy_toString, parseInt_toString by lia.
  rewrite pbkdf2Sync_Some by lia. done.
Qed.

(** *** Keys that HMAC cannot tell apart *)

Lemma Piter_ext {A} (f g : A → A) p x :
  (∀ y, f y = g y) → Pos.iter f x p = Pos.iter g x p.
Proof.
  intros Hfg. revert x.
  induction p as [p IH|p IH|]; intros x; simpl; by rewrite ?IH, ?Hfg.
Qed.

Lemma Ziter_ext {A} (f g : A → A) n x :
  (∀ y, f y = g y) → Z.iter n f x = Z.iter n g x.
Proof. intros. destruct n; simpl; [done| |done]. by apply Piter_ext. Qed.

Lemma padKey_zero key :
  (length key < blockLen)%nat → padKey sha512 (key ++ [0]) = padKey sha512 key.
Proof.
  unfold padKey, blockLen. intros Hlen.
  rewrite length_app. simpl.
  destruct (Nat.ltb_spec 128 (length key + 1)); [lia|].
  destruct (Nat.ltb_spec 128 (length key)); [lia|].
  rewrite <- app_assoc. f_equal. rewrite length_app. simpl length.
  by replace (128 - length key)%nat
    with (S (128 - (length key + 1)))%nat by lia.
Qed.

Lemma hmac_zero key msg :
  (length key < blockLen)%nat →
  hmac sha512 (key ++ [0]) msg = hmac sha512 key msg.
Proof. intros. unfold hmac. by rewrite padKey_zero. Qed.

Lemma pbkdf2_zero key salt c keylen :
  (length key < blockLen)%nat →
  pbkdf2 sha512 (key ++ [0]) salt c keylen = pbkdf2 sha512 key salt c keylen.
Proof.
  intros Hlen. unfold pbkdf2. rewrite hmac_zero by done.
  do 2 f_equal. apply Ziter_ext. intros st.
  unfold round. by rewrite hmac_zero.
Qed.

Lemma bytesOf_cons x s : bytesOf (String x s) = code x :: bytesOf s.
Proof. done. Qed.

Lemma bytesOf_app a b : bytesOf (a +:+ b) = bytesOf a ++ bytesOf b.
Proof.
  induction a as [|x a IH]; [done|].
  by rewrite sapp_cons, !bytesOf_cons, IH.
Qed.

Lemma length_bytesOf s : length (bytesOf s) = String.length s.
Proof.
  induction s as [|x s IH]; [done|].
  rewrite bytesOf_cons. simpl. by rewrite IH.
Qed.

(** A password and the same password followed by NUL have one digest. *)
Lemma hexDigest_zero password n salt :
  (String.length password < 128)%nat →
  hexDigest sha512 (password +:+ String "000" "") n salt
  = hexDigest sha512 password n salt.
Proof.
  intros Hlen. unfold hexDigest.
  rewrite bytesOf_app. change (bytesOf (String "000" "")) with [0].
  rewrite pbkdf2_zero; [done|]. by rewrite length_bytesOf.
Qed.

End credential_facts.

(** *** The credential round trip *)

(** C3, as amended: for every password, every iteration count from 1 to
    2^31 - 1 (100000 when absent) and every salt without ["$"] (a fresh
    random salt in hexadecimal when absent or empty), the credential is
    produced, verifying the same password against it succeeds, and
    verifying any password against it succeeds exactly when that password
    has the same digest under the recorded iteration count and salt. *)
Theorem credential_round_trip (sha512 : list Z → list Z) (random : list Z)
    (password : string) (salt : option string) (iterations : option Z) :
  has_char "$" (default "" salt) = false →
  (1 ≤ default 100000 iterations ≤ 2147483647)%Z →
  ∃ h, generatePasswordHash sha512 random password salt iterations = Some h
       ∧ verifyPassword sha512 password h = true
       ∧ ∀ password',
           verifyPassword sha512 password' h = true
           ↔ hexDigest sha512 password' (default 100000%Z iterations)
               (saltToUse random salt)
             = hexDigest sha512 password (default 100000%Z iterations)
                 (saltToUse random salt).
Proof.
  intros Hsalt HN.
  destruct (generatePasswordHash sha512 random password salt iterations)
    as [h|] eqn:Hgen; last first.
  { unfold generatePasswordHash in Hgen.
    by rewrite pbkdf2Sync_Some in Hgen by done. }
  exists h. split; [done|]. split.
  - rewrite (verifyPassword_encoded _ _ _ _ _ _ _ Hsalt Hgen).
    apply String.eqb_refl.
  - intros password'.
    rewrite (verifyPassword_encoded _ _ _ _ _ _ _ Hsalt Hgen).
    unfold strictEquals. rewrite String.eqb_eq. split; congruence.
Qed.

Lemma credential_round_trip_witness :
  ∃ h, generatePasswordHash (λ _, []) [171; 205]%Z "p@ss" None (Some 1000%Z)
       = Some h
       ∧ verifyPassword (λ _, []) "p@ss" h = true.
Proof.
  destruct (credential_round_trip (λ _, []) [171; 205]%Z "p@ss" None
              (Some 1000%Z)) as (h & H1 & H2 & _).
  - reflexivity.
  - simpl. lia.
  - exists h. by split.
Defined.

(** C3, refuted as stated: a salt with ["$"] in it gives a credential that
    its own password does not verify against, and a password followed by
    NUL verifies against the credential of the password without it. *)
Lemma credential_round_trip_counterexample :
  (∀ sha512 random,
     ∃ h, generatePasswordHash sha512 random "p@ss" (Some "a$b") (Some 1%Z)
          = Some h
          ∧ verifyPassword sha512 "p@ss" h = false)
  ∧ (∀ sha512 random,
       ∃ h, generatePasswordHash sha512 random "p@ss" None None = Some h
            ∧ "p@ss" +:+ String "000" "" ≠ "p@ss"
            ∧ verifyPassword sha512 ("p@ss" +:+ String "000" "") h = true).
Proof.
  split.
  - intros sha512 random.
    exists ("pbkdf2_sha512$1$a$b$" +:+ hexDigest sha512 "p@ss" 1 "a$b").
    split; [reflexivity|].
    assert (has_char "$" (hexDigest sha512 "p@ss" 1 "a$b") = false) as Hd
      by by apply has_char_toHex.
    revert Hd. generalize (hexDigest sha512 "p@ss" 1 "a$b"). intros d Hd.
    unfold verifyPassword, split.
    change ("pbkdf2_sha512$1$a$b$" +:+ d)
      with ("pbkdf2_sha512"
            +:+ String "$" ("1" +:+ String "$" ("a" +:+ String "$"
                  ("b" +:+ String "$" d)))).
    rewrite !splitFrom_char by done.
    by rewrite splitFrom_char_last.
  - intros sha512 random.
    destruct (credential_round_trip sha512 random "p@ss" None None)
      as (h & Hgen & _ & Hiff); [done|simpl; lia|].
    exists h. split; [done|]. split; [done|].
    apply Hiff. by apply hexDigest_zero; simpl; lia.
Qed.

(** *** What [verifyPassword] accepts *)

Section verify_facts.

Local Open Scope Z_scope.

Variable sha512 : list Z → list Z.

Lemma splitFrom_cons_char c x s :
  splitFrom (String c "") (String x s) 0
  = if Ascii.eqb c x
    then ("", (splitFrom (String c "") s 0).1
              :: (splitFrom (String c "") s 0).2)
    else (String x (splitFrom (String c "") s 0).1,
          (splitFrom (String c "") s 0).2).
Proof.
  cbn [splitFrom]. rewrite startsWith_char. simpl.
  by destruct (Ascii.eqb c x), (splitFrom (String c "") s 0).
Qed.

(** Splitting at a character and joining again gives the string back. *)
Lemma splitFrom_join c s :
  s = join (String c "")
        ((splitFrom (String c "") s 0).1 :: (splitFrom (String c "") s 0).2).
Proof.
  induction s as [|x s IH]; [done|].
  rewrite splitFrom_cons_char.
  destruct (splitFrom (String c "") s 0) as [h t] eqn:E.
  simpl in IH. destruct (Ascii.eqb_spec c x) as [->|Hne]; simpl.
  - by rewrite IH at 1.
  - rewrite IH at 1. by destruct t.
Qed.

Lemma split_join c s : s = join (String c "") (split s (String c "")).
Proof.
  unfold split. pose proof (splitFrom_join c s) as H.
  by destruct (splitFrom (String c "") s 0).
Qed.

Lemma split_inj c s1 s2 :
  split s1 (String c "") = split s2 (String c "") → s1 = s2.
Proof. intros H. by rewrite (split_join c s1), (split_join c s2), H. Qed.

(** The complete description of the accepted inputs. *)
Lemma verifyPassword_true password s :
  verifyPassword sha512 password s = true
  ↔ ∃ it salt d n,
      split s "$" = ["pbkdf2_sha512"; it; salt; d]
      ∧ parseInt (or_else it "100000") = Some n
      ∧ 1 ≤ n ≤ 2147483647
      ∧ d = hexDigest sha512 password n salt.
Proof.
  split.
  - unfold verifyPassword.
    destruct (split s "$") as [|t [|it [|salt [|d [|? ?]]]]] eqn:Hs; try done.
    unfold nth_part. simpl. rewrite or_else_nil.
    destruct (strictEquals t "pbkdf2_sha512") eqn:Ht; [|done].
    apply String.eqb_eq in Ht as ->. simpl.
    destruct (parseInt _) as [n|] eqn:Hn; [|done].
    destruct (decide (1 ≤ n ≤ 2147483647)) as [Hr|Hr].
    + rewrite pbkdf2Sync_Some by done. intros Heq%String.eqb_eq.
      by exists it, salt, d, n.
    + by rewrite pbkdf2Sync_None.
  - intros (it & salt & d & n & Hs & Hn & Hr & ->).
    rewrite (verifyPassword_fields _ _ _ _ _ _ _ Hs), Hn.
    rewrite pbkdf2Sync_Some by done. apply String.eqb_refl.
Qed.

(** Accepted strings start with the algorithm tag and a separator. *)
Lemma verifyPassword_prefix password s :
  verifyPassword sha512 password s = true →
  startsWith s "pbkdf2_sha512$" = true.
Proof.
  intros (it & salt & d & n & Hs & _)%verifyPassword_true.
  rewrite (split_join "$" s), Hs. reflexivity.
Qed.

Lemma setChar_prefix p s i c :
  startsWith s p = true → (i < String.length p)%nat →
  setChar i c s ≠ s → startsWith (setChar i c s) p = false.
Proof.
  revert s i.
  induction p as [|a p IH]; intros s i Hp Hi Hne; [simpl in Hi; lia|].
  destruct s as [|x s]; [done|]. simpl in Hp.
  apply andb_true_iff in Hp as [Hax Hp].
  apply Ascii.eqb_eq in Hax as ->.
  destruct i as [|i]; simpl.
  - destruct (Ascii.eqb_spec x c) as [->|]; [|done]. by destruct Hne.
  - rewrite Ascii.eqb_refl. simpl.
    apply IH; [done|simpl in Hi; lia|]. intros Heq. apply Hne.
    simpl. by rewrite Heq.
Qed.

Lemma setChar_app p s i c :
  (String.length p ≤ i)%nat →
  setChar i c (p +:+ s) = p +:+ setChar (i - String.length p) c s.
Proof.
  revert i. induction p as [|x p IH]; intros i Hi.
  - by rewrite Nat.sub_0_r.
  - destruct i as [|i]; [simpl in Hi; lia|].
    rewrite !sapp_cons. simpl. rewrite IH; [done|simpl in Hi; lia].
Qed.

Lemma has_char_split c s :
  has_char c s = true →
  ∃ a b, s = a +:+ String c b ∧ has_char c a = false.
Proof.
  induction s as [|x s IH]; [done|].
  rewrite has_char_cons. destruct (Ascii.eqb_spec c x) as [->|Hne].
  - intros _. by exists "", s.
  - simpl. intros (a & b & -> & Ha)%IH.
    exists (String x a), b. split; [done|].
    rewrite has_char_cons, Ha. by destruct (Ascii.eqb_spec c x).
Qed.

(** A credential whose digest field is not the password's digest is
    rejected, whatever the field contains. *)
Lemma verifyPassword_wrong_digest password n salt d :
  has_char "$" salt = false →
  0 ≤ n →
  d ≠ hexDigest sha512 password n salt →
  verifyPassword sha512 password
    ("pbkdf2_sha512$" +:+ toString n +:+ "$" +:+ salt +:+ "$" +:+ d) = false.
Proof.
  intros Hsalt Hn Hd.
  destruct (has_char "$" d) eqn:Hdd.
  - apply has_char_split in Hdd as (a & b & -> & Ha).
    unfold verifyPassword, split.
    change ("pbkdf2_sha512$" +:+ toString n +:+ "$" +:+ salt +:+ "$"
            +:+ a +:+ String "$" b)
      with ("pbkdf2_sha512"
            +:+ String "$" (toString n +:+ String "$" (salt +:+ String "$"
                  (a +:+ String "$" b)))).
    rewrite !splitFrom_char by (done || by apply has_char_toString).
    done.
  - erewrite verifyPassword_fields; last first.
    { apply split_fields; [by apply has_char_toString|done..]. }
    unfold or_else. rewrite truthy_toString, parseInt_toString by done.
    destruct (decide (1 ≤ n ≤ 2147483647)) as [Hr|Hr].
    + rewrite pbkdf2Sync_Some by done. simpl. by apply String.eqb_neq.
    + by rewrite pbkdf2Sync_None.
Qed.

Lemma generatePasswordHash_Some random password salt iterations h :
  generatePasswordHash sha512 random password salt iterations = Some h →
  1 ≤ default 100000 iterations ≤ 2147483647
  ∧ h = "pbkdf2_sha512$" +:+ toString (default 100000 iterations) +:+ "$"
        +:+ saltToUse random salt +:+ "$"
        +:+ hexDigest sha512 password (default 100000 iterations)
              (saltToUse random salt).
Proof.
  unfold generatePasswordHash, pbkdf2Sync.
  destruct (_ && _) eqn:E; [|done]. simpl. intros [= <-].
  apply andb_true_iff in E as [?%Z.leb_le ?%Z.leb_le]. done.
Qed.

Lemma has_char_hexDigest password n salt :
  has_char "$" (hexDigest sha512 password n salt) = false.
Proof. unfold hexDigest. by apply has_char_toHex. Qed.

Lemma has_char_saltToUse random salt :
  has_char "$" (default "" salt) = false →
  has_char "$" (saltToUse random salt) = false.
Proof.
  intros. unfold saltToUse, or_else.
  destruct (truthy _); [done|]. by apply has_char_toHex.
Qed.

End verify_facts.

Lemma length_sapp a b :
  String.length (a +:+ b) = (String.length a + String.length b)%nat.
Proof.
  induction a as [|x a IH]; [done|]. rewrite sapp_cons. simpl. by rewrite IH.
Qed.

(** C5, as amended: [verifyPassword] is total (every exception inside it
    is caught) and returns [true] only for a string of exactly four
    ["$"]-separated fields whose first field is the tag [pbkdf2_sha512],
    whose iteration field, read by [parseInt] with ["100000"] standing for
    an empty field, is an integer from 1 to 2^31 - 1, and whose last field
    is the digest of the password under that count and the salt field.
    After one character of an encoded credential is changed, it returns
    [false] for every password when the character is among the first 14
    (the tag and its separator), [false] for the credential's own password
    when the character is in the digest, and [true] for a password only if
    the changed string still has four fields, not all three of iteration
    count, salt and digest as before, with the digest field equal to that
    password's digest under the changed string's own parameters. *)
Theorem verifyPassword_fail_closed (sha512 : list Z → list Z)
    (random : list Z) (password : string) (salt : option string)
    (iterations : option Z) (h : string) (i : nat) (c : ascii) :
  has_char "$" (default "" salt) = false →
  generatePasswordHash sha512 random password salt iterations = Some h →
  setChar i c h ≠ h →
  (∀ pw s,
     verifyPassword sha512 pw s = true
     ↔ ∃ it st d n,
         split s "$" = ["pbkdf2_sha512"; it; st; d]
         ∧ parseInt (or_else it "100000") = Some n
         ∧ (1 ≤ n ≤ 2147483647)%Z
         ∧ d = hexDigest sha512 pw n st)
  ∧ ((i < 14)%nat →
     ∀ pw, verifyPassword sha512 pw (setChar i c h) = false)
  ∧ ((String.length h
      - String.length (hexDigest sha512 password (default 100000%Z iterations)
                         (saltToUse random salt)) ≤ i)%nat →
     verifyPassword sha512 password (setChar i c h) = false)
  ∧ (∀ pw,
       verifyPassword sha512 pw (setChar i c h) = true →
       ∃ it st d n,
         split (setChar i c h) "$" = ["pbkdf2_sha512"; it; st; d]
         ∧ (it, st, d)
           ≠ (toString (default 100000%Z iterations), saltToUse random salt,
              hexDigest sha512 password (default 100000%Z iterations)
                (saltToUse random salt))
         ∧ parseInt (or_else it "100000") = Some n
         ∧ d = hexDigest sha512 pw n st).
Proof.
  intros Hsalt Hgen Hne.
  apply generatePasswordHash_Some in Hgen as [HN ->].
  set (N := default 100000%Z iterations) in *.
  set (st := saltToUse random salt) in *.
  set (d := hexDigest sha512 password N st) in *.
  assert (has_char "$" st = false) as Hst by by apply has_char_saltToUse.
  split; [intros; apply verifyPassword_true|].
  split; [|split].
  - intros Hi pw.
    destruct (verifyPassword sha512 pw _) eqn:E; [|done].
    apply verifyPassword_prefix in E.
    by rewrite (setChar_prefix "pbkdf2_sha512$") in E.
  - intros Hi.
    assert ("pbkdf2_sha512$" +:+ toString N +:+ "$" +:+ st +:+ "$" +:+ d
            = ("pbkdf2_sha512$" +:+ toString N +:+ "$" +:+ st +:+ "$") +:+ d)
      as Heq by by rewrite !sapp_assoc.
    rewrite Heq in Hi, Hne |- *. rewrite length_sapp in Hi.
    rewrite setChar_app in Hne |- * by lia.
    rewrite !sapp_assoc. apply verifyPassword_wrong_digest; [done|lia|].
    fold d. intros Hd. by rewrite Hd in Hne.
  - intros pw (it & st' & d' & n & Hs & Hn & _ & Hd)%verifyPassword_true.
    exists it, st', d', n. split; [done|]. split; [|done].
    intros [= -> -> ->]. apply Hne. apply (split_inj "$").
    rewrite Hs. symmetry. apply split_fields; try done.
    + by apply has_char_toString.
    + by apply has_char_toHex.
Qed.

Lemma verifyPassword_fail_closed_witness :
  verifyPassword (λ _, []) "p@ss" (setChar 0 "x" "pbkdf2_sha512$2$ab$")
  = false
  ∧ verifyPassword (λ _, []) "other" (setChar 0 "x" "pbkdf2_sha512$2$ab$")
    = false.
Proof.
  destruct (verifyPassword_fail_closed (λ _, []) [] "p@ss" (Some "ab")
              (Some 2%Z) "pbkdf2_sha512$2$ab$" 0 "x") as (_ & H & _).
  - reflexivity.
  - reflexivity.
  - discriminate.
  - split; apply H; simpl; lia.
Defined.

(** C5, refuted as stated: a credential with an empty iteration field, and
    one whose iteration field is [" +0x10 junk"], are not rejected; the
    first is checked with 100000 iterations, the second with 16. *)
Lemma verifyPassword_fail_closed_counterexample :
  (∀ sha512,
     verifyPassword sha512 "p@ss"
       ("pbkdf2_sha512$$ab$" +:+ hexDigest sha512 "p@ss" 100000 "ab") = true)
  ∧ (∀ sha512,
       verifyPassword sha512 "p@ss"
         ("pbkdf2_sha512$ +0x10 junk$ab$" +:+ hexDigest sha512 "p@ss" 16 "ab")
       = true).
Proof.
  split; intros sha512.
  - enough (∀ d, d = hexDigest sha512 "p@ss" 100000 "ab" →
                 verifyPassword sha512 "p@ss" ("pbkdf2_sha512$$ab$" +:+ d)
                 = true) as H by by apply H.
    intros d Hd. apply verifyPassword_true.
    exists "", "ab", d, 100000%Z.
    split; [|split; [reflexivity|split; [lia|done]]].
    apply (split_fields "" "ab"); [done..|].
    rewrite Hd. apply has_char_hexDigest.
  - enough (∀ d, d = hexDigest sha512 "p@ss" 16 "ab" →
                 verifyPassword sha512 "p@ss"
                   ("pbkdf2_sha512$ +0x10 junk$ab$" +:+ d)
                 = true) as H by by apply H.
    intros d Hd. apply verifyPassword_true.
    exists " +0x10 junk", "ab", d, 16%Z.
    split; [|split; [reflexivity|split; [lia|done]]].
    apply (split_fields " +0x10 junk" "ab"); [done..|].
    rewrite Hd. apply has_char_hexDigest.
Qed.

(** C6: the digest is re-derived from the embedded iteration count and
    salt and compared with the embedded digest by [===]; the number of
    character comparisons this makes is one more than the length of the
    common prefix of the two digests, so it tells where they first
    differ. *)
Theorem verifyPassword_comparison_steps (sha512 : list Z → list Z)
    (password s it salt : string) (n : Z) (a b b' : string) (x c : ascii) :
  split s "$" = ["pbkdf2_sha512"; it; salt; a +:+ String c b'] →
  parseInt (or_else it "100000") = Some n →
  (1 ≤ n ≤ 2147483647)%Z →
  hexDigest sha512 password n salt = a +:+ String x b →
  c ≠ x →
  verifyPassword sha512 password s = false
  ∧ verifyPasswordSteps sha512 password s = S (String.length a).
Proof.
  intros Hs Hn Hr Hd Hcx. split.
  - rewrite (verifyPassword_fields _ _ _ _ _ _ _ Hs), Hn.
    rewrite pbkdf2Sync_Some by done. fold (hexDigest sha512 password n salt).
    rewrite Hd. simpl. apply String.eqb_neq. intros Heq.
    apply String.app_inj in Heq. congruence.
  - unfold verifyPasswordSteps. rewrite Hs. unfold nth_part. simpl.
    rewrite or_else_nil, Hn, pbkdf2Sync_Some by done.
    fold (hexDigest sha512 password n salt). rewrite Hd.
    clear -Hcx. induction a as [|y a IH]; simpl.
    + by destruct (Ascii.eqb_spec c x).
    + by rewrite Ascii.eqb_refl, IH.
Qed.

Lemma verifyPassword_comparison_steps_witness :
  verifyPassword (λ _, [1%Z]) "p@ss" "pbkdf2_sha512$1$ab$02" = false
  ∧ verifyPasswordSteps (λ _, [1%Z]) "p@ss" "pbkdf2_sha512$1$ab$02" = 2%nat.
Proof.
  apply (verifyPassword_comparison_steps (λ _, [1%Z]) "p@ss"
           "pbkdf2_sha512$1$ab$02" "1" "ab" 1 "0" "" "" "1" "2").
  - reflexivity.
  - reflexivity.
  - lia.
  - reflexivity.
  - discriminate.
Defined.

(** *** The password gate of [unzip] *)

Section gate_facts.

Variable sha512 : list Z → list Z.
Variable cwd : string.

Lemma extractEntries_not_password extractTo es d ws log :
  outcome (extractEntries cwd extractTo es d ws log)
  ≠ Rejected IncorrectPassword
  ∧ outcome (extractEntries cwd extractTo es d ws log)
    ≠ Rejected PasswordRequired.
Proof.
  revert d ws. induction es as [|e es IH]; intros d ws; [done|].
  cbn [extractEntries].
  repeat (case_match; try done).
Qed.

Lemma extractEntries_infos extractTo es d ws log :
  infos (extractEntries cwd extractTo es d ws log) = log.
Proof.
  revert d ws. induction es as [|e es IH]; intros d ws; [done|].
  cbn [extractEntries].
  repeat (case_match; try done).
Qed.

(** The comment [zip] sets on the archive: the marker, then the
    credential. *)
Lemma split_marker h :
  includes h marker = false → split (marker +:+ h) marker = [""; h].
Proof.
  intros Hh. unfold split, marker.
  change ("SZIP_PASSWORD_PROTECTED:" +:+ h)
    with (String "S" ("ZIP_PASSWORD_PROTECTED:" +:+ h)).
  cbn [splitFrom]. simpl startsWith. cbn [String.length Nat.sub].
  change ("ZIP_PASSWORD_PROTECTED:" +:+ h)
    with (String "Z" (String "I" (String "P" (String "_" (String "P"
          (String "A" (String "S" (String "S" (String "W" (String "O"
          (String "R" (String "D" (String "_" (String "P" (String "R"
          (String "O" (String "T" (String "E" (String "C" (String "T"
          (String "E" (String "D" (String ":" h))))))))))))))))))))))).
  cbn [splitFrom]. fold marker. by rewrite splitFrom_absent.
Qed.

Lemma includes_marker h : includes (marker +:+ h) marker = true.
Proof. done. Qed.

(** On an archive whose comment is the marker followed by a non-empty
    credential without the marker in it, the password check is as specified. *)
Lemma unzip_gate d a zipPath outputPath password h :
  comment a = marker +:+ h → includes h marker = false → truthy h = true →
  unzip sha512 cwd d (Opened a) zipPath outputPath password
  = if negb (truthy (default "" password)) then
      {| outcome := Rejected PasswordRequired; disk := d;
         warnings := []; infos := [] |}
    else if verifyPassword sha512 (default "" password) h then
      extractEntries cwd (extractRoot cwd zipPath outputPath) (entries a) d
        [] ["Password verified"]
    else
      {| outcome := Rejected IncorrectPassword; disk := d;
         warnings := []; infos := [] |}.
Proof.
  intros Hc Hh Ht. unfold unzip, checkPasswordProtection.
  rewrite Hc, includes_marker.
  destruct (truthy (default "" password)) eqn:Hp; [|done].
  cbn [negb andb]. rewrite split_marker by done.
  assert (truthy (marker +:+ h) = true) as -> by done.
  cbn [length Nat.eqb andb]. unfold nth_part. cbn [lookup list_lookup default].
  unfold id. rewrite Ht.
  destruct (verifyPassword sha512 _ h); reflexivity.
Qed.

End gate_facts.

(** C10: when the comment of the archive does not contain the marker,
    [unzip] with any password, right or wrong, is the plain extraction of
    the entries, exactly as without a password and whatever the hash
    function: no credential is verified, nothing is logged about one, and
    the call does not end with [IncorrectPassword]. *)
Theorem unzip_without_marker (sha512 sha512' : list Z → list Z)
    (cwd : string) (d : gmap (list string) node) (a : Archive)
    (zipPath : string) (outputPath : option string) (password : string) :
  includes (comment a) marker = false →
  unzip sha512 cwd d (Opened a) zipPath outputPath (Some password)
  = extractEntries cwd (extractRoot cwd zipPath outputPath) (entries a) d
      [] []
  ∧ unzip sha512 cwd d (Opened a) zipPath outputPath (Some password)
    = unzip sha512' cwd d (Opened a) zipPath outputPath None
  ∧ outcome (unzip sha512 cwd d (Opened a) zipPath outputPath
               (Some password))
    ≠ Rejected IncorrectPassword
  ∧ infos (unzip sha512 cwd d (Opened a) zipPath outputPath (Some password))
    = [].
Proof.
  intros Hc.
  assert (∀ sha pw,
    unzip sha cwd d (Opened a) zipPath outputPath pw
    = extractEntries cwd (extractRoot cwd zipPath outputPath) (entries a) d
        [] []) as Hrun.
  { intros sha pw. unfold unzip, checkPasswordProtection.
    rewrite Hc, split_absent by done. cbn [andb length Nat.eqb].
    by destruct (truthy (default "" pw) && truthy (comment a)). }
  rewrite !Hrun. split; [done|]. split; [done|]. split.
  - apply extractEntries_not_password.
  - apply extractEntries_infos.
Qed.

Lemma unzip_without_marker_witness :
  unzip (λ _, []) "/home/u" ∅
    (Opened {| comment := "made by szip";
               entries := [{| fileName := "f"; stream := Some [1%Z] |}] |})
    "a.zip" (Some "/out") (Some "wrong")
  = unzip (λ _, [1%Z]) "/home/u" ∅
      (Opened {| comment := "made by szip";
                 entries := [{| fileName := "f"; stream := Some [1%Z] |}] |})
      "a.zip" (Some "/out") None.
Proof.
  apply (unzip_without_marker (λ _, []) (λ _, [1%Z])). reflexivity.
Defined.

(** C2, where the code departs from it: an archive whose comment is the
    marker alone, or holds the marker twice, is reported as password
    protected and refused without a password, but with any password, and
    whatever the hash function, it is extracted without a verification. *)
Theorem unzip_unverified_password :
  ∀ sha512 : list Z → list Z,
    let files := [{| fileName := "f"; stream := Some [1%Z] |}] in
    let bare := Opened {| comment := marker; entries := files |} in
    let twice :=
      Opened {| comment := marker +:+ marker +:+ "pbkdf2_sha512$1$ab$00";
                entries := files |} in
    checkPasswordProtection bare = true
    ∧ verifyPassword sha512 "wrong" "" = false
    ∧ outcome (unzip sha512 "/home/u" ∅ bare "a.zip" (Some "/out") None)
      = Rejected PasswordRequired
    ∧ outcome (unzip sha512 "/home/u" ∅ bare "a.zip" (Some "/out")
                 (Some "wrong"))
      = Resolved "/out"
    ∧ disk (unzip sha512 "/home/u" ∅ bare "a.zip" (Some "/out")
              (Some "wrong")) !! ["out"; "f"]
      = Some (File [1%Z])
    ∧ infos (unzip sha512 "/home/u" ∅ bare "a.zip" (Some "/out")
               (Some "wrong"))
      = ["Password verified"]
    ∧ checkPasswordProtection twice = true
    ∧ outcome (unzip sha512 "/home/u" ∅ twice "a.zip" (Some "/out")
                 (Some "wrong"))
      = Resolved "/out"
    ∧ disk (unzip sha512 "/home/u" ∅ twice "a.zip" (Some "/out")
              (Some "wrong")) !! ["out"; "f"]
      = Some (File [1%Z]).
Proof. intros sha512. vm_compute. done. Qed.

(** *** Paths and their segments *)

Section path_facts.

Lemma split_cons_sep c a rest :
  has_char c a = false →
  split (a +:+ String c rest) (String c "") = a :: split rest (String c "").
Proof.
  intros Ha. unfold split. rewrite splitFrom_char by done.
  by destruct (splitFrom (String c "") rest 0).
Qed.

Lemma split_one c a :
  has_char c a = false → split a (String c "") = [a].
Proof. intros Ha. unfold split. by rewrite splitFrom_char_last. Qed.

(** The pieces of a split do not contain the separator. *)
Lemma splitFrom_no_sep c s :
  has_char c (splitFrom (String c "") s 0).1 = false
  ∧ Forall (λ p, has_char c p = false) (splitFrom (String c "") s 0).2.
Proof.
  induction s as [|x s [IH1 IH2]]; [done|].
  rewrite splitFrom_cons_char.
  destruct (Ascii.eqb c x) eqn:E; simpl.
  - split; [done|]. by constructor.
  - split; [|done]. by rewrite has_char_cons, E.
Qed.

Lemma split_no_sep c s :
  Forall (λ p, has_char c p = false) (split s (String c "")).
Proof.
  unfold split. pose proof (splitFrom_no_sep c s) as [H1 H2].
  destruct (splitFrom (String c "") s 0). by constructor.
Qed.

Lemma cleanSegment_spec seg :
  cleanSegment seg = true
  ↔ seg ≠ "" ∧ seg ≠ "." ∧ seg ≠ ".." ∧ has_char "/" seg = false.
Proof.
  unfold cleanSegment. rewrite !andb_true_iff, !negb_true_iff.
  rewrite !String.eqb_neq. tauto.
Qed.

Lemma normalizeSegments_clean res segs :
  Forall (λ s, cleanSegment s = true) res →
  Forall (λ p, has_char "/" p = false) segs →
  Forall (λ s, cleanSegment s = true) (normalizeSegments false res segs).
Proof.
  revert res. induction segs as [|seg segs IH]; intros res Hres Hsegs.
  - simpl. by apply Forall_reverse.
  - apply Forall_cons in Hsegs as [Hseg Hsegs]. cbn [normalizeSegments].
    destruct (String.eqb_spec seg ""); [by apply IH|].
    destruct (String.eqb_spec seg "."); [by apply IH|].
    cbn [orb]. destruct (String.eqb_spec seg "..").
    + destruct res as [|top res]; [by apply IH|].
      apply Forall_cons in Hres as [Htop Hres].
      destruct (String.eqb top ".."); apply IH; try done. by constructor.
    + apply IH; [|done]. constructor; [|done].
      by apply cleanSegment_spec.
Qed.

Lemma segments_clean path :
  Forall (λ s, cleanSegment s = true) (segments false path).
Proof.
  apply normalizeSegments_clean; [done|]. apply split_no_sep.
Qed.

Lemma resolveSegments_clean cwd path :
  Forall (λ s, cleanSegment s = true) (resolveSegments cwd path).
Proof.
  unfold resolveSegments. destruct (_ && _); apply segments_clean.
Qed.

(** Clean segments pass through [normalizeString] unchanged; empty
    segments disappear. *)
Lemma normalizeSegments_app b res l rest :
  Forall (λ s, cleanSegment s = true) l →
  normalizeSegments b res (l ++ rest)
  = normalizeSegments b (reverse l ++ res) rest.
Proof.
  revert res. induction l as [|seg l IH]; intros res Hl; [done|].
  apply Forall_cons in Hl as [Hseg Hl].
  apply cleanSegment_spec in Hseg as (H1 & H2 & H3 & _).
  simpl. apply String.eqb_neq in H1, H2, H3. rewrite H1, H2, H3. simpl.
  rewrite IH by done. by rewrite reverse_cons, <- app_assoc.
Qed.

Lemma normalizeSegments_empty b res rest :
  normalizeSegments b res ("" :: rest) = normalizeSegments b res rest.
Proof. done. Qed.

Lemma split_withSlashes l :
  Forall (λ s, cleanSegment s = true) l →
  split (withSlashes l) "/" = l ++ [""].
Proof.
  induction l as [|seg l IH]; intros Hl; [done|].
  apply Forall_cons in Hl as [Hseg Hl].
  apply cleanSegment_spec in Hseg as (_ & _ & _ & Hseg).
  cbn [withSlashes]. rewrite split_cons_sep by done. by rewrite IH.
Qed.

Lemma join_withSlashes l :
  l ≠ [] → join "/" l +:+ "/" = withSlashes l.
Proof.
  induction l as [|seg l IH]; [done|]. intros _.
  destruct l as [|seg' l]; [done|].
  change (join "/" (seg :: seg' :: l))
    with (seg +:+ String "/" (join "/" (seg' :: l))).
  rewrite sapp_assoc, sapp_cons, IH by done. done.
Qed.

Lemma splitFrom_snoc_sep c s :
  splitFrom (String c "") (s +:+ String c "") 0
  = ((splitFrom (String c "") s 0).1, (splitFrom (String c "") s 0).2 ++ [""]).
Proof.
  induction s as [|x s IH].
  - change ("" +:+ String c "") with (String c "").
    rewrite splitFrom_cons_char, Ascii.eqb_refl. done.
  - rewrite sapp_cons, !splitFrom_cons_char, IH.
    by destruct (Ascii.eqb c x).
Qed.

Lemma split_snoc_sep c s :
  split (s +:+ String c "") (String c "") = split s (String c "") ++ [""].
Proof.
  unfold split. rewrite splitFrom_snoc_sep.
  by destruct (splitFrom (String c "") s 0).
Qed.

Lemma normalizeSegments_snoc_empty b res l :
  normalizeSegments b res (l ++ [""]) = normalizeSegments b res l.
Proof.
  revert res. induction l as [|seg l IH]; intros res; [done|].
  simpl. repeat case_match; by rewrite ?IH.
Qed.

Lemma segments_slash b s : segments b (s +:+ "/") = segments b s.
Proof.
  unfold segments. by rewrite split_snoc_sep, normalizeSegments_snoc_empty.
Qed.

Lemma split_join_segments l :
  l ≠ [] → Forall (λ s, cleanSegment s = true) l →
  split (join "/" l) "/" = l.
Proof.
  induction l as [|seg l IH]; [done|]. intros _ Hl.
  apply Forall_cons in Hl as [Hseg Hl].
  apply cleanSegment_spec in Hseg as (_ & _ & _ & Hseg).
  destruct l as [|seg' l]; [by apply split_one|].
  change (join "/" (seg :: seg' :: l))
    with (seg +:+ String "/" (join "/" (seg' :: l))).
  rewrite split_cons_sep by done. by rewrite IH.
Qed.

(** The segments of [fromSegments l] are [l]. *)
Lemma segments_fromSegments l :
  Forall (λ s, cleanSegment s = true) l →
  segments false (fromSegments l) = l.
Proof.
  intros Hl. unfold segments, fromSegments.
  change ("/" +:+ ?s) with ("" +:+ String "/" s).
  rewrite split_cons_sep by done. rewrite normalizeSegments_empty.
  destruct l as [|seg l]; [done|].
  rewrite split_join_segments by done.
  rewrite <- (app_nil_r (seg :: l)), normalizeSegments_app by done.
  simpl. by rewrite !app_nil_r, reverse_involutive.
Qed.

Lemma resolveSegments_absolute cwd path :
  isAbsolute path = true → resolveSegments cwd path = segments false path.
Proof.
  intros Habs. unfold resolveSegments.
  destruct path as [|c path]; [done|].
  rewrite Habs. simpl. apply segments_slash.
Qed.

Lemma resolveSegments_fromSegments cwd l :
  Forall (λ s, cleanSegment s = true) l →
  resolveSegments cwd (fromSegments l) = l.
Proof.
  intros. rewrite resolveSegments_absolute by done.
  by apply segments_fromSegments.
Qed.

Lemma resolveSegments_fromSegments_slash cwd l :
  Forall (λ s, cleanSegment s = true) l →
  resolveSegments cwd (fromSegments l +:+ "/") = l.
Proof.
  intros. rewrite resolveSegments_absolute by done.
  rewrite segments_slash. by apply segments_fromSegments.
Qed.

(** Resolving a resolved path changes nothing. *)
Lemma resolve_resolve cwd path :
  resolve cwd (resolve cwd path) = resolve cwd path.
Proof.
  unfold resolve at 1 3. f_equal.
  apply resolveSegments_fromSegments, resolveSegments_clean.
Qed.

(** A prefix test on strings that ends on a separator is a prefix test on
    segments. *)
Lemma startsWith_segment t A r X :
  has_char "/" t = false → has_char "/" r = false →
  (A = "" ∨ ∃ A', A = String "/" A') →
  startsWith (t +:+ A) (r +:+ String "/" X) = true →
  t = r ∧ ∃ A', A = String "/" A' ∧ startsWith A' X = true.
Proof.
  revert t. induction r as [|x r IH]; intros t Ht Hr HA Hs.
  - change ("" +:+ String "/" X) with (String "/" X) in Hs.
    destruct t as [|y t].
    + destruct HA as [->|[A' ->]]; [done|].
      change ("" +:+ String "/" A') with (String "/" A') in Hs.
      cbn [startsWith] in Hs. apply andb_true_iff in Hs as [_ Hs].
      split; [done|]. by exists A'.
    + rewrite has_char_cons in Ht. apply orb_false_iff in Ht as [Hy _].
      rewrite sapp_cons in Hs. cbn [startsWith] in Hs.
      apply andb_true_iff in Hs as [Hs _]. congruence.
  - rewrite has_char_cons in Hr. apply orb_false_iff in Hr as [Hx Hr].
    rewrite sapp_cons in Hs.
    destruct t as [|y t].
    + destruct HA as [->|[A' ->]]; [done|].
      change ("" +:+ String "/" A') with (String "/" A') in Hs.
      cbn [startsWith] in Hs. apply andb_true_iff in Hs as [Hs _].
      by rewrite Ascii.eqb_sym, Hx in Hs.
    + rewrite has_char_cons in Ht. apply orb_false_iff in Ht as [_ Ht].
      rewrite sapp_cons in Hs. cbn [startsWith] in Hs.
      apply andb_true_iff in Hs as [Hxy Hs].
      apply Ascii.eqb_eq in Hxy as ->.
      destruct (IH t Ht Hr HA Hs) as [-> HA']. done.
Qed.

Lemma join_cons t T :
  join "/" (t :: T)
  = t +:+ match T with [] => "" | _ => String "/" (join "/" T) end.
Proof. destruct T; [by rewrite sapp_nil_r|done]. Qed.

Lemma startsWith_prefix R T :
  Forall (λ s, cleanSegment s = true) R →
  Forall (λ s, cleanSegment s = true) T →
  startsWith (join "/" T) (withSlashes R) = true → R `prefix_of` T.
Proof.
  revert T. induction R as [|r R IH]; intros T HR HT Hs.
  - apply prefix_nil.
  - apply Forall_cons in HR as [Hr HR].
    apply cleanSegment_spec in Hr as (_ & _ & _ & Hr).
    destruct T as [|t T]; [by destruct r|].
    apply Forall_cons in HT as [Ht HT].
    apply cleanSegment_spec in Ht as (_ & _ & _ & Ht).
    rewrite join_cons in Hs. cbn [withSlashes] in Hs.
    apply startsWith_segment in Hs as [-> (A' & HA & Hs)]; try done.
    + destruct T as [|t' T]; [done|]. injection HA as <-.
      apply prefix_cons, IH; done.
    + destruct T; [by left|right; by eexists].
Qed.

End path_facts.

Section safety_facts.

Variable cwd : string.

(** What [isPathSafe] accepts lies at or below the root. *)
Lemma isPathSafe_prefix target root :
  isPathSafe cwd target root = true →
  resolveSegments cwd root `prefix_of` resolveSegments cwd target.
Proof.
  unfold isPathSafe, resolve.
  pose proof (resolveSegments_clean cwd target) as HT.
  pose proof (resolveSegments_clean cwd root) as HR.
  generalize dependent (resolveSegments cwd target).
  generalize dependent (resolveSegments cwd root).
  intros R HR T HT [Hs|Heq%String.eqb_eq]%orb_true_iff.
  - destruct R as [|r R]; [apply prefix_nil|].
    unfold fromSegments, sep in Hs.
    rewrite sapp_assoc, join_withSlashes in Hs by done.
    simpl in Hs. by apply startsWith_prefix.
  - apply (f_equal (segments false)) in Heq.
    rewrite !segments_fromSegments in Heq by done. by subst.
Qed.

Lemma truthy_join l :
  Forall (λ s, cleanSegment s = true) l → l ≠ [] →
  truthy (join "/" l) = true.
Proof.
  intros Hl Hne. destruct l as [|seg l]; [done|].
  apply Forall_cons in Hl as [Hseg _].
  apply cleanSegment_spec in Hseg as (Hseg & _).
  rewrite join_cons. by destruct seg.
Qed.

Lemma endsWithSlash_cons c s :
  truthy s = true → endsWithSlash (String c s) = endsWithSlash s.
Proof. by destruct s. Qed.

Lemma endsWithSlash_app a b :
  truthy b = true → endsWithSlash (a +:+ b) = endsWithSlash b.
Proof.
  intros Hb. induction a as [|x a IH]; [done|].
  rewrite sapp_cons, endsWithSlash_cons; [done|].
  destruct a; [done|done].
Qed.

Lemma endsWithSlash_no_slash s :
  has_char "/" s = false → endsWithSlash s = false.
Proof.
  induction s as [|x s IH]; [done|].
  rewrite has_char_cons. intros [Hx Hs]%orb_false_iff.
  destruct s as [|y s]; [|by apply IH].
  simpl. by rewrite Ascii.eqb_sym.
Qed.

Lemma endsWithSlash_join l :
  Forall (λ s, cleanSegment s = true) l → l ≠ [] →
  endsWithSlash (join "/" l) = false.
Proof.
  induction l as [|seg l IH]; [done|]. intros Hl _.
  apply Forall_cons in Hl as [Hseg Hl].
  destruct l as [|seg' l].
  - apply cleanSegment_spec in Hseg as (_ & _ & _ & Hseg).
    by apply endsWithSlash_no_slash.
  - change (join "/" (seg :: seg' :: l))
      with (seg +:+ String "/" (join "/" (seg' :: l))).
    rewrite endsWithSlash_app by done.
    rewrite endsWithSlash_cons by by apply truthy_join.
    by apply IH.
Qed.

Lemma normalize_absolute path :
  isAbsolute path = true →
  normalize path
  = fromSegments (segments false path)
    +:+ (if endsWithSlash path
            && bool_decide (segments false path ≠ []) then "/" else "").
Proof.
  intros Habs. unfold normalize, normalizeString.
  destruct path as [|c path]; [done|]. cbn [truthy negb]. rewrite Habs.
  cbn [negb]. pose proof (segments_clean (String c path)) as Hl.
  destruct (segments false (String c path)) as [|seg l] eqn:E.
  - simpl. by rewrite andb_false_r.
  - rewrite truthy_join by done. rewrite bool_decide_true by done.
    rewrite andb_true_r. unfold fromSegments. cbn [negb].
    by rewrite sapp_assoc.
Qed.


End safety_facts.

Section dirname_facts.

Lemma chars_app a b :
  list_ascii_of_string (a +:+ b)
  = list_ascii_of_string a ++ list_ascii_of_string b.
Proof.
  induction a as [|x a IH]; [done|]. rewrite sapp_cons. simpl. by rewrite IH.
Qed.

Lemma existsb_reverse {A} (f : A → bool) l :
  existsb f (reverse l) = existsb f l.
Proof.
  induction l as [|x l IH]; [done|].
  rewrite reverse_cons, existsb_app, IH. simpl.
  by rewrite orb_false_r, orb_comm.
Qed.

Lemma dropSlashes_app l k :
  l ≠ [] → existsb (Ascii.eqb "/") l = false → dropSlashes (l ++ k) = l ++ k.
Proof.
  destruct l as [|c l]; [done|]. intros _ [Hc _]%orb_false_iff.
  simpl. by rewrite Ascii.eqb_sym, Hc.
Qed.

Lemma dropToSlash_app l k :
  existsb (Ascii.eqb "/") l = false → dropToSlash (l ++ k) = dropToSlash k.
Proof.
  induction l as [|c l IH]; [done|]. intros [Hc Hl]%orb_false_iff.
  simpl. rewrite Ascii.eqb_sym, Hc. by apply IH.
Qed.

Lemma join_snoc l e :
  l ≠ [] → join "/" (l ++ [e]) = join "/" l +:+ String "/" e.
Proof.
  induction l as [|x l IH]; [done|]. intros _.
  destruct l as [|y l]; [done|].
  change (join "/" ((x :: y :: l) ++ [e]))
    with (x +:+ String "/" (join "/" ((y :: l) ++ [e]))).
  rewrite IH by done.
  change (join "/" (x :: y :: l)) with (x +:+ String "/" (join "/" (y :: l))).
  by rewrite !sapp_assoc.
Qed.

(** The directory of a resolved path is the path without its last
    segment. *)
Lemma dirname_fromSegments E :
  Forall (λ s, cleanSegment s = true) E →
  dirname (fromSegments E) = fromSegments (removelast E).
Proof.
  intros HE. destruct E as [|e0 E0] using rev_ind; [done|].
  clear IHE0. rewrite removelast_last.
  rewrite Forall_app, Forall_singleton in HE. destruct HE as [HE0 He].
  apply cleanSegment_spec in He as (Hne & _ & _ & Hslash).
  assert (list_ascii_of_string e0 ≠ []) as Hne' by by destruct e0.
  unfold fromSegments at 1.
  change ("/" +:+ ?s) with (String "/" s). cbn [dirname].
  destruct E0 as [|x E0].
  - simpl join. rewrite <- (app_nil_r (reverse _)).
    rewrite dropSlashes_app, dropToSlash_app;
      rewrite ?existsb_reverse; try done.
    intros Hr. apply (f_equal reverse) in Hr.
    by rewrite reverse_involutive in Hr.
  - rewrite join_snoc by done.
    rewrite chars_app. cbn [list_ascii_of_string].
    rewrite reverse_app, reverse_cons, <- app_assoc.
    rewrite dropSlashes_app, dropToSlash_app;
      rewrite ?existsb_reverse; try done; last first.
    { intros Hr. apply (f_equal reverse) in Hr.
      by rewrite reverse_involutive in Hr. }
    cbn [app dropToSlash]. rewrite Ascii.eqb_refl.
    rewrite reverse_involutive, string_of_list_ascii_of_string.
    rewrite bool_decide_false; [done|].
    intros Hr. apply (f_equal reverse) in Hr.
    rewrite reverse_involutive in Hr.
    pose proof (truthy_join (x :: E0) HE0 ltac:(done)) as Ht.
    by destruct (join "/" (x :: E0)).
Qed.

End dirname_facts.

(** *** The names [yauzl] accepts *)

Section name_facts.



Lemma validateFileName_None name :
  validateFileName name = None
  ↔ has_char "\" name = false ∧ drivePrefix name = false
    ∧ startsWith name "/" = false ∧ ".." ∉ split name "/".
Proof.
  unfold validateFileName.
  destruct (has_char _ name); [by split; [|intros [? _]]|].
  destruct (drivePrefix name); [by split; [|intros (_ & ? & _)]|].
  destruct (startsWith name "/"); [by split; [|intros (_ & _ & ? & _)]|].
  cbn [orb].
  case_bool_decide; [by split; [|intros (_ & _ & _ & ?)]|done].
Qed.

Lemma allowBackslash_id name :
  has_char "\" name = false → allowBackslash name = name.
Proof.
  induction name as [|c name IH]; [done|].
  rewrite has_char_cons. intros [Hc Hname]%orb_false_iff.
  cbn [allowBackslash]. rewrite IH by done.
  destruct (Ascii.eqb_spec c "\") as [->|_]; [done|done].
Qed.

Lemma has_char_join c l :
  Ascii.eqb c "/" = false →
  Forall (λ s, has_char c s = false) l → has_char c (join "/" l) = false.
Proof.
  intros Hc. induction l as [|seg l IH]; [done|]. intros Hl.
  apply Forall_cons in Hl as [Hseg Hl].
  destruct l as [|seg' l]; [done|].
  change (join "/" (seg :: seg' :: l))
    with (seg +:+ String "/" (join "/" (seg' :: l))).
  by rewrite has_char_app, has_char_cons, Hseg, Hc, IH.
Qed.

Lemma drivePrefix_sep a b :
  a ≠ "" → drivePrefix (a +:+ String "/" b) = drivePrefix a.
Proof.
  destruct a as [|x [|y a]]; [done| |]; intros _.
  - rewrite sapp_cons. change ("" +:+ String "/" b) with (String "/" b).
    cbn [drivePrefix]. apply andb_false_r.
  - by rewrite !sapp_cons.
Qed.

Lemma startsWith_sep a b :
  a ≠ "" → startsWith (a +:+ b) "/" = startsWith a "/".
Proof. destruct a; [done|]. by rewrite sapp_cons. Qed.

Lemma startsWith_clean seg :
  cleanSegment seg = true → startsWith seg "/" = false.
Proof.
  intros (Hne & _ & _ & Hs)%cleanSegment_spec.
  destruct seg as [|x seg]; [done|].
  rewrite has_char_cons in Hs. apply orb_false_iff in Hs as [Hx _].
  by rewrite startsWith_char.
Qed.

Lemma join_head seg l :
  join "/" (seg :: l) = seg ∧ l = []
  ∨ ∃ b, join "/" (seg :: l) = seg +:+ String "/" b.
Proof.
  destruct l as [|seg' l]; [by left|right].
  by exists (join "/" (seg' :: l)).
Qed.

Lemma storable_spec pre :
  storable pre = true
  ↔ Forall (λ s, has_char "\" s = false) pre
    ∧ drivePrefix (hd "" pre) = false.
Proof.
  unfold storable. rewrite andb_true_iff, negb_true_iff, forallb_forall.
  rewrite Forall_forall. setoid_rewrite negb_true_iff.
  setoid_rewrite list_elem_of_In. tauto.
Qed.

Lemma storable_snoc pre n :
  pre ≠ [] → storable pre = true → has_char "\" n = false →
  storable (pre ++ [n]) = true.
Proof.
  intros Hne [Hpre Hd]%storable_spec Hn. apply storable_spec. split.
  - apply Forall_app. split; [done|]. by apply Forall_singleton.
  - by destruct pre.
Qed.

(** The name of a file entry made of clean segments is accepted as it
    is stored. *)
Lemma validateFileName_join pre :
  pre ≠ [] → Forall (λ s, cleanSegment s = true) pre →
  storable pre = true →
  validateFileName (join "/" pre) = None
  ∧ allowBackslash (join "/" pre) = join "/" pre.
Proof.
  intros Hne Hpre [Hbs Hd]%storable_spec.
  assert (has_char "\" (join "/" pre) = false) as Hb
    by by apply has_char_join.
  split; [|by apply allowBackslash_id].
  apply validateFileName_None. split; [done|].
  rewrite split_join_segments by done.
  destruct pre as [|seg l]; [done|]. cbn [hd] in Hd.
  apply Forall_cons in Hpre as [Hseg Hl].
  pose proof (startsWith_clean seg Hseg) as Hs.
  assert (seg ≠ "") as Hseg' by by apply cleanSegment_spec in Hseg as [? _].
  split; [|split].
  - destruct (join_head seg l) as [[-> _]|[b ->]]; [done|].
    by rewrite drivePrefix_sep.
  - destruct (join_head seg l) as [[-> _]|[b ->]]; [done|].
    by rewrite startsWith_sep.
  - intros [Heq|Hin]%elem_of_cons; [by subst seg|].
    rewrite Forall_forall in Hl. by specialize (Hl _ Hin).
Qed.

(** So is the name of a directory entry. *)
Lemma validateFileName_join_slash pre :
  pre ≠ [] → Forall (λ s, cleanSegment s = true) pre →
  storable pre = true →
  validateFileName (join "/" pre +:+ "/") = None
  ∧ allowBackslash (join "/" pre +:+ "/") = join "/" pre +:+ "/".
Proof.
  intros Hne Hpre Hst.
  destruct (validateFileName_join pre Hne Hpre Hst)
    as [(Hb & Hd & Hs & Hin)%validateFileName_None _].
  assert (has_char "\" (join "/" pre +:+ "/") = false) as Hb'
    by by rewrite has_char_app, Hb.
  split; [|by apply allowBackslash_id].
  apply validateFileName_None. split; [done|].
  assert (join "/" pre ≠ "") as Hj.
  { destruct pre as [|seg l]; [done|].
    apply Forall_cons in Hpre as [(Hseg & _)%cleanSegment_spec _].
    destruct (join_head seg l) as [[-> _]|[b ->]]; [done|].
    destruct seg; [done|]. by rewrite sapp_cons. }
  split; [|split].
  - by rewrite drivePrefix_sep.
  - by rewrite startsWith_sep.
  - rewrite (split_snoc_sep "/"), elem_of_app, list_elem_of_singleton.
    intros [?|?]; done.
Qed.

End name_facts.

(** *** Where the target of an entry lies *)

Section below_facts.

Variable cwd : string.






End below_facts.

(** *** What an extraction changes on the file system *)

Section frame_facts.

Variable cwd : string.

Lemma keptOrMade_refl p q d : keptOrMade p q d d.
Proof. by left. Qed.

Lemma keptOrMade_trans p q d1 d2 d3 :
  keptOrMade p q d1 d2 → keptOrMade p q d2 d3 → keptOrMade p q d1 d3.
Proof.
  intros [H1|(Hp & H1 & H1')] [H2|(Hp' & H2 & H2')].
  - left. congruence.
  - right. split; [done|]. split; congruence.
  - right. split; [done|]. split; congruence.
  - congruence.
Qed.


Lemma mkdirFrom_frame d above below d' q :
  mkdirFrom d above below = Some d' →
  keptOrMade (above ++ below) q d d'.
Proof.
  revert d above. induction below as [|seg rest IH]; intros d above Hmk.
  - injection Hmk as <-. by left.
  - cbn [mkdirFrom] in Hmk.
    replace (above ++ seg :: rest) with ((above ++ [seg]) ++ rest)
      by by rewrite <- app_assoc.
    destruct (d !! (above ++ [seg])) as [[|c]|] eqn:Hp; [|done|].
    + by apply IH.
    + apply IH in Hmk.
      destruct (decide (q = above ++ [seg])) as [->|Hne].
      * right. split; [by apply prefix_app_r|]. split; [done|].
        destruct Hmk as [->|(_ & Hnone & _)].
        -- by rewrite lookup_insert_eq.
        -- by rewrite lookup_insert_eq in Hnone.
      * destruct Hmk as [H|(H1 & H2 & H3)].
        -- left. by rewrite H, lookup_insert_ne.
        -- right. split; [done|]. split; [|done].
           by rewrite lookup_insert_ne in H2.
Qed.

Lemma mkdirSync_frame d p d' q :
  mkdirSync d p = Some d' → keptOrMade p q d d'.
Proof. apply (mkdirFrom_frame d [] p). Qed.


Lemma Forall_prefix_of {A} (P : A → Prop) l1 l2 :
  l1 `prefix_of` l2 → Forall P l2 → Forall P l1.
Proof. intros [k ->]. rewrite Forall_app. tauto. Qed.

Lemma prefix_removelast (l : list string) : removelast l `prefix_of` l.
Proof.
  destruct l as [|x l] using rev_ind; [done|].
  rewrite removelast_last. by apply prefix_app_r.
Qed.



End frame_facts.




(** *** Percentages *)

Section arith_facts.

Local Open Scope Q_scope.

Variable fl : Q → Q.
Hypothesis fl_mono : ∀ x y, x <= y → fl x <= fl y.
Hypothesis fl_0 : fl 0 == 0.
Hypothesis fl_1 : fl 1 == 1.
Hypothesis fl_100 : fl 100 == 100.

Lemma fl_proper x y : x == y → fl x == fl y.
Proof using fl_mono.
  intros Hxy. apply Qle_antisym; apply fl_mono; rewrite Hxy; apply Qle_refl.
Qed.

Lemma fl_nonneg x : 0 <= x → 0 <= fl x.
Proof using fl_mono fl_0.
  intros H. apply Qle_trans with (fl 0); [|by apply fl_mono].
  apply Qle_lteq. right. symmetry. exact fl_0.
Qed.

Lemma fl_nonpos x : x <= 0 → fl x <= 0.
Proof using fl_mono fl_0.
  intros H. apply Qle_trans with (fl 0); [by apply fl_mono|].
  apply Qle_lteq. right. exact fl_0.
Qed.

Lemma round_bounds x (a b : Z) :
  inject_Z a <= x → x <= inject_Z b →
  (a ≤ JsArith.round x ≤ b)%Z.
Proof.
  intros Ha Hb. unfold JsArith.round. split.
  - rewrite <- (Qfloor_Z a). apply Qfloor_resp_le. lra.
  - apply Z.lt_succ_r. rewrite Zlt_Qlt.
    eapply Qle_lt_trans; [apply Qfloor_le|].
    unfold Z.succ. rewrite inject_Z_plus. change (inject_Z 1) with 1. lra.
Qed.

(** The percentage of a part of a whole is from 0 to 100. *)
Lemma percentage_bounds (part whole : Z) :
  (0 ≤ part ≤ whole)%Z → (0 < whole)%Z →
  (0 ≤ JsArith.round
         (JsArith.mul fl (JsArith.div fl (inject_Z part) (inject_Z whole))
            100) ≤ 100)%Z.
Proof using fl_mono fl_0 fl_1 fl_100.
  intros [Hp Hpw] Hw. unfold JsArith.mul, JsArith.div.
  assert (0 < inject_Z whole) as Hw'
    by (change 0 with (inject_Z 0); by rewrite <- Zlt_Qlt).
  assert (0 <= inject_Z part / inject_Z whole <= 1) as [Hq0 Hq1].
  { split.
    - apply Qle_shift_div_l; [done|]. rewrite Qmult_0_l.
      change 0 with (inject_Z 0). by rewrite <- Zle_Qle.
    - apply Qle_shift_div_r; [done|]. rewrite Qmult_1_l.
      by rewrite <- Zle_Qle. }
  assert (0 <= fl (inject_Z part / inject_Z whole) <= 1) as [Hf0 Hf1].
  { split; [by apply fl_nonneg|].
    apply Qle_trans with (fl 1); [by apply fl_mono|].
    apply Qle_lteq. right. exact fl_1. }
  apply (round_bounds _ 0 100).
  - apply fl_nonneg. change (inject_Z 0) with 0. nra.
  - change (inject_Z 100) with 100.
    apply Qle_trans with (fl 100); [apply fl_mono; lra|].
    apply Qle_lteq. right. exact fl_100.
Qed.

End arith_facts.

(** *** The hash engine *)

Section hash_facts.

Lemma chunksOf_concat fuel n content :
  (0 < n)%nat → (length content ≤ fuel)%nat →
  concat (chunksOf fuel n content) = content.
Proof.
  intros Hn. revert content.
  induction fuel as [|fuel IH]; intros content Hlen.
  - destruct content; [done|simpl in Hlen; lia].
  - destruct content as [|b content]; [done|].
    cbn [chunksOf concat]. rewrite IH; [apply take_drop|].
    rewrite length_drop. simpl in Hlen. simpl. lia.
Qed.

(** Every chunk is full, except that the last may be shorter; none is
    empty. *)
Lemma chunksOf_sizes fuel n content i chunk :
  (0 < n)%nat → (length content ≤ fuel)%nat →
  chunksOf fuel n content !! i = Some chunk →
  (0 < length chunk ≤ n)%nat
  ∧ ((S i < length (chunksOf fuel n content))%nat → length chunk = n).
Proof.
  intros Hn. revert content i.
  induction fuel as [|fuel IH]; intros content i Hlen Hi.
  - by destruct content.
  - destruct content as [|b content]; [done|].
    cbn [chunksOf] in Hi |- *.
    destruct i as [|i].
    + injection Hi as <-. rewrite length_take. split.
      * simpl. lia.
      * cbn [length]. intros Hnext.
        destruct (drop n (b :: content)) as [|b' rest] eqn:Hd.
        { destruct fuel; simpl in Hnext; lia. }
        apply (f_equal length) in Hd. rewrite length_drop in Hd.
        simpl in Hd |- *. lia.
    + cbn [lookup list_lookup] in Hi.
      destruct (IH (drop n (b :: content)) i) as [H1 H2]; [|done|].
      { rewrite length_drop. simpl in Hlen |- *. lia. }
      split; [done|]. cbn [length]. intros Hnext. apply H2. lia.
Qed.

Variable State : Type.
Variable createHash : string → State.
Variable update : State → list Z → State.
Variable digest : State → string.
Variable fl : Q → Q.

Lemma onData_foldl total h processed fileSize reports chunks :
  (0 < total)%Z →
  (foldl (onData State update fl true total)
     (h, processed, fileSize, reports) chunks).2
  = reports ++ progressAfterEachChunk fl total processed chunks.
Proof.
  intros Ht. revert h processed fileSize reports.
  induction chunks as [|chunk chunks IH];
    intros h processed fileSize reports.
  - simpl. by rewrite app_nil_r.
  - cbn [foldl progressAfterEachChunk]. unfold onData at 2.
    apply Z.ltb_lt in Ht as Ht'. rewrite Ht'. cbn [andb].
    rewrite IH, <- app_assoc. done.
Qed.

Hypothesis fl_mono : ∀ x y, (x <= y)%Q → (fl x <= fl y)%Q.
Hypothesis fl_0 : (fl 0 == 0)%Q.
Hypothesis fl_1 : (fl 1 == 1)%Q.
Hypothesis fl_100 : (fl 100 == 100)%Q.

Lemma progress_in_range total processed chunks :
  (0 ≤ processed)%Z →
  (processed + Z.of_nat (length (concat chunks)) ≤ total)%Z →
  (0 < total)%Z →
  Forall (λ p, 0 ≤ p ≤ 100)%Z
    (progressAfterEachChunk fl total processed chunks).
Proof using fl_mono fl_0 fl_1 fl_100.
  intros Hp Hsum Ht. revert processed Hp Hsum.
  induction chunks as [|chunk chunks IH]; intros processed Hp Hsum;
    [by constructor|].
  cbn [progressAfterEachChunk]. cbn [concat] in Hsum.
  rewrite length_app in Hsum. constructor.
  - apply percentage_bounds; try done. lia.
  - apply IH; lia.
Qed.

End hash_facts.

(** C9: the file is read in chunks of 64 KiB, all full but possibly the
    last, and when a progress callback is given and the file is not
    empty, the callback is called once after each chunk with the bytes
    processed so far over the size of the file, times 100, rounded to an
    integer; each value is an integer from 0 to 100.  This holds for every
    rounding of the arithmetic that is monotone and leaves 0, 1 and 100
    unchanged, as the rounding to doubles does. *)
Theorem progress_reports (State : Type) (createHash : string → State)
    (update : State → list Z → State) (digest : State → string)
    (fl : Q → Q) (content : list Z) (baseName : string)
    (startTime endTime : Z) (algorithm : string) :
  (∀ x y, (x <= y)%Q → (fl x <= fl y)%Q) →
  (fl 0 == 0)%Q → (fl 1 == 1)%Q → (fl 100 == 100)%Q →
  (0 < length content)%nat →
  concat (readStream (64 * 1024) content) = content
  ∧ (∀ i chunk,
       readStream (64 * 1024) content !! i = Some chunk →
       (0 < length chunk ≤ 64 * 1024)%nat
       ∧ ((S i < length (readStream (64 * 1024) content))%nat →
          length chunk = (64 * 1024)%nat))
  ∧ (generateFileHash State createHash update digest fl content baseName
       startTime endTime algorithm true).2
    = progressAfterEachChunk fl (Z.of_nat (length content)) 0
        (readStream (64 * 1024) content)
  ∧ Forall (λ p, 0 ≤ p ≤ 100)%Z
      (generateFileHash State createHash update digest fl content baseName
         startTime endTime algorithm true).2.
Proof.
  intros Hmono H0 H1 H100 Hlen.
  assert (0 < 64 * 1024)%nat as Hn by lia.
  set (n := (64 * 1024)%nat) in *.
  assert (concat (readStream n content) = content) as Hcat
    by by apply chunksOf_concat.
  assert ((generateFileHash State createHash update digest fl content
             baseName startTime endTime algorithm true).2
          = progressAfterEachChunk fl (Z.of_nat (length content)) 0
              (readStream n content)) as Hrep.
  { unfold generateFileHash. fold n.
    pose proof (onData_foldl State update fl (Z.of_nat (length content))
                  (createHash algorithm) 0 0 [] (readStream n content)
                  ltac:(lia)) as Hf.
    destruct (foldl _ _ _) as [[[h p] f] reports]. exact Hf. }
  clearbody n.
  split; [done|]. split; [|split; [done|]].
  - intros i chunk Hi. by apply (chunksOf_sizes (length content)).
  - rewrite Hrep. apply progress_in_range; try done; try lia.
    rewrite Hcat. lia.
Qed.

Lemma progress_reports_witness :
  (generateFileHash unit (λ _, tt) (λ s _, s) (λ _, "") JsArith.exact
     [1; 2; 3]%Z "f" 0 5 "sha256" true).2
  = [100%Z].
Proof.
  destruct (progress_reports unit (λ _, tt) (λ s _, s) (λ _, "")
              JsArith.exact [1; 2; 3]%Z "f" 0 5 "sha256")
    as (_ & _ & H & _);
    [by intros x y Hxy|reflexivity|reflexivity|reflexivity|simpl; lia|].
  rewrite H. reflexivity.
Defined.

(** *** The compression ratio *)

Section ratio_facts.

Local Open Scope Q_scope.

Variable fl : Q → Q.
Hypothesis fl_mono : ∀ x y, x <= y → fl x <= fl y.
Hypothesis fl_0 : fl 0 == 0.

Lemma inject_Z_nonneg (n : Z) : (0 ≤ n)%Z → 0 <= inject_Z n.
Proof. intros. change 0 with (inject_Z 0). by rewrite <- Zle_Qle. Qed.

Lemma inject_Z_nonpos (n : Z) : (n ≤ 0)%Z → inject_Z n <= 0.
Proof. intros. change 0 with (inject_Z 0). by rewrite <- Zle_Qle. Qed.

Lemma inject_Z_pos (n : Z) : (0 < n)%Z → 0 < inject_Z n.
Proof. intros. change 0 with (inject_Z 0). by rewrite <- Zlt_Qlt. Qed.

Lemma round_nonneg x : 0 <= x → (0 ≤ JsArith.round x)%Z.
Proof.
  intros Hx. unfold JsArith.round. rewrite <- (Qfloor_Z 0).
  apply Qfloor_resp_le. change (inject_Z 0) with 0. lra.
Qed.

Lemma round_nonpos x : x <= 0 → (JsArith.round x ≤ 0)%Z.
Proof.
  intros Hx. unfold JsArith.round. apply Z.lt_succ_r. rewrite Zlt_Qlt.
  eapply Qle_lt_trans; [apply Qfloor_le|].
  change (inject_Z (Z.succ 0)) with 1. lra.
Qed.

Lemma div_nonneg x y : 0 <= x → 0 < y → 0 <= JsArith.div fl x y.
Proof using fl_mono fl_0.
  intros Hx Hy. apply (fl_nonneg fl fl_mono fl_0).
  apply Qle_shift_div_l; [done|]. by rewrite Qmult_0_l.
Qed.

Lemma div_nonpos x y : x <= 0 → 0 < y → JsArith.div fl x y <= 0.
Proof using fl_mono fl_0.
  intros Hx Hy. apply (fl_nonpos fl fl_mono fl_0).
  apply Qle_shift_div_r; [done|]. by rewrite Qmult_0_l.
Qed.

Lemma mul_100_nonneg x : 0 <= x → 0 <= JsArith.mul fl x 100.
Proof using fl_mono fl_0. intros Hx. apply (fl_nonneg fl fl_mono fl_0). lra. Qed.

Lemma mul_100_nonpos x : x <= 0 → JsArith.mul fl x 100 <= 0.
Proof using fl_mono fl_0. intros Hx. apply (fl_nonpos fl fl_mono fl_0). lra. Qed.

Lemma ratioOf_nonneg originalSize size :
  (size ≤ originalSize)%Z → 0 <= ratioOf fl originalSize size.
Proof using fl_mono fl_0.
  intros Hc. unfold ratioOf.
  destruct (Z.ltb_spec 0 originalSize) as [Hu|Hu]; [|lra].
  apply mul_100_nonneg, div_nonneg; [|by apply inject_Z_pos].
  apply (fl_nonneg fl fl_mono fl_0). rewrite Zle_Qle in Hc. lra.
Qed.

Lemma ratioOf_nonpos originalSize size :
  (originalSize ≤ size)%Z → ratioOf fl originalSize size <= 0.
Proof using fl_mono fl_0.
  intros Hc. unfold ratioOf.
  destruct (Z.ltb_spec 0 originalSize) as [Hu|Hu]; [|lra].
  apply mul_100_nonpos, div_nonpos; [|by apply inject_Z_pos].
  apply (fl_nonpos fl fl_mono fl_0). rewrite Zle_Qle in Hc. lra.
Qed.

Lemma roundedRatio_sign originalSize size :
  ((size ≤ originalSize)%Z → 0 <= roundedRatio fl originalSize size)
  ∧ ((originalSize ≤ size)%Z → roundedRatio fl originalSize size <= 0)
  ∧ ((originalSize ≤ 0)%Z → roundedRatio fl originalSize size == 0).
Proof using fl_mono fl_0.
  assert (∀ u c, 0 <= ratioOf fl u c → 0 <= roundedRatio fl u c) as Hpos.
  { intros u c Hr. unfold roundedRatio.
    apply div_nonneg; [|done].
    by apply inject_Z_nonneg, round_nonneg, mul_100_nonneg. }
  assert (∀ u c, ratioOf fl u c <= 0 → roundedRatio fl u c <= 0) as Hneg.
  { intros u c Hr. unfold roundedRatio.
    apply div_nonpos; [|done].
    by apply inject_Z_nonpos, round_nonpos, mul_100_nonpos. }
  split; [|split].
  - intros Hc. by apply Hpos, ratioOf_nonneg.
  - intros Hc. by apply Hneg, ratioOf_nonpos.
  - intros Hu.
    assert (ratioOf fl originalSize size = 0) as Hz.
    { unfold ratioOf. by destruct (Z.ltb_spec 0 originalSize); [lia|]. }
    apply Qle_antisym; [apply Hneg|apply Hpos]; rewrite Hz; apply Qle_refl.
Qed.

End ratio_facts.

Section exact_ratio.

Local Open Scope Q_scope.

(** In exact arithmetic the reported ratio is the percentage rounded to
    the nearest hundredth. *)
Lemma roundedRatio_exact originalSize size :
  (0 < originalSize)%Z →
  ratioOf JsArith.exact originalSize size
  == (inject_Z originalSize - inject_Z size) / inject_Z originalSize * 100
  ∧ (∃ k : Z, roundedRatio JsArith.exact originalSize size
              == inject_Z k / 100)
  ∧ Qabs (roundedRatio JsArith.exact originalSize size
          - ratioOf JsArith.exact originalSize size) <= 1 # 200.
Proof.
  intros Hu. split; [|split].
  - unfold ratioOf. apply Z.ltb_lt in Hu as ->. reflexivity.
  - eexists. reflexivity.
  - unfold roundedRatio, JsArith.mul, JsArith.div, JsArith.exact,
      JsArith.round.
    generalize (ratioOf (λ x, x) originalSize size). intros r.
    pose proof (Qfloor_le (r * 100 + (1 # 2))) as H1.
    pose proof (Qlt_floor (r * 100 + (1 # 2))) as H2.
    rewrite inject_Z_plus in H2. change (inject_Z 1) with 1 in H2.
    set (k := inject_Z (Qfloor (r * 100 + (1 # 2)))) in *.
    apply Qabs_Qle_condition. split.
    + assert (k / 100 == k * (1 # 100)) as -> by (field). lra.
    + assert (k / 100 == k * (1 # 100)) as -> by (field). lra.
Qed.

End exact_ratio.

(** C8, as amended: on the close of the output stream [zip] resolves to a
    result whose compression ratio is the percentage
    [(originalSize - size) / originalSize * 100] rounded to two decimals
    ([Math.round(ratio * 100) / 100]), and 0 when the original size is 0.
    It is not negative when the archive is not larger than the source
    and not positive when it is not smaller.  In exact arithmetic it is a
    whole number of hundredths at most 0.005 away from the percentage. *)
Theorem compression_ratio (sha512 : list Z → list Z) (cwd : string)
    (fl : Q → Q) (deflate : Z → list Z → list Z)
    (containerSize : Container → Z) (fileHash : string → Container → string)
    (random : list Z) (t : Tree) (sourcePath outputPath : string)
    (options : ZipOptions) :
  (∀ x y, (x <= y)%Q → (fl x <= fl y)%Q) →
  (fl 0 == 0)%Q →
  ∃ container result,
    zip sha512 cwd fl deflate containerSize fileHash random (Some t)
      sourcePath outputPath options
    = Some (container, result)
    ∧ compressionRatio result
      = JsArith.div fl
          (inject_Z
             (JsArith.round
                (JsArith.mul fl
                   (ratioOf fl (calculateDirectorySize t)
                      (containerSize container)) 100))) 100
    ∧ ((calculateDirectorySize t ≤ 0)%Z → (compressionRatio result == 0)%Q)
    ∧ ((containerSize container ≤ calculateDirectorySize t)%Z →
       (0 <= compressionRatio result)%Q)
    ∧ ((calculateDirectorySize t ≤ containerSize container)%Z →
       (compressionRatio result <= 0)%Q)
    ∧ ((0 < calculateDirectorySize t)%Z →
       (ratioOf JsArith.exact (calculateDirectorySize t)
          (containerSize container)
        == (inject_Z (calculateDirectorySize t)
            - inject_Z (containerSize container))
           / inject_Z (calculateDirectorySize t) * 100)%Q
       ∧ (∃ k : Z,
            (roundedRatio JsArith.exact (calculateDirectorySize t)
               (containerSize container) == inject_Z k / 100)%Q)
       ∧ (Qabs (roundedRatio JsArith.exact (calculateDirectorySize t)
                  (containerSize container)
                - ratioOf JsArith.exact (calculateDirectorySize t)
                    (containerSize container)) <= 1 # 200)%Q).
Proof.
  intros Hmono H0. unfold zip. cbn [mbind option_bind].
  match goal with |- context [Some (?c, ?r)] => exists c, r end.
  split; [reflexivity|]. cbn [compressionRatio].
  split; [reflexivity|].
  set (u := calculateDirectorySize t). set (s := containerSize _).
  destruct (roundedRatio_sign fl Hmono H0 u s) as (H1 & H2 & H3).
  split; [done|]. split; [done|]. split; [done|].
  apply roundedRatio_exact.
Qed.

Lemma compression_ratio_witness :
  ∃ r, (snd <$> zip (λ _, []) "/home/u" JsArith.exact (λ _ b, b)
                  (λ _, 200%Z) (λ _ _, "") [] (Some (FileNode (replicate 300 0%Z)))
                  "f" "f.zip"
                  {| password := None; compressionLevel := None;
                     generateHash := None |}) = Some r
       ∧ (0 <= compressionRatio r)%Q.
Proof.
  destruct (compression_ratio (λ _, []) "/home/u" JsArith.exact (λ _ b, b)
              (λ _, 200%Z) (λ _ _, "") [] (FileNode (replicate 300 0%Z))
              "f" "f.zip"
              {| password := None; compressionLevel := None;
                 generateHash := None |})
    as (c & r & Hz & _ & _ & Hpos & _).
  - by intros x y Hxy.
  - reflexivity.
  - exists r. rewrite Hz. split; [done|]. apply Hpos. by vm_compute.
Defined.

(** C8, refuted as stated: for a source of 300 bytes and an archive of
    200 bytes the ratio reported is 33.33, below the percentage
    33.333..., in exact arithmetic and in doubles. *)
Lemma compression_ratio_counterexample :
  Qcompare (roundedRatio JsArith.exact 300 200)
    ((300 - 200) / 300 * 100) = Lt
  ∧ Qeq_bool (roundedRatio JsArith.exact 300 200) (3333 # 100) = true
  ∧ Qcompare (roundedRatio JsArith.binary64 300 200)
      (ratioOf JsArith.binary64 300 200) = Lt
  ∧ Qeq_bool (roundedRatio JsArith.binary64 300 200)
      (JsArith.binary64 (3333 # 100)) = true
  ∧ (compressionRatio
     <$> (snd <$> zip (λ _, []) "/home/u" JsArith.binary64 (λ _ b, b)
                    (λ _, 200%Z) (λ _ _, "") []
                    (Some (FileNode (replicate 300 0%Z))) "f" "f.zip"
                    {| password := None; compressionLevel := None;
                       generateHash := None |}))
    = Some (roundedRatio JsArith.binary64 300 200).
Proof. by vm_compute. Qed.

(** *** File names with control characters *)

Lemma validateFilename_dangerous filename c :
  c ∈ list_ascii_of_string filename → SecurityUtils.dangerousChar c = true →
  SecurityUtils.validateFilename filename = false.
Proof.
  intros Hin Hc. unfold SecurityUtils.validateFilename.
  destruct (negb (truthy filename)); [done|].
  destruct (255 <? SecurityUtils.jsLength filename)%nat; [done|].
  assert (existsb SecurityUtils.dangerousChar (list_ascii_of_string filename) = true)
    as ->; [|done].
  apply existsb_exists. exists c. split; [|done].
  by apply list_elem_of_In.
Qed.

(** C7, where the code departs from it: [validateFilename] returns
    [false] for every name with a control character in it, but the
    extraction never calls it; [isPathSafe], the only check of its own,
    returns [false] for every target that resolves outside the root and
    does not look at the characters, and no more does the reader of the
    archive: an entry named ["a"], line feed, ["b"] is written like any
    other. *)
Theorem control_characters_unchecked :
  (∀ filename c,
     c ∈ list_ascii_of_string filename →
     (code c ≤ 31)%Z ∨ code c = 127%Z →
     SecurityUtils.validateFilename filename = false)
  ∧ (∀ cwd target root,
       ¬ resolveSegments cwd root `prefix_of` resolveSegments cwd target →
       SimplZip.isPathSafe cwd target root = false
       ∧ SecurityUtils.isPathSafe cwd target root = false)
  ∧ SecurityUtils.validateFilename ("a" +:+ String "010" "b") = false
  ∧ SimplZip.isPathSafe "/home/u"
      (joinPaths ["/out"; "a" +:+ String "010" "b"]) "/out" = true
  ∧ disk (unzip (λ _, []) "/home/u" ∅
            (Opened {| comment := "";
                       entries := [{| fileName := "a" +:+ String "010" "b";
                                      stream := Some [1%Z] |}] |})
            "x.zip" (Some "/out") None)
    !! ["out"; "a" +:+ String "010" "b"]
    = Some (File [1%Z])
  ∧ warnings (unzip (λ _, []) "/home/u" ∅
                (Opened {| comment := "";
                           entries :=
                             [{| fileName := "a" +:+ String "010" "b";
                                 stream := Some [1%Z] |}] |})
                "x.zip" (Some "/out") None)
    = [].
Proof.
  split; [|split; [|by vm_compute]].
  - intros filename c Hin Hc.
    apply (validateFilename_dangerous filename c Hin).
    unfold SecurityUtils.dangerousChar.
    destruct Hc as [Hc| ->]; [|done].
    apply Z.leb_le in Hc as ->. done.
  - intros cwd target root Hout.
    assert (SimplZip.isPathSafe cwd target root = false) as H.
    { destruct (SimplZip.isPathSafe cwd target root) eqn:E; [|done].
      by apply isPathSafe_prefix in E. }
    split; [done|]. exact H.
Qed.

(** *** The round trip below the root *)

Section target_facts.

Variable cwd : string.

Lemma startsWith_app a b : startsWith (a +:+ b) a = true.
Proof.
  induction a as [|c a IH]; [by destruct b|].
  simpl. by rewrite Ascii.eqb_refl.
Qed.

Lemma join_app l k :
  l ≠ [] → k ≠ [] →
  join "/" (l ++ k) = join "/" l +:+ String "/" (join "/" k).
Proof.
  intros Hl Hk. induction l as [|a l IH]; [done|].
  destruct l as [|b l].
  - destruct k; done.
  - change (join "/" ((a :: b :: l) ++ k))
      with (a +:+ String "/" (join "/" ((b :: l) ++ k))).
    rewrite IH by done.
    change (join "/" (a :: b :: l))
      with (a +:+ String "/" (join "/" (b :: l))).
    by rewrite !sapp_assoc.
Qed.

(** The segments of an entry's target: those of the root, then those of
    the name. *)
Lemma joined_segments R pre :
  Forall (λ s, cleanSegment s = true) R →
  Forall (λ s, cleanSegment s = true) pre → pre ≠ [] →
  segments false (fromSegments R +:+ "/" +:+ join "/" pre) = R ++ pre.
Proof.
  intros HR Hpre Hne. destruct R as [|r R].
  - unfold fromSegments, segments. simpl join.
    change (("/" +:+ "") +:+ "/" +:+ join "/" pre)
      with ("" +:+ String "/" ("" +:+ String "/" (join "/" pre))).
    rewrite !split_cons_sep by done.
    rewrite !normalizeSegments_empty.
    rewrite split_join_segments by done.
    rewrite <- (app_nil_r pre) at 1.
    rewrite normalizeSegments_app by done. simpl.
    by rewrite app_nil_r, reverse_involutive.
  - unfold fromSegments. rewrite sapp_assoc.
    change ("/" +:+ join "/" pre) with (String "/" (join "/" pre)).
    rewrite <- join_app by done.
    apply (segments_fromSegments ((r :: R) ++ pre)).
    by apply Forall_app.
Qed.

Lemma truthy_app_l a b : truthy a = true → truthy (a +:+ b) = true.
Proof. by destruct a. Qed.

Lemma entry_joined R name :
  truthy name = true →
  joinPaths [fromSegments R; name]
  = normalize (fromSegments R +:+ "/" +:+ name).
Proof. intros Hn. unfold joinPaths. by destruct name. Qed.

(** The target of a file entry. *)
Lemma file_target R pre :
  Forall (λ s, cleanSegment s = true) R →
  Forall (λ s, cleanSegment s = true) pre → pre ≠ [] →
  joinPaths [fromSegments R; join "/" pre] = fromSegments (R ++ pre).
Proof.
  intros HR Hpre Hne.
  rewrite entry_joined by by apply truthy_join.
  rewrite normalize_absolute by done.
  rewrite joined_segments by done.
  rewrite <- sapp_assoc, endsWithSlash_app by by apply truthy_join.
  rewrite endsWithSlash_join by done. simpl. by rewrite sapp_nil_r.
Qed.

(** The target of a directory entry. *)
Lemma directory_target R pre :
  Forall (λ s, cleanSegment s = true) R →
  Forall (λ s, cleanSegment s = true) pre → pre ≠ [] →
  resolveSegments cwd (joinPaths [fromSegments R; join "/" pre +:+ "/"])
  = R ++ pre.
Proof.
  intros HR Hpre Hne.
  rewrite entry_joined by by apply truthy_app_l, truthy_join.
  rewrite normalize_absolute by done.
  assert (segments false (fromSegments R +:+ "/" +:+ join "/" pre +:+ "/")
          = R ++ pre) as ->.
  { rewrite <- (joined_segments R pre) by done.
    rewrite <- (segments_slash false
                  (fromSegments R +:+ "/" +:+ join "/" pre)).
    by rewrite !sapp_assoc. }
  assert (Forall (λ s, cleanSegment s = true) (R ++ pre))
    by by apply Forall_app.
  destruct (_ && _).
  - by apply resolveSegments_fromSegments_slash.
  - rewrite sapp_nil_r. by apply resolveSegments_fromSegments.
Qed.

(** What lies below a root other than [/] is safe. *)
Lemma isPathSafe_below R pre target :
  Forall (λ s, cleanSegment s = true) R → R ≠ [] →
  Forall (λ s, cleanSegment s = true) pre → pre ≠ [] →
  resolveSegments cwd target = R ++ pre →
  isPathSafe cwd target (fromSegments R) = true.
Proof.
  intros HR HRne Hpre Hne Ht. unfold isPathSafe, resolve.
  rewrite Ht, resolveSegments_fromSegments by done.
  apply orb_true_iff. left. unfold fromSegments, sep.
  rewrite join_app by done.
  change (String "/" (join "/" pre)) with ("/" +:+ join "/" pre).
  rewrite <- !sapp_assoc. apply startsWith_app.
Qed.

End target_facts.

Section making_facts.

Lemma prefix_snoc_inv (q above : list string) seg :
  q `prefix_of` above ++ [seg] → q `prefix_of` above ∨ q = above ++ [seg].
Proof.
  intros [k Hk]. destruct (decide (k = [])) as [->|Hne].
  - right. by rewrite app_nil_r in Hk.
  - left. destruct (exists_last Hne) as (k' & x & ->).
    rewrite app_assoc in Hk. apply app_inj_tail in Hk as [-> _].
    by apply prefix_app_r.
Qed.

(** [mkdirSync] succeeds when no file is in the way, and then every
    directory on the way exists. *)
Lemma mkdirFrom_Some d above below :
  (∀ q c, q `prefix_of` above ++ below → d !! q ≠ Some (File c)) →
  ∃ d', mkdirFrom d above below = Some d'
        ∧ ∀ q, q `prefix_of` above ++ below → ¬ q `prefix_of` above →
               d' !! q = Some Dir.
Proof.
  revert d above. induction below as [|seg rest IH]; intros d above Hd.
  - exists d. split; [done|]. intros q Hq Hn. by rewrite app_nil_r in Hq.
  - simpl. rewrite (cons_middle seg), app_assoc in Hd.
    assert (∀ d1, d1 !! (above ++ [seg]) = Some Dir →
              (∀ q, q ≠ above ++ [seg] → d1 !! q = d !! q) →
              ∃ d', mkdirFrom d1 (above ++ [seg]) rest = Some d'
                    ∧ ∀ q, q `prefix_of` above ++ seg :: rest →
                           ¬ q `prefix_of` above → d' !! q = Some Dir)
      as Hstep.
    { intros d1 Hp Hother.
      destruct (IH d1 (above ++ [seg])) as (d' & Hd' & Hdir).
      - intros q c Hq. destruct (decide (q = above ++ [seg])) as [->|Hne].
        + by rewrite Hp.
        + rewrite Hother by done. by apply Hd.
      - exists d'. split; [done|]. intros q Hq Hn.
        rewrite (cons_middle seg), app_assoc in Hq.
        destruct (decide (q `prefix_of` above ++ [seg])) as [Hin|Hout].
        + apply prefix_snoc_inv in Hin as [?| ->]; [done|].
          pose proof (mkdirFrom_frame _ _ _ _ (above ++ [seg]) Hd')
            as [Hk|(_ & Hk & _)]; rewrite Hp in Hk; [done|done].
        + by apply Hdir. }
    destruct (d !! (above ++ [seg])) as [[|c]|] eqn:Hp.
    + apply Hstep; done.
    + exfalso. eapply Hd; [|done]. by apply prefix_app_r.
    + apply Hstep; [by rewrite lookup_insert_eq|].
      intros q Hq. by rewrite lookup_insert_ne.
Qed.

Lemma mkdirSync_Some d p :
  (∀ q c, q `prefix_of` p → d !! q ≠ Some (File c)) →
  ∃ d', mkdirSync d p = Some d'
        ∧ ∀ q, q `prefix_of` p → q ≠ [] → d' !! q = Some Dir.
Proof.
  intros Hd. destruct (mkdirFrom_Some d [] p Hd) as (d' & Hd' & Hdir).
  exists d'. split; [done|]. intros q Hq Hne. apply Hdir; [done|].
  intros Hnil. by apply prefix_nil_inv in Hnil.
Qed.

Lemma keptOrMade_below p p' q d d' :
  p `prefix_of` p' → keptOrMade p q d d' → keptOrMade p' q d d'.
Proof.
  intros Hp [Hk|(Hq & Hn & Hm)]; [by left|right].
  split; [by etrans|done].
Qed.

Lemma writeStream_Some d p content :
  p ≠ [] → d !! p = None → lookupNode d (removelast p) = Some Dir →
  writeStream d p content = Some (<[p := File content]> d).
Proof.
  intros Hp Hn Hdir. unfold writeStream. rewrite Hdir.
  destruct p; [done|]. simpl lookupNode. by rewrite Hn.
Qed.

End making_facts.

Section tree_facts.

Lemma Tree_ind' (P : Tree → Prop) :
  (∀ content, P (FileNode content)) →
  (∀ children, Forall P children.*2 → P (DirNode children)) →
  ∀ t, P t.
Proof.
  intros Hfile Hdir. fix IH 1. intros [content|children].
  - apply Hfile.
  - apply Hdir. induction children as [|[name item] children IHc].
    + constructor.
    + constructor; [apply IH|apply IHc].
Qed.

Lemma not_prefix_longer (P : list string) n q :
  ¬ (P ++ n :: q) `prefix_of` P.
Proof.
  intros H%prefix_length. rewrite length_app in H. simpl in H. lia.
Qed.

Lemma not_prefix_sibling (P : list string) m n q :
  n ≠ m → ¬ (P ++ [m]) `prefix_of` (P ++ n :: q).
Proof.
  intros Hne H%prefix_app_inv. by apply prefix_cons_inv_1 in H.
Qed.

Lemma not_prefix_sibling' (P : list string) m n q :
  n ≠ m → ¬ (P ++ n :: q) `prefix_of` (P ++ [m]).
Proof.
  intros Hne H%prefix_app_inv. by apply prefix_cons_inv_1 in H.
Qed.

End tree_facts.

Section round_trip_facts.

Variable cwd : string.
Variable deflate : Z → list Z → list Z.
Variable inflate : list Z → option (list Z).
Variable level : Z.
Variable R : list string.

Hypothesis R_clean : Forall (λ s, cleanSegment s = true) R.
Hypothesis R_below : R ≠ [].
Hypothesis codec : ∀ content, inflate (deflate level content) = Some content.

Lemma extract_file pre content rest d ws log :
  Forall (λ s, cleanSegment s = true) pre → pre ≠ [] →
  storable pre = true →
  extractEntries cwd (fromSegments R)
    ({| fileName := join "/" pre; stream := Some content |} :: rest) d ws log
  = match mkdirSync d (removelast (R ++ pre)) with
    | None => {| outcome := Uncaught; disk := d;
                 warnings := ws; infos := log |}
    | Some d' =>
        match writeStream d' (R ++ pre) content with
        | None => {| outcome := Rejected WriteFailed; disk := d';
                     warnings := ws; infos := log |}
        | Some d'' => extractEntries cwd (fromSegments R) rest d'' ws log
        end
    end.
Proof using Type*.
  intros Hpre Hne Hst.
  assert (Forall (λ s, cleanSegment s = true) (R ++ pre)) as HP
    by by apply Forall_app.
  cbn [extractEntries fileName stream].
  destruct (validateFileName_join pre Hne Hpre Hst) as [-> _].
  rewrite file_target by done.
  rewrite (isPathSafe_below cwd R pre)
    by (try done; by apply resolveSegments_fromSegments).
  rewrite endsWithSlash_join by done. cbn [negb].
  rewrite dirname_fromSegments by done.
  rewrite !resolveSegments_fromSegments; [done|done|].
  eapply Forall_prefix_of; [apply prefix_removelast|done].
Qed.

Lemma extract_directory pre content rest d ws log :
  Forall (λ s, cleanSegment s = true) pre → pre ≠ [] →
  storable pre = true →
  extractEntries cwd (fromSegments R)
    ({| fileName := join "/" pre +:+ "/"; stream := content |} :: rest)
    d ws log
  = match mkdirSync d (R ++ pre) with
    | None => {| outcome := Uncaught; disk := d;
                 warnings := ws; infos := log |}
    | Some d' => extractEntries cwd (fromSegments R) rest d' ws log
    end.
Proof using Type*.
  intros Hpre Hne Hst.
  cbn [extractEntries fileName stream].
  destruct (validateFileName_join_slash pre Hne Hpre Hst) as [-> _].
  rewrite (isPathSafe_below cwd R pre)
    by (try done; by apply directory_target).
  rewrite endsWithSlash_app by done. cbn [negb].
  change (endsWithSlash "/") with true. cbn iota.
  by rewrite directory_target.
Qed.

Section children_facts.

Variable good : Tree → Prop.

Hypothesis good_walk : ∀ t, good t →
  wellFormed t = true →
  ∀ pre rest d ws log,
    Forall (λ s, cleanSegment s = true) pre → pre ≠ [] →
    storable pre = true →
    (∀ q c, q `prefix_of` R ++ pre → d !! q ≠ Some (File c)) →
    (∀ q, (R ++ pre) `prefix_of` q → d !! q = None) →
    ∃ d',
      extractEntries cwd (fromSegments R)
        ((readEntry inflate <$> walk deflate level pre t) ++ rest) d ws log
      = extractEntries cwd (fromSegments R) rest d' ws log
      ∧ (∀ q, d' !! (R ++ pre ++ q) = nodeOf <$> lookupTree t q)
      ∧ (∀ q, q `prefix_of` R ++ pre → q ≠ [] → q ≠ R ++ pre →
              d' !! q = Some Dir)
      ∧ (∀ q, ¬ (R ++ pre) `prefix_of` q → keptOrMade (R ++ pre) q d d').

Lemma extract_children items :
  Forall good items.*2 → NoDup items.*1 →
  forallb (λ item, cleanSegment item.1 && negb (has_char "\" item.1)
                   && wellFormed item.2) items = true →
  ∀ pre rest d ws log,
    Forall (λ s, cleanSegment s = true) pre → pre ≠ [] →
    storable pre = true →
    (∀ q c, q `prefix_of` R ++ pre → d !! q ≠ Some (File c)) →
    (∀ n q, n ∈ items.*1 → d !! (R ++ pre ++ n :: q) = None) →
    ∃ d',
      extractEntries cwd (fromSegments R)
        ((readEntry inflate
          <$> (fix descend (items : list (string * Tree)) : list Stored :=
                 match items with
                 | [] => []
                 | (name, item) :: items' =>
                     walk deflate level (pre ++ [name]) item ++ descend items'
                 end) items) ++ rest) d ws log
      = extractEntries cwd (fromSegments R) rest d' ws log
      ∧ (∀ n q, n ∈ items.*1 →
           d' !! (R ++ pre ++ n :: q)
           = nodeOf <$> lookupTree (DirNode items) (n :: q))
      ∧ (items ≠ [] → ∀ q, q `prefix_of` R ++ pre → q ≠ [] →
           d' !! q = Some Dir)
      ∧ (∀ q, (∀ n, n ∈ items.*1 → ¬ (R ++ pre ++ [n]) `prefix_of` q) →
           keptOrMade (R ++ pre) q d d').
Proof using Type*.
  induction items as [|[m c] items IH];
    intros Hgood Hnodup Hwf pre rest d ws log Hpre Hne Hst Hfile Hfresh.
  { exists d. split; [done|]. split; [|split].
    - intros n q Hn. by apply elem_of_nil in Hn.
    - done.
    - intros. apply keptOrMade_refl. }
  apply Forall_cons in Hgood as [Hc Hgood].
  apply NoDup_cons in Hnodup as [Hm Hnodup].
  cbn [forallb fst snd] in Hwf.
  apply andb_true_iff in Hwf as [Hitem Hwf].
  apply andb_true_iff in Hitem as [[Hclean Hbs]%andb_true_iff Hwfc].
  apply negb_true_iff in Hbs.
  rewrite fmap_app, <- app_assoc.
  destruct (good_walk c Hc Hwfc (pre ++ [m])
              ((readEntry inflate
                <$> (fix descend (items : list (string * Tree))
                       : list Stored :=
                       match items with
                       | [] => []
                       | (name, item) :: items' =>
                           walk deflate level (pre ++ [name]) item
                           ++ descend items'
                       end) items) ++ rest) d ws log)
    as (d1 & Hex1 & Hat1 & Hanc1 & Hframe1).
  { apply Forall_app. split; [done|]. by apply Forall_singleton. }
  { by destruct pre. }
  { by apply storable_snoc. }
  { intros q c0 Hq. rewrite app_assoc in Hq.
    apply prefix_snoc_inv in Hq as [Hq| ->]; [by apply Hfile|].
    rewrite <- app_assoc, Hfresh; [done|]. simpl. left. }
  { intros q [k ->]. rewrite <- !app_assoc. apply Hfresh. simpl. left. }
  rewrite Hex1.
  destruct (IH Hgood Hnodup Hwf pre rest d1 ws log Hpre Hne Hst)
    as (d2 & Hex2 & Hat2 & Hanc2 & Hframe2).
  { intros q c0 Hq.
    destruct (Hframe1 q) as [Hk|(_ & _ & Hk)].
    - intros Hp. rewrite app_assoc in Hp.
      apply (not_prefix_longer (R ++ pre) m []). by etrans.
    - rewrite Hk. by apply Hfile.
    - by rewrite Hk. }
  { intros n q Hn.
    assert (n ≠ m) as Hnm by (intros ->; done).
    destruct (Hframe1 (R ++ pre ++ n :: q)) as [Hk|(Hk & _)].
    - rewrite !app_assoc. by apply not_prefix_sibling.
    - rewrite Hk. apply Hfresh. by right.
    - exfalso. rewrite !app_assoc in Hk.
      by apply not_prefix_sibling' in Hk. }
  exists d2. split; [done|]. split; [|split].
  - intros n q Hn. cbn [lookupTree].
    destruct (String.eqb_spec m n) as [<-|Hmn].
    + destruct (Hframe2 (R ++ pre ++ m :: q)) as [Hk|(Hk & _)].
      * intros n Hn'. rewrite !app_assoc. apply not_prefix_sibling.
        intros ->. done.
      * rewrite Hk. rewrite <- Hat1. by rewrite <- !app_assoc.
      * exfalso. rewrite app_assoc in Hk.
        by apply not_prefix_longer in Hk.
    + apply elem_of_cons in Hn as [->|Hn]; [done|].
      by rewrite Hat2.
  - intros _ q Hq Hqne.
    assert (d1 !! q = Some Dir) as Hd1.
    { apply Hanc1; [|done|].
      - rewrite app_assoc. by apply prefix_app_r.
      - intros ->. rewrite app_assoc in Hq.
        by apply (not_prefix_longer (R ++ pre) m []) in Hq. }
    destruct (Hframe2 q) as [Hk|(_ & Hk & _)].
    + intros n Hn Hp. rewrite app_assoc in Hp.
      apply (not_prefix_longer (R ++ pre) n []). by etrans.
    + by rewrite Hk.
    + by rewrite Hd1 in Hk.
  - intros q Hq. apply (keptOrMade_trans _ _ d d1 d2).
    + destruct (Hframe1 q) as [Hk|(Hp & Hk)].
      * apply Hq. left.
      * by left.
      * right. split; [|done]. rewrite app_assoc in Hp.
        apply prefix_snoc_inv in Hp as [Hp| ->]; [done|].
        exfalso. apply (Hq m); [left|]. by rewrite app_assoc.
    + apply Hframe2. intros n Hn. apply Hq. by right.
Qed.

End children_facts.

Lemma prefix_proper (q l : list string) x :
  q `prefix_of` l ++ [x] → q ≠ l ++ [x] → q `prefix_of` l.
Proof. intros [H|H]%prefix_snoc_inv; done. Qed.

(** The entries of a source, extracted below the root: the disk then
    holds the source at its place, with the directories on the way, and
    is otherwise as before. *)
Lemma extract_walk t :
  wellFormed t = true →
  ∀ pre rest d ws log,
    Forall (λ s, cleanSegment s = true) pre → pre ≠ [] →
    storable pre = true →
    (∀ q c, q `prefix_of` R ++ pre → d !! q ≠ Some (File c)) →
    (∀ q, (R ++ pre) `prefix_of` q → d !! q = None) →
    ∃ d',
      extractEntries cwd (fromSegments R)
        ((readEntry inflate <$> walk deflate level pre t) ++ rest) d ws log
      = extractEntries cwd (fromSegments R) rest d' ws log
      ∧ (∀ q, d' !! (R ++ pre ++ q) = nodeOf <$> lookupTree t q)
      ∧ (∀ q, q `prefix_of` R ++ pre → q ≠ [] → q ≠ R ++ pre →
              d' !! q = Some Dir)
      ∧ (∀ q, ¬ (R ++ pre) `prefix_of` q → keptOrMade (R ++ pre) q d d').
Proof using Type*.
  induction t as [content|children IH] using Tree_ind';
    intros Hwf pre rest d ws log Hpre Hne Hst Hfile Hfresh.
  - change ((readEntry inflate <$> walk deflate level pre (FileNode content))
            ++ rest)
      with ({| fileName := allowBackslash (join "/" pre);
               stream := inflate (deflate level content) |} :: rest).
    destruct (validateFileName_join pre Hne Hpre Hst) as [_ ->].
    rewrite codec, extract_file by done.
    destruct (exists_last Hne) as (pre0 & x & ->).
    rewrite app_assoc in *. rewrite removelast_last.
    assert (R ++ pre0 ≠ []) as HA by by destruct R.
    destruct (mkdirSync_Some d (R ++ pre0)) as (d1 & Hmk & Hdir).
    { intros q c Hq. apply Hfile. by apply prefix_app_r. }
    rewrite Hmk.
    assert (d1 !! ((R ++ pre0) ++ [x]) = None) as Hnone.
    { destruct (mkdirSync_frame _ _ _ ((R ++ pre0) ++ [x]) Hmk)
        as [Hk|(Hk & _)].
      - by rewrite Hk, Hfresh.
      - by apply not_prefix_longer in Hk. }
    rewrite writeStream_Some; [|by destruct (R ++ pre0)|done|].
    2:{ rewrite removelast_last. destruct (R ++ pre0); [done|].
        simpl. apply Hdir; [reflexivity|done]. }
    eexists. split; [reflexivity|]. split; [|split].
    + intros q.
      replace (R ++ (pre0 ++ [x]) ++ q) with (((R ++ pre0) ++ [x]) ++ q)
        by by rewrite <- !app_assoc.
      destruct q as [|n q].
      * by rewrite app_nil_r, lookup_insert_eq.
      * rewrite lookup_insert_ne.
        2:{ intros Heq. apply (f_equal length) in Heq.
            rewrite !length_app in Heq. simpl in Heq. lia. }
        destruct (mkdirSync_frame _ _ _ (((R ++ pre0) ++ [x]) ++ n :: q) Hmk)
          as [Hk|(Hk & _)].
        -- rewrite Hk. apply Hfresh. by apply prefix_app_r.
        -- exfalso. rewrite <- app_assoc in Hk.
           by apply not_prefix_longer in Hk.
    + intros q Hq Hqne Hneq. rewrite lookup_insert_ne by done.
      apply Hdir; [|done]. by eapply prefix_proper.
    + intros q Hq.
      assert (q ≠ (R ++ pre0) ++ [x]) as Hneq by (intros ->; by apply Hq).
      unfold keptOrMade. rewrite lookup_insert_ne by done.
      eapply keptOrMade_below; [|by eapply mkdirSync_frame].
      by apply prefix_app_r.
  - simpl in Hwf.
    apply andb_true_iff in Hwf as [Hnodup%bool_decide_eq_true Hwf].
    cbn [walk]. rewrite fmap_cons, <- app_comm_cons.
    unfold readEntry at 1. cbn [storedName storedData].
    destruct (validateFileName_join_slash pre Hne Hpre Hst) as [_ ->].
    rewrite extract_directory by done.
    destruct (mkdirSync_Some d (R ++ pre)) as (d1 & Hmk & Hdir); [done|].
    rewrite Hmk.
    destruct (extract_children _ (λ t H, H) children IH Hnodup Hwf
                pre rest d1 ws log Hpre Hne Hst)
      as (d2 & Hex & Hat & Hanc & Hframe).
    { intros q c Hq. destruct (decide (q = [])) as [->|Hqne].
      - destruct (mkdirSync_frame _ _ _ [] Hmk) as [Hk|(_ & _ & Hk)].
        + rewrite Hk. apply Hfile, prefix_nil.
        + by rewrite Hk.
      - by rewrite Hdir. }
    { intros n q Hn.
      destruct (mkdirSync_frame _ _ _ (R ++ pre ++ n :: q) Hmk)
        as [Hk|(Hk & _)].
      - rewrite Hk. apply Hfresh. rewrite app_assoc. by apply prefix_app_r.
      - exfalso. rewrite app_assoc in Hk.
        by apply not_prefix_longer in Hk. }
    exists d2. split; [done|].
    assert (R ++ pre ≠ []) as HP by by destruct R.
    split; [|split].
    + intros [|n q].
      * rewrite app_nil_r. simpl.
        destruct (Hframe (R ++ pre)) as [Hk|(_ & _ & Hk)]; [| |done].
        -- intros n Hn Hp. rewrite app_assoc in Hp.
           by apply (not_prefix_longer (R ++ pre) n []) in Hp.
        -- rewrite Hk. by apply Hdir.
      * destruct (decide (n ∈ children.*1)) as [Hn|Hn]; [by apply Hat|].
        assert (lookupTree (DirNode children) (n :: q) = None) as ->.
        { cbn [lookupTree]. clear -Hn.
          induction children as [|[m c] children IHc]; [done|].
          simpl in Hn. apply not_elem_of_cons in Hn as [Hnm Hn].
          destruct (String.eqb_spec m n); [by subst|by apply IHc]. }
        destruct (Hframe (R ++ pre ++ n :: q)) as [Hk|(Hk & _)].
        -- intros m Hm. rewrite !app_assoc. apply not_prefix_sibling.
           intros ->. done.
        -- rewrite Hk.
           destruct (mkdirSync_frame _ _ _ (R ++ pre ++ n :: q) Hmk)
             as [Hk'|(Hk' & _)].
           ++ rewrite Hk'. simpl. apply Hfresh.
              rewrite app_assoc. by apply prefix_app_r.
           ++ exfalso. rewrite app_assoc in Hk'.
              by apply not_prefix_longer in Hk'.
        -- exfalso. rewrite app_assoc in Hk.
           by apply not_prefix_longer in Hk.
    + intros q Hq Hqne _.
      destruct (Hframe q) as [Hk|(_ & _ & Hk)]; [| |done].
      * intros n Hn Hp. rewrite app_assoc in Hp.
        apply (not_prefix_longer (R ++ pre) n []). by etrans.
      * rewrite Hk. by apply Hdir.
    + intros q Hq. apply (keptOrMade_trans _ _ d d1 d2).
      * by eapply mkdirSync_frame.
      * apply Hframe. intros n Hn Hp. apply Hq.
        rewrite app_assoc in Hp. etrans; [|done]. by apply prefix_app_r.
Qed.

End round_trip_facts.

Section round_trip.

Lemma lookupTree_absent items n q :
  n ∉ items.*1 → lookupTree (DirNode items) (n :: q) = None.
Proof.
  intros Hn. cbn [lookupTree].
  induction items as [|[m c] items IH]; [done|].
  simpl in Hn. apply not_elem_of_cons in Hn as [Hnm Hn].
  destruct (String.eqb_spec m n); [by subst|by apply IH].
Qed.

(** The round trip below a root other than [/]: an archive made of a
    well-formed source, with a password or without one, under a base name
    that [yauzl] accepts, extracted to a directory where nothing is in the
    way, gives every node of the source at its relative path under the
    root, a file with its content and a directory as a directory, and
    nothing else changes but the directories made on the way. *)
Lemma round_trip_below_root (sha512 : list Z → list Z) (cwd : string)
    (fl : Q → Q) (deflate : Z → list Z → list Z)
    (inflate : list Z → option (list Z)) (containerSize : Container → Z)
    (fileHash : string → Container → string) (random : list Z) (t : Tree)
    (sourcePath archivePath zipPath out : string) (options : ZipOptions)
    (pw : option string) (d : gmap (list string) node)
    (container : Container) (result : ZipResult) :
  let R := resolveSegments cwd out in
  let base := basename (resolve cwd sourcePath) "" in
  let r := unzip sha512 cwd d (Opened (readContainer inflate container))
             zipPath (Some out) pw in
  wellFormed t = true →
  cleanSegment base = true →
  storable [base] = true →
  truthy out = true → R ≠ [] →
  (∀ l content, inflate (deflate l content) = Some content) →
  (∀ q c, q `prefix_of` R ++ [base] → d !! q ≠ Some (File c)) →
  (∀ q, (R ++ [base]) `prefix_of` q → d !! q = None) →
  zip sha512 cwd fl deflate containerSize fileHash random (Some t)
    sourcePath archivePath options
  = Some (container, result) →
  outcome r = Resolved (resolve cwd out)
  ∧ warnings r = []
  ∧ (∀ q, (q = [] → t ≠ DirNode []) →
          disk r !! (R ++ base :: q) = nodeOf <$> lookupTree t q)
  ∧ (∀ q, ¬ (R ++ [base]) `prefix_of` q →
          keptOrMade (R ++ [base]) q d (disk r)).
Proof.
  intros R base r Hwf Hbase Hst Hout HR Hcodec Hfile Hfresh Hzip.
  subst r. unfold zip in Hzip. cbn [mbind option_bind] in Hzip.
  injection Hzip as <- _. clear result.
  set (level := match compressionLevel options with
                | Some l => if (l =? 0)%Z then 9%Z else l
                | None => 9%Z
                end) in *.
  fold base.
  assert (Forall (λ s, cleanSegment s = true) R) as HRc
    by apply resolveSegments_clean.
  match goal with
  | |- context [unzip ?a ?b ?c ?e ?f ?g ?h] =>
      assert (unzip a b c e f g h
              = extractEntries cwd (fromSegments R)
                  (readEntry inflate <$> archiveEntries deflate level base t)
                  d [] []) as ->
  end.
  { unfold unzip, extractRoot. rewrite Hout.
    cbn [readContainer comment entries containerComment containerEntries
         checkPasswordProtection].
    change (includes "" marker) with false. cbn [andb].
    by rewrite andb_false_r. }
  clearbody level.
  destruct t as [content|children].
  - destruct (extract_walk cwd deflate inflate level R HRc HR (Hcodec level)
                (FileNode content) Hwf [base] [] d [] [])
      as (d' & Hex & Hat & Hanc & Hframe); try done.
    { by apply Forall_singleton. }
    unfold archiveEntries.
    rewrite <- (app_nil_r (_ <$> _)), Hex. cbn [extractEntries].
    split; [done|]. split; [done|]. split; [|done].
    intros q _. apply (Hat q).
  - simpl in Hwf.
    apply andb_true_iff in Hwf as [Hnodup%bool_decide_eq_true Hwf].
    destruct (extract_children cwd deflate inflate level R HRc HR
                (Hcodec level) (λ _, True)
                (λ t _, extract_walk cwd deflate inflate level R HRc HR
                          (Hcodec level) t)
                children (Forall_true _ _ (λ _, I)) Hnodup Hwf
                [base] [] d [] [])
      as (d' & Hex & Hat & Hanc & Hframe); try done.
    { by apply Forall_singleton. }
    { intros n q _. apply Hfresh. rewrite app_assoc. by apply prefix_app_r. }
    unfold archiveEntries. cbn [walk drop]. rewrite drop_0.
    rewrite <- (app_nil_r (_ <$> _)), Hex. cbn [extractEntries].
    split; [done|]. split; [done|]. cbn [disk]. split.
    + intros [|n q] Hq.
      * destruct children as [|child children]; [by destruct Hq|].
        simpl. apply Hanc; [done|reflexivity|by destruct R].
      * destruct (decide (n ∈ children.*1)) as [Hn|Hn]; [by apply Hat|].
        rewrite lookupTree_absent by done.
        destruct (Hframe (R ++ [base] ++ n :: q)) as [Hk|(Hk & _)].
        -- intros m Hm. rewrite !app_assoc. apply not_prefix_sibling.
           intros ->. done.
        -- simpl in Hk. rewrite Hk. simpl. apply Hfresh.
           exists (n :: q). by rewrite <- app_assoc.
        -- exfalso. rewrite app_assoc in Hk.
           by apply not_prefix_longer in Hk.
    + intros q Hq. apply Hframe. intros n Hn Hp. apply Hq.
      rewrite app_assoc in Hp. etrans; [|done]. by apply prefix_app_r.
Qed.

End round_trip.

(** The lemma at a directory with a file and an empty directory,
    extracted to [/out] on an empty disk. *)
Example round_trip_below_root_example :
  ∀ q,
    disk (unzip (λ _, []) "/home/u" ∅
            (Opened
               (readContainer Some
                  {| containerComment := "";
                     containerEntries :=
                       archiveEntries (λ _ b, b) 9 "proj"
                         (DirNode [("f.txt", FileNode [1; 2; 3]%Z);
                                   ("e", DirNode [])]) |}))
            "/proj.zip" (Some "/out") (Some "any"))
    !! (["out"; "proj"] ++ q)
    = nodeOf
      <$> lookupTree
            (DirNode [("f.txt", FileNode [1; 2; 3]%Z); ("e", DirNode [])]) q.
Proof.
  intros q.
  refine (proj1 (proj2 (proj2
    (round_trip_below_root (λ _, []) "/home/u" JsArith.exact (λ _ b, b) Some
       (λ _, 0%Z) (λ _ _, "") []
       (DirNode [("f.txt", FileNode [1; 2; 3]%Z); ("e", DirNode [])])
       "/src/proj" "/proj.zip" "/proj.zip" "/out"
       {| password := None; compressionLevel := None; generateHash := None |}
       (Some "any") ∅ _ _ _ _ _ _ _ _ _ _ _))) q _);
    try reflexivity; try done.
Qed.

(** *** The round trip at the root of the file system *)

(** At the root [/] no target but the root itself is safe. *)
Lemma isPathSafe_root cwd target :
  resolveSegments cwd target ≠ [] → isPathSafe cwd target "/" = false.
Proof.
  intros Hne. unfold isPathSafe, resolve.
  change (resolveSegments cwd "/") with (@nil string).
  pose proof (resolveSegments_clean cwd target) as HT.
  destruct (resolveSegments cwd target) as [|t T]; [done|].
  apply Forall_cons in HT as [Ht _].
  apply cleanSegment_spec in Ht as (Hte & _ & _ & Hs).
  destruct t as [|c t]; [done|].
  rewrite has_char_cons in Hs. apply orb_false_iff in Hs as [Hc _].
  unfold fromSegments. rewrite join_cons.
  set (X := match T with [] => "" | _ => String "/" (join "/" T) end).
  change ("/" +:+ String c t +:+ X) with (String "/" (String c (t +:+ X))).
  change ("/" +:+ join "/" []) with "/".
  change ("/" +:+ sep) with "//".
  unfold strictEquals. cbn [startsWith String.eqb].
  rewrite Hc. reflexivity.
Qed.

(** C4, where the code departs from it: when the output root is [/],
    the separator appended to the root gives ["//"], which no resolved
    path starts with, so that [isPathSafe] is [false] for every target
    other than the root itself.  An archive made of a directory with a
    file and an empty directory, extracted without an output directory
    from [/proj.zip]: every entry is skipped and nothing is written,
    whatever the codec and the compression level.  Extracted to [/out],
    the same archive gives the tree back. *)
Theorem round_trip_lost_at_root :
  ∀ (sha512 : list Z → list Z) (fl : Q → Q) (deflate : Z → list Z → list Z)
    (inflate : list Z → option (list Z)) (containerSize : Container → Z)
    (fileHash : string → Container → string) (random : list Z)
    (level : option Z),
    (∀ cwd target,
       resolveSegments cwd target ≠ [] → isPathSafe cwd target "/" = false)
    ∧ ∃ container result,
      zip sha512 "/home/u" fl deflate containerSize fileHash random
        (Some (DirNode [("f.txt", FileNode [1; 2; 3]%Z); ("e", DirNode [])]))
        "/src/proj" "/proj.zip"
        {| password := None; compressionLevel := level;
           generateHash := None |}
      = Some (container, result)
      ∧ fileName <$> entries (readContainer inflate container)
        = ["proj/f.txt"; "proj/e/"]
      ∧ extractRoot "/home/u" "/proj.zip" None = "/"
      ∧ outcome (unzip sha512 "/home/u" ∅
                   (Opened (readContainer inflate container))
                   "/proj.zip" None None)
        = Resolved "/"
      ∧ disk (unzip sha512 "/home/u" ∅
                (Opened (readContainer inflate container))
                "/proj.zip" None None)
        = ∅
      ∧ warnings (unzip sha512 "/home/u" ∅
                    (Opened (readContainer inflate container))
                    "/proj.zip" None None)
        = [(103%Z, "Skipping unsafe path: proj/f.txt");
           (103%Z, "Skipping unsafe path: proj/e/")]
      ∧ ((∀ l, inflate (deflate l [1; 2; 3]%Z) = Some [1; 2; 3]%Z) →
         disk (unzip sha512 "/home/u" ∅
                 (Opened (readContainer inflate container))
                 "/proj.zip" (Some "/out") None)
         = list_to_map
             [(["out"], Dir); (["out"; "proj"], Dir);
              (["out"; "proj"; "f.txt"], File [1; 2; 3]%Z);
              (["out"; "proj"; "e"], Dir)]).
Proof.
  intros. split; [apply isPathSafe_root|].
  eexists _, _. split; [reflexivity|].
  split; [reflexivity|]. split; [reflexivity|].
  split; [reflexivity|]. split; [reflexivity|]. split; [reflexivity|].
  intros Hcodec. unfold unzip, readContainer.
  cbn -[extractEntries]. cbn. rewrite Hcodec. vm_compute. reflexivity.
Qed.

(** *** The checks of hashes and HMACs *)

Section hmac_facts.

Lemma hexValue_digitChar d :
  (0 ≤ d < 16)%Z → hexValue (digitChar d) = Some d.
Proof.
  intros Hd. unfold hexValue, digitValue. rewrite code_digitChar by done.
  destruct (d <? 10)%Z eqn:E.
  - replace ((48 <=? 48 + d) && (48 + d <=? 57))%Z with true by lia.
    replace (48 + d - 48 <? 16)%Z with true by lia. f_equal. lia.
  - replace ((48 <=? 87 + d) && (87 + d <=? 57))%Z with false by lia.
    replace ((97 <=? 87 + d) && (87 + d <=? 122))%Z with true by lia.
    replace (87 + d - 87 <? 16)%Z with true by lia. f_equal. lia.
Qed.

(** Decoding the hexadecimal form of bytes gives the bytes back. *)
Lemma bufferFromHex_toHex bytes :
  Forall (λ b, 0 ≤ b < 256)%Z bytes → bufferFromHex (toHex bytes) = bytes.
Proof.
  induction 1 as [|b bytes Hb _ IH]; [done|].
  cbn [toHex bufferFromHex].
  rewrite !hexValue_digitChar, IH.
  - f_equal.
    rewrite (Z.mod_small (b / 16))
      by (split; [apply Z.div_pos|apply Z.div_lt_upper_bound]; lia).
    pose proof (Z.div_mod b 16). lia.
  - apply Z.mod_pos_bound. lia.
  - apply Z.mod_pos_bound. lia.
Qed.

Lemma timingSafeEqual_true a b :
  timingSafeEqual a b = Some true ↔ a = b.
Proof.
  unfold timingSafeEqual. split.
  - destruct (Nat.eqb_spec (length a) (length b)) as [Hl|]; [|done].
    intros [= H]. revert b Hl H.
    induction a as [|x a IH]; intros [|y b] Hl H; try done.
    simpl in H. apply andb_true_iff in H as [Hxy%Z.eqb_eq H].
    simpl in Hxy. subst. f_equal. apply IH; [by injection Hl|done].
  - intros <-. rewrite Nat.eqb_refl. f_equal.
    induction a as [|x a IH]; [done|]. simpl. by rewrite Z.eqb_refl.
Qed.

End hmac_facts.

Section hmac_theorems.

Variable createHmac : string → string → list Z → list Z.

Lemma bufferFromHex_text bytes c rest :
  Forall (λ b, 0 ≤ b < 256)%Z bytes → hexValue c = None →
  bufferFromHex (toHex bytes +:+ String c rest) = bytes.
Proof.
  intros Hb Hc. induction Hb as [|b bytes Hb _ IH].
  - change (toHex [] +:+ String c rest) with (String c rest).
    destruct rest; [done|]. cbn [bufferFromHex]. by rewrite Hc.
  - cbn [toHex]. rewrite !sapp_cons. cbn [bufferFromHex].
    rewrite !hexValue_digitChar, IH.
    + f_equal.
      rewrite (Z.mod_small (b / 16))
        by (split; [apply Z.div_pos|apply Z.div_lt_upper_bound]; lia).
      pose proof (Z.div_mod b 16). lia.
    + apply Z.mod_pos_bound. lia.
    + apply Z.mod_pos_bound. lia.
Qed.

(** X1: [verifyHMAC] decodes both strings from hexadecimal and compares the
    bytes: it returns [true] exactly when the expected string decodes to
    the HMAC, and it raises, instead of returning [false], exactly when
    the expected string decodes to another number of bytes. *)
Theorem verifyHMAC_outcome (data : list Z) (key expectedHMAC : string)
    (algorithm : option string) :
  Forall (λ b, 0 ≤ b < 256)%Z
    (createHmac (default "sha256" algorithm) key data) →
  (verifyHMAC createHmac data key expectedHMAC algorithm = Some true
   ↔ bufferFromHex expectedHMAC
     = createHmac (default "sha256" algorithm) key data)
  ∧ (verifyHMAC createHmac data key expectedHMAC algorithm = None
     ↔ length (bufferFromHex expectedHMAC)
       ≠ length (createHmac (default "sha256" algorithm) key data)).
Proof.
  intros Hb. unfold verifyHMAC, generateHMAC.
  rewrite bufferFromHex_toHex by done. split.
  - rewrite timingSafeEqual_true. split; by intros ->.
  - unfold timingSafeEqual.
    destruct (Nat.eqb_spec
                (length (createHmac (default "sha256" algorithm) key data))
                (length (bufferFromHex expectedHMAC))) as [Hl|Hl].
    + split; [done|]. intros Hne. by rewrite Hl in Hne.
    + split; [|done]. intros _ Heq. by rewrite Heq in Hl.
Qed.

(** X2: [verifyHMAC] accepts the string [generateHMAC] returns for the same
    data, key and algorithm, and still accepts it when any text that
    starts with a character other than a hexadecimal digit follows. *)
Theorem verifyHMAC_round_trip (data : list Z) (key : string)
    (algorithm : option string) :
  Forall (λ b, 0 ≤ b < 256)%Z
    (createHmac (default "sha256" algorithm) key data) →
  verifyHMAC createHmac data key (generateHMAC createHmac data key algorithm)
    algorithm = Some true
  ∧ ∀ c rest,
      hexValue c = None →
      verifyHMAC createHmac data key
        (generateHMAC createHmac data key algorithm +:+ String c rest)
        algorithm = Some true.
Proof.
  intros Hb. split.
  - unfold verifyHMAC. by apply timingSafeEqual_true.
  - intros c rest Hc. unfold verifyHMAC, generateHMAC.
    rewrite bufferFromHex_text, bufferFromHex_toHex by done.
    by apply timingSafeEqual_true.
Qed.

End hmac_theorems.

Lemma verifyHMAC_outcome_witness :
  (verifyHMAC (λ _ _ data, data) [1; 2; 255]%Z "k" "0102FF" None = Some true
   ↔ bufferFromHex "0102FF" = [1; 2; 255]%Z)
  ∧ (verifyHMAC (λ _ _ data, data) [1; 2; 255]%Z "k" "0102FF" None = None
     ↔ length (bufferFromHex "0102FF") ≠ length [1; 2; 255]%Z).
Proof.
  apply (verifyHMAC_outcome (λ _ _ data, data) [1; 2; 255]%Z "k" "0102FF"
           None).
  repeat constructor; done.
Defined.

Lemma verifyHMAC_round_trip_witness :
  verifyHMAC (λ _ _ data, data) [1; 2; 255]%Z "k"
    (generateHMAC (λ _ _ data, data) [1; 2; 255]%Z "k" None) None = Some true
  ∧ ∀ c rest,
      hexValue c = None →
      verifyHMAC (λ _ _ data, data) [1; 2; 255]%Z "k"
        (generateHMAC (λ _ _ data, data) [1; 2; 255]%Z "k" None
         +:+ String c rest) None = Some true.
Proof.
  apply (verifyHMAC_round_trip (λ _ _ data, data) [1; 2; 255]%Z "k" None).
  repeat constructor; done.
Defined.

Section file_hash_facts.

Variable State : Type.
Variable createHash : string → State.
Variable update : State → list Z → State.
Variable digest : State → string.
Variable fl : Q → Q.

Lemma onData_state cb total h processed size reports chunks :
  (∀ s a b, update (update s a) b = update s (a ++ b)) →
  (∀ s, update s [] = s) →
  let st := foldl (onData State update fl cb total)
              (h, processed, size, reports) chunks in
  st.1.1.1 = update h (concat chunks)
  ∧ st.1.2 = (size + Z.of_nat (length (concat chunks)))%Z.
Proof.
  intros Happ Hnil. revert h processed size reports.
  induction chunks as [|chunk chunks IH]; intros h processed size reports.
  - simpl. rewrite Hnil. split; [done|lia].
  - cbn [foldl concat].
    assert (∃ r, onData State update fl cb total
                   (h, processed, size, reports) chunk
                 = (update h chunk,
                    (processed + Z.of_nat (length chunk))%Z,
                    (size + Z.of_nat (length chunk))%Z, r)) as [r ->].
    { unfold onData. destruct (_ && _); eexists; reflexivity. }
    destruct (IH (update h chunk) (processed + Z.of_nat (length chunk))%Z
                (size + Z.of_nat (length chunk))%Z r) as [H1 H2].
    split.
    + by rewrite H1, Happ.
    + rewrite H2, length_app. lia.
Qed.

(** X3: the result of [generateFileHash] does not depend on how the stream
    cuts the file: for a digest whose [update] on two pieces in a row is
    its [update] on the pieces joined, the hash is the digest of the
    whole content and [fileSize] is its length, with or without a
    progress callback. *)
Theorem generateFileHash_whole (content : list Z) (baseName : string)
    (startTime endTime : Z) (algorithm : string) (progressCallback : bool) :
  (∀ s a b, update (update s a) b = update s (a ++ b)) →
  (∀ s, update s [] = s) →
  (generateFileHash State createHash update digest fl content baseName
     startTime endTime algorithm progressCallback).1
  = {| CryptoUtils.algorithm := algorithm;
       CryptoUtils.hash := digest (update (createHash algorithm) content);
       CryptoUtils.fileSize := Z.of_nat (length content);
       CryptoUtils.fileName := baseName;
       CryptoUtils.computeTime := (endTime - startTime)%Z |}.
Proof.
  intros Happ Hnil. unfold generateFileHash.
  pose proof (onData_state progressCallback (Z.of_nat (length content))
                (createHash algorithm) 0%Z 0%Z []
                (readStream (64 * 1024) content) Happ Hnil) as [H1 H2].
  destruct (foldl _ _ _) as [[[h p] size] reports].
  cbn [fst snd] in *. subst h size.
  unfold readStream. rewrite chunksOf_concat; [done|lia|done].
Qed.

End file_hash_facts.

Lemma generateFileHash_whole_witness :
  (generateFileHash (list Z) (λ _, []) (λ s data, s ++ data) toHex
     JsArith.exact [1; 2; 3]%Z "f" 0 5 "sha256" true).1
  = {| CryptoUtils.algorithm := "sha256";
       CryptoUtils.hash := toHex ([] ++ [1; 2; 3]%Z);
       CryptoUtils.fileSize := Z.of_nat (length [1; 2; 3]%Z);
       CryptoUtils.fileName := "f";
       CryptoUtils.computeTime := (5 - 0)%Z |}.
Proof.
  apply (generateFileHash_whole (list Z) (λ _, []) (λ s data, s ++ data)
           toHex JsArith.exact [1; 2; 3]%Z "f" 0%Z 5%Z "sha256" true).
  - intros s a b. by rewrite app_assoc.
  - intros s. by rewrite app_nil_r.
Defined.

Section progress_facts.

Variable fl : Q → Q.
Hypothesis fl_mono : ∀ x y, (x <= y)%Q → (fl x <= fl y)%Q.
Hypothesis fl_1 : (fl 1 == 1)%Q.
Hypothesis fl_100 : (fl 100 == 100)%Q.

Lemma percentage_mono (total p p' : Z) :
  (0 < total)%Z → (p ≤ p')%Z →
  (JsArith.round
     (JsArith.mul fl (JsArith.div fl (inject_Z p) (inject_Z total)) 100)
   ≤ JsArith.round
       (JsArith.mul fl (JsArith.div fl (inject_Z p') (inject_Z total)) 100))%Z.
Proof using fl_mono.
  intros Ht Hp. unfold JsArith.round, JsArith.mul, JsArith.div.
  assert (0 < inject_Z total)%Q as Ht'
    by (change 0%Q with (inject_Z 0); by rewrite <- Zlt_Qlt).
  apply Qfloor_resp_le.
  apply Qplus_le_l. apply fl_mono.
  apply Qmult_le_compat_r; [|done]. apply fl_mono.
  apply Qmult_le_compat_r; [by rewrite <- Zle_Qle|].
  apply Qlt_le_weak, Qinv_lt_0_compat, Ht'.
Qed.

Lemma percentage_whole (total : Z) :
  (0 < total)%Z →
  JsArith.round
    (JsArith.mul fl (JsArith.div fl (inject_Z total) (inject_Z total)) 100)
  = 100%Z.
Proof using fl_mono fl_1 fl_100.
  intros Ht. unfold JsArith.round, JsArith.mul, JsArith.div.
  assert (0 < inject_Z total)%Q as Ht'
    by (change 0%Q with (inject_Z 0); by rewrite <- Zlt_Qlt).
  assert (fl (fl (inject_Z total / inject_Z total) * 100) == 100)%Q as H.
  { apply Qeq_trans with (fl 100); [|exact fl_100].
    apply (fl_proper fl fl_mono).
    assert (fl (inject_Z total / inject_Z total) == 1)%Q as ->; [|lra].
    apply Qeq_trans with (fl 1); [|exact fl_1].
    apply (fl_proper fl fl_mono). field. lra. }
  rewrite (Qfloor_comp _ (100 + (1 # 2))); [done|]. by rewrite H.
Qed.

Lemma progress_length total p chunks :
  length (progressAfterEachChunk fl total p chunks) = length chunks.
Proof.
  revert p. induction chunks as [|c chunks IH]; intros p; [done|].
  simpl. by rewrite IH.
Qed.

Lemma progress_last total p chunks :
  chunks ≠ [] →
  last (progressAfterEachChunk fl total p chunks)
  = Some (JsArith.round
            (JsArith.mul fl
               (JsArith.div fl
                  (inject_Z (p + Z.of_nat (length (concat chunks))))
                  (inject_Z total)) 100)).
Proof.
  revert p. induction chunks as [|c chunks IH]; intros p Hne; [done|].
  cbn [progressAfterEachChunk concat]. rewrite length_app.
  destruct chunks as [|c' chunks].
  - simpl. rewrite Nat.add_0_r. done.
  - rewrite last_cons. rewrite IH by done.
    cbn [concat]. rewrite !length_app. do 5 f_equal. lia.
Qed.

Lemma progress_from total p chunks :
  (0 < total)%Z →
  Forall (λ v, JsArith.round
                 (JsArith.mul fl
                    (JsArith.div fl (inject_Z p) (inject_Z total)) 100)
               ≤ v)%Z
    (progressAfterEachChunk fl total p chunks).
Proof using fl_mono.
  intros Ht. revert p. induction chunks as [|c chunks IH]; intros p.
  - constructor.
  - cbn [progressAfterEachChunk]. constructor.
    + apply percentage_mono; [done|lia].
    + eapply Forall_impl; [apply IH|]. intros v Hv. simpl in Hv.
      etrans; [|exact Hv]. apply percentage_mono; [done|lia].
Qed.

Lemma progress_sorted total p chunks i j a b :
  (0 < total)%Z → (i ≤ j)%nat →
  progressAfterEachChunk fl total p chunks !! i = Some a →
  progressAfterEachChunk fl total p chunks !! j = Some b →
  (a ≤ b)%Z.
Proof using fl_mono.
  intros Ht. revert p i j.
  induction chunks as [|c chunks IH]; intros p i j Hij Ha Hb; [done|].
  cbn [progressAfterEachChunk] in Ha, Hb.
  destruct i as [|i], j as [|j]; try lia.
  - simpl in Ha, Hb. by simplify_eq.
  - simpl in Ha. injection Ha as <-. cbn [lookup list_lookup] in Hb.
    pose proof (progress_from total (p + Z.of_nat (length c)) chunks Ht) as H.
    rewrite Forall_lookup in H. by apply (H j b).
  - cbn [lookup list_lookup] in Ha, Hb.
    eapply (IH _ i j); [lia|done|done].
Qed.

End progress_facts.

Section progress_theorem.

Variable State : Type.
Variable createHash : string → State.
Variable update : State → list Z → State.
Variable digest : State → string.
Variable fl : Q → Q.

(** X4: with a progress callback, on a file that is not empty,
    [generateFileHash] reports once for each chunk, the values never
    decrease, and the last one is 100; for every rounding of the
    arithmetic that is monotone and leaves 1 and 100 unchanged. *)
Theorem progress_ends_at_100 (content : list Z) (baseName : string)
    (startTime endTime : Z) (algorithm : string) :
  (∀ x y, (x <= y)%Q → (fl x <= fl y)%Q) →
  (fl 1 == 1)%Q → (fl 100 == 100)%Q →
  (0 < length content)%nat →
  length (generateFileHash State createHash update digest fl content
            baseName startTime endTime algorithm true).2
  = length (readStream (64 * 1024) content)
  ∧ last (generateFileHash State createHash update digest fl content
            baseName startTime endTime algorithm true).2
    = Some 100%Z
  ∧ ∀ i j a b,
      (i ≤ j)%nat →
      (generateFileHash State createHash update digest fl content
         baseName startTime endTime algorithm true).2 !! i = Some a →
      (generateFileHash State createHash update digest fl content
         baseName startTime endTime algorithm true).2 !! j = Some b →
      (a ≤ b)%Z.
Proof.
  intros fl_mono fl_1 fl_100 Hlen.
  assert (0 < Z.of_nat (length content))%Z as Ht by lia.
  assert ((generateFileHash State createHash update digest fl content
             baseName startTime endTime algorithm true).2
          = progressAfterEachChunk fl (Z.of_nat (length content)) 0
              (readStream (64 * 1024) content)) as ->.
  { unfold generateFileHash.
    pose proof (onData_foldl State update fl (Z.of_nat (length content))
                  (createHash algorithm) 0%Z 0%Z []
                  (readStream (64 * 1024) content) Ht) as H.
    destruct (foldl _ _ _) as [[[h p] size] reports]. exact H. }
  split; [apply progress_length|]. split.
  - rewrite progress_last.
    + unfold readStream. rewrite chunksOf_concat; [|lia|done].
      rewrite Z.add_0_l. f_equal. by apply percentage_whole.
    + unfold readStream. destruct content; [simpl in Hlen; lia|done].
  - intros i j a b. by apply progress_sorted.
Qed.

End progress_theorem.

Lemma progress_ends_at_100_witness :
  length (generateFileHash (list Z) (λ _, []) (λ s data, s ++ data) toHex
            JsArith.exact [1; 2; 3]%Z "f" 0 5 "sha256" true).2
  = length (readStream (64 * 1024) [1; 2; 3]%Z)
  ∧ last (generateFileHash (list Z) (λ _, []) (λ s data, s ++ data) toHex
            JsArith.exact [1; 2; 3]%Z "f" 0 5 "sha256" true).2
    = Some 100%Z
  ∧ ∀ i j a b,
      (i ≤ j)%nat →
      (generateFileHash (list Z) (λ _, []) (λ s data, s ++ data) toHex
         JsArith.exact [1; 2; 3]%Z "f" 0 5 "sha256" true).2 !! i = Some a →
      (generateFileHash (list Z) (λ _, []) (λ s data, s ++ data) toHex
         JsArith.exact [1; 2; 3]%Z "f" 0 5 "sha256" true).2 !! j = Some b →
      (a ≤ b)%Z.
Proof.
  apply (progress_ends_at_100 (list Z) (λ _, []) (λ s data, s ++ data) toHex
           JsArith.exact [1; 2; 3]%Z "f" 0%Z 5%Z "sha256").
  - by intros x y Hxy.
  - reflexivity.
  - reflexivity.
  - simpl. lia.
Defined.

Section case_facts.

Lemma code_bound c : (0 ≤ code c < 256)%Z.
Proof.
  unfold code. pose proof (nat_ascii_bounded c). lia.
Qed.

Lemma mapChars_mapChars f g s :
  (∀ n, 0 ≤ n < 256 → 0 ≤ f n < 256)%Z →
  SecurityUtils.mapChars g (SecurityUtils.mapChars f s)
  = SecurityUtils.mapChars (λ n, g (f n)) s.
Proof.
  intros Hf. unfold SecurityUtils.mapChars.
  rewrite list_ascii_of_string_of_list_ascii, <- list_fmap_compose.
  f_equal. apply list_fmap_ext. intros _ c _. simpl.
  rewrite code_ascii_of_nat.
  - rewrite Z2Nat.id; [done|]. apply Hf, code_bound.
  - pose proof (Hf _ (code_bound c)). lia.
Qed.

Lemma mapChars_ext f g s :
  (∀ n, 0 ≤ n < 256 → f n = g n)%Z →
  SecurityUtils.mapChars f s = SecurityUtils.mapChars g s.
Proof.
  intros Hfg. unfold SecurityUtils.mapChars. f_equal.
  apply list_fmap_ext. intros _ c _. simpl. by rewrite Hfg by apply code_bound.
Qed.

(** The case of the letters does not matter to [toLowerCase]. *)
Lemma toLowerCase_toUpperCase s :
  SecurityUtils.toLowerCase (SecurityUtils.toUpperCase s)
  = SecurityUtils.toLowerCase s.
Proof.
  unfold SecurityUtils.toLowerCase, SecurityUtils.toUpperCase.
  rewrite mapChars_mapChars.
  - apply mapChars_ext. intros n Hn. simpl.
    destruct ((97 <=? n) && (n <=? 122))%Z eqn:E.
    + replace ((65 <=? n - 32) && (n - 32 <=? 90))%Z with true by lia.
      replace ((65 <=? n) && (n <=? 90))%Z with false by lia. lia.
    + done.
  - intros n Hn. simpl. destruct ((97 <=? n) && (n <=? 122))%Z eqn:E; lia.
Qed.

(** The hexadecimal form of bytes is in lower case. *)
Lemma toLowerCase_toHex bytes :
  SecurityUtils.toLowerCase (toHex bytes) = toHex bytes.
Proof.
  induction bytes as [|b s IH]; [done|].
  cbn [toHex]. unfold SecurityUtils.toLowerCase, SecurityUtils.mapChars in *.
  cbn [list_ascii_of_string fmap list_fmap string_of_list_ascii].
  rewrite IH. f_equal; [|f_equal].
  - rewrite code_digitChar by (apply Z.mod_pos_bound; lia).
    destruct (_ <? 10)%Z eqn:E.
    + replace ((65 <=? 48 + (b / 16) mod 16)
               && (48 + (b / 16) mod 16 <=? 90))%Z with false
        by (pose proof (Z.mod_pos_bound (b / 16) 16); lia).
      unfold digitChar. by rewrite E.
    + replace ((65 <=? 87 + (b / 16) mod 16)
               && (87 + (b / 16) mod 16 <=? 90))%Z with false
        by (pose proof (Z.mod_pos_bound (b / 16) 16); lia).
      unfold digitChar. by rewrite E.
  - rewrite code_digitChar by (apply Z.mod_pos_bound; lia).
    destruct (_ <? 10)%Z eqn:E.
    + replace ((65 <=? 48 + b mod 16) && (48 + b mod 16 <=? 90))%Z
        with false by (pose proof (Z.mod_pos_bound b 16); lia).
      unfold digitChar. by rewrite E.
    + replace ((65 <=? 87 + b mod 16) && (87 + b mod 16 <=? 90))%Z
        with false by (pose proof (Z.mod_pos_bound b 16); lia).
      unfold digitChar. by rewrite E.
Qed.

End case_facts.

Section verify_file_theorem.

Variable State : Type.
Variable createHash : string → State.
Variable update : State → list Z → State.
Variable digest : State → string.
Variable fl : Q → Q.

(** X5: [verifyFileHash] compares without regard to the case of the
    letters: for a digest in lower case, as [digest('hex')] gives it, an
    expected hash is accepted exactly when its lower-case form is the hash
    [generateFileHash] computes, so that this hash is accepted as it is
    and in upper case. *)
Theorem verifyFileHash_case (content : list Z) (baseName : string)
    (startTime endTime : Z) (expectedHash : string)
    (algorithm : option string) :
  (∀ s, SecurityUtils.toLowerCase (digest s) = digest s) →
  (verifyFileHash State createHash update digest fl content baseName
     startTime endTime expectedHash algorithm = true
   ↔ SecurityUtils.toLowerCase expectedHash
     = hash (generateFileHash State createHash update digest fl content
               baseName startTime endTime (default "sha256" algorithm)
               false).1)
  ∧ verifyFileHash State createHash update digest fl content baseName
      startTime endTime
      (hash (generateFileHash State createHash update digest fl content
               baseName startTime endTime (default "sha256" algorithm)
               false).1)
      algorithm = true
  ∧ verifyFileHash State createHash update digest fl content baseName
      startTime endTime
      (SecurityUtils.toUpperCase
         (hash (generateFileHash State createHash update digest fl content
                  baseName startTime endTime (default "sha256" algorithm)
                  false).1))
      algorithm = true.
Proof.
  intros Hlower. unfold verifyFileHash.
  assert (∃ h, hash (generateFileHash State createHash update digest fl
                       content baseName startTime endTime
                       (default "sha256" algorithm) false).1
               = digest h) as [h ->].
  { unfold generateFileHash.
    destruct (foldl _ _ _) as [[[h p] size] reports]. by exists h. }
  unfold strictEquals. rewrite toLowerCase_toUpperCase, !Hlower.
  rewrite String.eqb_refl. split; [|done].
  rewrite String.eqb_eq. split; by intros ->.
Qed.

End verify_file_theorem.

Lemma verifyFileHash_case_witness :
  (verifyFileHash (list Z) (λ _, []) (λ s data, s ++ data) toHex
     JsArith.exact [1; 2; 171]%Z "f" 0 5 "0102AB" None = true
   ↔ SecurityUtils.toLowerCase "0102AB"
     = hash (generateFileHash (list Z) (λ _, []) (λ s data, s ++ data) toHex
               JsArith.exact [1; 2; 171]%Z "f" 0 5 (default "sha256" None)
               false).1)
  ∧ verifyFileHash (list Z) (λ _, []) (λ s data, s ++ data) toHex
      JsArith.exact [1; 2; 171]%Z "f" 0 5
      (hash (generateFileHash (list Z) (λ _, []) (λ s data, s ++ data) toHex
               JsArith.exact [1; 2; 171]%Z "f" 0 5 (default "sha256" None)
               false).1)
      None = true
  ∧ verifyFileHash (list Z) (λ _, []) (λ s data, s ++ data) toHex
      JsArith.exact [1; 2; 171]%Z "f" 0 5
      (SecurityUtils.toUpperCase
         (hash (generateFileHash (list Z) (λ _, []) (λ s data, s ++ data)
                  toHex JsArith.exact [1; 2; 171]%Z "f" 0 5
                  (default "sha256" None) false).1))
      None = true.
Proof.
  apply (verifyFileHash_case (list Z) (λ _, []) (λ s data, s ++ data) toHex
           JsArith.exact [1; 2; 171]%Z "f" 0%Z 5%Z "0102AB" None).
  exact toLowerCase_toHex.
Defined.

(** *** The guards of [SecurityUtils] *)

Section env_facts.

Import SecurityChecks.

Lemma filter_Forall_id {A} (P : A → Prop) `{∀ x, Decision (P x)} l :
  Forall P l → filter P l = l.
Proof.
  induction 1 as [|x l Hx _ IH]; [done|].
  by rewrite filter_cons_True, IH.
Qed.

Lemma Forall_filter_self {A} (P : A → Prop) `{∀ x, Decision (P x)} l :
  Forall P (filter P l).
Proof.
  induction l as [|x l IH]; [constructor|].
  rewrite filter_cons. destruct (decide (P x)); [by constructor|done].
Qed.

(** X6: what [sanitizeEnvVar] returns has at most 1000 characters, all of
    them letters of ASCII, digits or [_-./\:], and is left as it is by
    [sanitizeEnvVar]; a value that has only such characters, at most 1000
    of them, is returned as it is. *)
Theorem sanitizeEnvVar_idempotent (value : string) :
  (String.length (sanitizeEnvVar value) ≤ 1000)%nat
  ∧ Forall (λ c, envChar c = true)
      (list_ascii_of_string (sanitizeEnvVar value))
  ∧ sanitizeEnvVar (sanitizeEnvVar value) = sanitizeEnvVar value
  ∧ ((String.length value ≤ 1000)%nat
     ∧ Forall (λ c, envChar c = true) (list_ascii_of_string value) ↔
     sanitizeEnvVar value = value).
Proof.
  assert (∀ l, String.length (string_of_list_ascii l) = length l) as Hlen.
  { induction l as [|c l IH]; [done|]. simpl. by rewrite IH. }
  assert (∀ v, (String.length v ≤ 1000)%nat →
               Forall (λ c, envChar c = true) (list_ascii_of_string v) →
               sanitizeEnvVar v = v) as Hfix.
  { intros v Hv Hall. unfold sanitizeEnvVar.
    destruct (truthy v) eqn:Ht; [|by destruct v]. cbn [negb].
    rewrite filter_Forall_id by done.
    rewrite take_ge.
    - apply string_of_list_ascii_of_string.
    - by rewrite <- Hlen, string_of_list_ascii_of_string. }
  assert ((String.length (sanitizeEnvVar value) ≤ 1000)%nat
          ∧ Forall (λ c, envChar c = true)
              (list_ascii_of_string (sanitizeEnvVar value))) as [H1 H2].
  { unfold sanitizeEnvVar. destruct (truthy value); cbn [negb].
    - rewrite Hlen, list_ascii_of_string_of_list_ascii, length_take.
      split; [lia|]. apply Forall_take, Forall_filter_self.
    - split; [simpl; lia|constructor]. }
  split; [done|]. split; [done|]. split; [by apply Hfix|].
  split; [intros [? ?]; by apply Hfix|]. by intros <-.
Qed.

End env_facts.

Section rate_facts.

Import SecurityChecks.

Lemma sapp_inv_r a b s : a +:+ s = b +:+ s → a = b.
Proof.
  intros H. apply (f_equal list_ascii_of_string) in H.
  rewrite !chars_app in H. apply app_inv_tail in H.
  by rewrite <- (string_of_list_ascii_of_string a), H,
    string_of_list_ascii_of_string.
Qed.

Lemma checkRateLimits_within pid st op maxOps windowMs c rt times :
  st !! (op +:+ "_" +:+ toString pid)
  = Some {| count := c; resetTime := rt |} →
  Forall (λ t, t ≤ rt)%Z times →
  (checkRateLimits pid st op maxOps windowMs times).1
  = (λ i, bool_decide (c + Z.of_nat i < default 10 maxOps)%Z)
    <$> seq 0 (length times).
Proof.
  intros Hst Htimes. revert st c Hst.
  induction Htimes as [|now times Hnow _ IH]; intros st c Hst; [done|].
  cbn [checkRateLimits]. unfold checkRateLimit. rewrite Hst.
  cbn [resetTime count].
  replace (rt <? now)%Z with false by lia.
  cbv beta iota zeta. cbn [resetTime count].
  destruct (Z.leb_spec (default 10%Z maxOps) c) as [Hc|Hc];
    cbv beta iota zeta.
  - specialize (IH st c Hst).
    destruct (checkRateLimits pid st op maxOps windowMs times) as [rest st'].
    cbn [fst] in *. rewrite IH. cbn [length seq fmap list_fmap].
    rewrite bool_decide_false by lia. f_equal.
    rewrite <- fmap_S_seq, <- list_fmap_compose.
    apply list_fmap_ext. intros _ i _. simpl.
    rewrite !bool_decide_false by lia. done.
  - specialize (IH (<[op +:+ "_" +:+ toString pid :=
                      {| count := c + 1; resetTime := rt |}]> st) (c + 1)%Z
                  (lookup_insert_eq _ _ _)).
    destruct (checkRateLimits pid _ op maxOps windowMs times) as [rest st'].
    cbn [fst] in *. rewrite IH. cbn [length seq fmap list_fmap].
    rewrite bool_decide_true by lia. f_equal.
    rewrite <- fmap_S_seq, <- list_fmap_compose.
    apply list_fmap_ext. intros _ i _. simpl.
    apply bool_decide_ext. lia.
Qed.

(** X7: from the first call for an operation, or the first one after its
    window is over, as long as the calls come before the window is over,
    [checkRateLimit] allows exactly the first [maxOps] of them. *)
Theorem checkRateLimit_window (pid : Z) (st : gmap string RateRecord)
    (op : string) (maxOps windowMs : option Z) (now : Z) (times : list Z) :
  match st !! (op +:+ "_" +:+ toString pid) with
  | Some record => (resetTime record < now)%Z
  | None => True
  end →
  Forall (λ t, t ≤ now + default 60000 windowMs)%Z times →
  (checkRateLimits pid st op maxOps windowMs (now :: times)).1
  = (λ i, bool_decide (Z.of_nat i < default 10 maxOps)%Z)
    <$> seq 0 (S (length times)).
Proof.
  intros Hst Htimes. cbn [checkRateLimits].
  set (key := op +:+ "_" +:+ toString pid) in *.
  set (fresh := {| count := 0; resetTime := now + default 60000 windowMs |}%Z).
  assert (checkRateLimit pid now st op maxOps windowMs
          = if (default 10 maxOps <=? 0)%Z
            then (false, <[key := fresh]> st)
            else (true, <[key := {| count := 0 + 1;
                                    resetTime := resetTime fresh |}]>
                          (<[key := fresh]> st))) as ->.
  { unfold checkRateLimit. fold key. fold fresh.
    destruct (st !! key) as [record|]; [|done].
    replace (resetTime record <? now)%Z with true by lia. done. }
  destruct (Z.leb_spec (default 10%Z maxOps) 0) as [Hc|Hc];
    cbv beta iota zeta.
  - pose proof (checkRateLimits_within pid (<[key := fresh]> st) op maxOps
                  windowMs 0 _ times (lookup_insert_eq _ _ _) Htimes) as H.
    destruct (checkRateLimits pid _ op maxOps windowMs times) as [rest st'].
    cbn [fst] in *. rewrite H. cbn [seq fmap list_fmap].
    rewrite bool_decide_false by lia. f_equal.
    rewrite <- fmap_S_seq, <- list_fmap_compose.
    apply list_fmap_ext. intros _ i _. simpl.
    rewrite !bool_decide_false by lia. done.
  - pose proof (checkRateLimits_within pid
                  (<[key := {| count := 0 + 1;
                               resetTime := resetTime fresh |}]>
                     (<[key := fresh]> st)) op maxOps
                  windowMs (0 + 1) _ times (lookup_insert_eq _ _ _) Htimes)
      as H.
    destruct (checkRateLimits pid _ op maxOps windowMs times) as [rest st'].
    cbn [fst] in *. rewrite H. cbn [seq fmap list_fmap].
    rewrite bool_decide_true by lia. f_equal.
    rewrite <- fmap_S_seq, <- list_fmap_compose.
    apply list_fmap_ext. intros _ i _. simpl.
    apply bool_decide_ext. lia.
Qed.

Lemma checkRateLimit_window_witness :
  (checkRateLimits 7 ∅ "zip" (Some 2%Z) None [1000; 1500; 61000; 2000]%Z).1
  = (λ i, bool_decide (Z.of_nat i < default 10 (Some 2))%Z)
    <$> seq 0 (S (length [1500; 61000; 2000]%Z)).
Proof.
  apply (checkRateLimit_window 7 ∅ "zip" (Some 2%Z) None 1000
           [1500; 61000; 2000]%Z).
  - rewrite lookup_empty. exact I.
  - repeat constructor; simpl; lia.
Defined.

(** X8: the operations are limited apart from each other: a call for one
    operation changes nothing in what a later call for another operation
    returns. *)
Theorem checkRateLimit_apart (pid now now' : Z)
    (st : gmap string RateRecord) (op op' : string)
    (maxOps windowMs maxOps' windowMs' : option Z) :
  op ≠ op' →
  (checkRateLimit pid now'
     (checkRateLimit pid now st op maxOps windowMs).2 op' maxOps' windowMs').1
  = (checkRateLimit pid now' st op' maxOps' windowMs').1.
Proof.
  intros Hop.
  assert (op +:+ "_" +:+ toString pid ≠ op' +:+ "_" +:+ toString pid) as Hk.
  { intros H. apply Hop. by apply sapp_inv_r in H. }
  assert ((checkRateLimit pid now st op maxOps windowMs).2
          !! (op' +:+ "_" +:+ toString pid)
          = st !! (op' +:+ "_" +:+ toString pid)) as Hsame.
  { unfold checkRateLimit.
    destruct (st !! (op +:+ "_" +:+ toString pid)) as [record|].
    - destruct (resetTime record <? now)%Z;
        destruct (_ <=? _)%Z; cbn [snd];
        by rewrite ?lookup_insert_ne by done.
    - destruct (_ <=? _)%Z; cbn [snd];
        by rewrite ?lookup_insert_ne by done. }
  unfold checkRateLimit at 1 3. rewrite Hsame.
  destruct (st !! (op' +:+ "_" +:+ toString pid)) as [record|].
  - destruct (resetTime record <? now')%Z; by destruct (_ <=? _)%Z.
  - by destruct (_ <=? _)%Z.
Qed.

Lemma checkRateLimit_apart_witness :
  (checkRateLimit 7 2000
     (checkRateLimit 7 1000 ∅ "zip" (Some 1%Z) None).2 "unzip" None None).1
  = (checkRateLimit 7 2000 ∅ "unzip" None None).1.
Proof.
  apply (checkRateLimit_apart 7 1000 2000 ∅ "zip" "unzip"). done.
Defined.

End rate_facts.

Section archive_facts.

Import SecurityChecks.

Lemma digitChar_inj d e :
  (0 ≤ d < 16)%Z → (0 ≤ e < 16)%Z → digitChar d = digitChar e → d = e.
Proof.
  intros Hd He H. apply (f_equal hexValue) in H.
  rewrite !hexValue_digitChar in H by done. by injection H.
Qed.

Lemma startsWith_trans s p q :
  startsWith s p = true → startsWith p q = true → startsWith s q = true.
Proof.
  revert s p. induction q as [|c q IH]; intros s p Hsp Hpq; [done|].
  destruct p as [|b p]; [done|]. destruct s as [|a s]; [done|].
  simpl in *. apply andb_true_iff in Hsp as [Hab Hsp].
  apply andb_true_iff in Hpq as [Hbc Hpq].
  apply Ascii.eqb_eq in Hab, Hbc. subst.
  rewrite Ascii.eqb_refl. eauto.
Qed.

(** The hexadecimal form starts with [504b] exactly for bytes that start
    with [P] and [K]. *)
Lemma signature_PK content :
  Forall (λ b, 0 ≤ b < 256)%Z content →
  startsWith (toHex (take 4 content)) "504b" = true
  ↔ take 2 content = [80; 75]%Z.
Proof.
  intros Hb. destruct content as [|b1 [|b2 content]].
  - done.
  - split; [|done]. simpl. rewrite !andb_true_iff. intros (_ & _ & H); done.
  - apply Forall_cons in Hb as [H1 Hb]. apply Forall_cons in Hb as [H2 _].
    cbn [take toHex startsWith].
    assert (∀ c d, (0 ≤ d < 16)%Z →
              Ascii.eqb c (digitChar d) = true ↔ hexValue c = Some d ∧ c = digitChar d)
      as Hd.
    { intros c d Hd. rewrite Ascii.eqb_eq. split.
      - intros ->. split; [by apply hexValue_digitChar|done].
      - by intros [_ ->]. }
    pose proof (Z.mod_pos_bound (b1 / 16) 16 ltac:(lia)).
    pose proof (Z.mod_pos_bound b1 16 ltac:(lia)).
    pose proof (Z.mod_pos_bound (b2 / 16) 16 ltac:(lia)).
    pose proof (Z.mod_pos_bound b2 16 ltac:(lia)).
    rewrite !andb_true_iff, !Ascii.eqb_eq.
    change "5"%char with (digitChar 5). change "0"%char with (digitChar 0).
    change "4"%char with (digitChar 4). change "b"%char with (digitChar 11).
    split.
    + intros (E1 & E2 & E3 & E4 & _).
      apply digitChar_inj in E1, E2, E3, E4; try lia.
      pose proof (Z.div_mod b1 16). pose proof (Z.div_mod b2 16).
      assert (b1 / 16 < 16)%Z by (apply Z.div_lt_upper_bound; lia).
      assert (b2 / 16 < 16)%Z by (apply Z.div_lt_upper_bound; lia).
      assert (0 ≤ b1 / 16)%Z by (apply Z.div_pos; lia).
      assert (0 ≤ b2 / 16)%Z by (apply Z.div_pos; lia).
      rewrite Z.mod_small in E1, E3 by lia.
      f_equal; [|f_equal]; lia.
    + intros [= -> ->]. done.
Qed.

(** X9: [validateArchive] finds an archive valid exactly when the file can
    be read, has at most 1 GiB, and starts with the two bytes [PK]: what
    follows them is not looked at, since a signature that starts with
    [504b0304] also starts with [504b]. *)
Theorem validateArchive_valid (file : ArchiveFile) :
  (∀ content, file = Content content →
              Forall (λ b, 0 ≤ b < 256)%Z content) →
  valid (validateArchive file) = true
  ↔ ∃ content,
      file = Content content
      ∧ (Z.of_nat (length content) ≤ 1024 * 1024 * 1024)%Z
      ∧ take 2 content = [80; 75]%Z.
Proof.
  intros Hb. destruct file as [message|size message|content].
  - split; [done|]. by intros (? & ? & _).
  - split; [|by intros (? & ? & _)].
    unfold validateArchive, valid. rewrite length_app. simpl.
    intros H%Nat.eqb_eq. lia.
  - specialize (Hb content eq_refl).
    unfold validateArchive, valid, sizeIssue.
    assert (negb (startsWith (toHex (take 4 content)) "504b")
            && negb (startsWith (toHex (take 4 content)) "504b0304")
            = negb (startsWith (toHex (take 4 content)) "504b")) as ->.
    { destruct (startsWith (toHex (take 4 content)) "504b") eqn:E; [done|].
      destruct (startsWith (toHex (take 4 content)) "504b0304") eqn:E';
        [|done].
      by rewrite (startsWith_trans _ _ "504b" E') in E. }
    pose proof (signature_PK content Hb) as Hsig.
    destruct (Z.ltb_spec (1024 * 1024 * 1024) (Z.of_nat (length content)))
      as [Hs|Hs].
    + split; [done|]. intros (c & [= <-] & Hc & _). lia.
    + destruct (startsWith (toHex (take 4 content)) "504b").
      * split; [|done]. intros _. exists content.
        split; [done|]. split; [lia|]. by apply Hsig.
      * split; [done|]. intros (c & [= <-] & _ & Hc).
        apply Hsig in Hc. done.
Qed.

Lemma validateArchive_valid_witness :
  valid (validateArchive (Content [80; 75; 5; 6]%Z)) = true
  ↔ ∃ content,
      Content [80; 75; 5; 6]%Z = Content content
      ∧ (Z.of_nat (length content) ≤ 1024 * 1024 * 1024)%Z
      ∧ take 2 content = [80; 75]%Z.
Proof.
  apply (validateArchive_valid (Content [80; 75; 5; 6]%Z)).
  intros content [= <-]. repeat constructor; done.
Defined.

End archive_facts.

Section sanitize_facts.

Import SecurityChecks.

Lemma removeDotDot_none s : includes s ".." = false → removeDotDot s = s.
Proof.
  induction s as [|c s IH]; [done|].
  cbn [includes]. intros [Hs Hi]%orb_false_iff.
  cbn [removeDotDot]. destruct s as [|d s]; [done|].
  cbn [startsWith] in Hs. rewrite andb_true_r in Hs.
  rewrite (Ascii.eqb_sym c), (Ascii.eqb_sym d), Hs.
  by rewrite IH.
Qed.

Lemma removeDotDot_cons d s :
  d ≠ "."%char → removeDotDot (String d s) = String d (removeDotDot s).
Proof.
  intros Hd. cbn [removeDotDot]. destruct s as [|d' s]; [done|].
  destruct (Ascii.eqb_spec d "."); [done|]. done.
Qed.

Lemma removeDotDot_two c d s :
  removeDotDot (String c (String d s))
  = if Ascii.eqb c "." && Ascii.eqb d "." then removeDotDot s
    else String c (removeDotDot (String d s)).
Proof. reflexivity. Qed.

(** After the pairs of dots are removed, none is left. *)
Lemma removeDotDot_clean s : includes (removeDotDot s) ".." = false.
Proof.
  enough (includes (removeDotDot s) ".." = false
          ∧ ∀ c, includes (removeDotDot (String c s)) ".." = false)
    as [H _] by done.
  induction s as [|d s [IH1 IH2]].
  - split; [done|]. intros c. cbn [removeDotDot includes startsWith].
    by rewrite andb_false_r.
  - split; [apply IH2|]. intros c. rewrite removeDotDot_two.
    destruct (Ascii.eqb c "." && Ascii.eqb d ".") eqn:E; [done|].
    cbn [includes]. rewrite IH2, orb_false_r. cbn [startsWith].
    destruct (Ascii.eqb_spec "." c) as [<-|]; [|done]. cbn [andb].
    rewrite Ascii.eqb_refl in E. cbn [andb] in E.
    apply Ascii.eqb_neq in E. rewrite removeDotDot_cons by done.
    cbn [startsWith]. destruct (Ascii.eqb_spec "." d); [by subst|done].
Qed.

(** X10: as long as the path is not cut to 260 code units,
    [sanitizePath] returns a path in which no two dots are left next to
    each other. *)
Theorem sanitizePath_no_dots (filePath : string) :
  (SecurityUtils.jsLength (strippedPath filePath) ≤ MAX_PATH_LENGTH)%nat →
  sanitizePath filePath = Some (strippedPath filePath)
  ∧ includes (strippedPath filePath) ".." = false.
Proof.
  intros Hlen. split.
  - unfold sanitizePath.
    by replace (MAX_PATH_LENGTH
                <? SecurityUtils.jsLength (strippedPath filePath))%nat
      with false by (symmetry; apply Nat.ltb_ge; lia).
  - unfold strippedPath.
    pose proof (removeDotDot_clean (normalize (removeControl filePath)))
      as H.
    destruct (_ || _); [|done].
    destruct (removeDotDot _) as [|c rest]; [done|].
    cbn [includes] in H. by apply orb_false_iff in H as [_ H].
Qed.

Lemma sanitizePath_no_dots_witness :
  sanitizePath "a/../..b/./c...d" = Some (strippedPath "a/../..b/./c...d")
  ∧ includes (strippedPath "a/../..b/./c...d") ".." = false.
Proof.
  apply (sanitizePath_no_dots "a/../..b/./c...d"). vm_compute. lia.
Defined.

Lemma iter_S {A} n (f : A → A) x : Nat.iter (S n) f x = f (Nat.iter n f x).
Proof. reflexivity. Qed.

Lemma iter_dotdot_join n l :
  l ≠ [] →
  Nat.iter n (String.append "../") (join "/" l)
  = join "/" (replicate n ".." ++ l).
Proof.
  intros Hl. induction n as [|n IH]; [done|].
  rewrite iter_S. cbn [replicate app]. rewrite IH, join_cons.
  destruct (replicate n ".." ++ l) eqn:E; [|done].
  by apply app_eq_nil in E as [_ ?].
Qed.

Lemma normalizeSegments_up k n rest :
  normalizeSegments true (replicate k "..") (replicate n ".." ++ rest)
  = normalizeSegments true (replicate (n + k) "..") rest.
Proof.
  revert k. induction n as [|n IH]; intros k; [done|].
  cbn [replicate app normalizeSegments]. cbn [String.eqb orb].
  change (String.eqb ".." "") with false.
  change (String.eqb ".." ".") with false.
  change (String.eqb ".." "..") with true. cbv iota.
  replace (S n + k)%nat with (n + S k)%nat by lia. rewrite <- IH.
  by destruct k.
Qed.

Lemma normalizeSegments_all b res l :
  Forall (λ s, cleanSegment s = true) l →
  normalizeSegments b res l = reverse res ++ l.
Proof.
  intros Hl. rewrite <- (app_nil_r l) at 1.
  rewrite normalizeSegments_app by done. cbn [normalizeSegments].
  by rewrite reverse_app, reverse_involutive.
Qed.

Lemma split_up n p :
  split (Nat.iter n (String.append "../") p) "/"
  = replicate n ".." ++ split p "/".
Proof.
  induction n as [|n IH]; [done|].
  rewrite iter_S. cbn [replicate app].
  change ("../" +:+ ?s) with (".." +:+ String "/" s).
  by rewrite split_cons_sep, IH.
Qed.

Lemma removeControl_id s :
  Forall (λ c, controlChar c = false) (list_ascii_of_string s) →
  removeControl s = s.
Proof.
  intros H. unfold removeControl. rewrite filter_Forall_id by done.
  apply string_of_list_ascii_of_string.
Qed.

(** X11: [sanitizePath] does not keep a path relative: a path that
    starts with two or more [../] comes back absolute, since the dots are
    removed and only one of the separators left in front is dropped. *)
Theorem sanitizePath_absolute (k : nat) (l : list string) :
  l ≠ [] →
  Forall (λ s, cleanSegment s = true) l →
  includes (join "/" l) ".." = false →
  Forall (λ c, controlChar c = false) (list_ascii_of_string (join "/" l)) →
  (SecurityUtils.jsLength (Nat.iter (S k) (String.append "/") (join "/" l))
   ≤ MAX_PATH_LENGTH)%nat →
  sanitizePath (Nat.iter (S (S k)) (String.append "../") (join "/" l))
  = Some (Nat.iter (S k) (String.append "/") (join "/" l))
  ∧ isAbsolute (Nat.iter (S k) (String.append "/") (join "/" l)) = true.
Proof.
  intros Hl Hclean Hdots Hctl Hlen. split; [|done].
  set (p := join "/" l) in *.
  set (q := Nat.iter (S (S k)) (String.append "../") p).
  assert (strippedPath q = Nat.iter (S k) (String.append "/") p) as Hs.
  { unfold strippedPath.
    assert (removeControl q = q) as ->.
    { apply removeControl_id. unfold q. clear -Hctl.
      induction (S (S k)) as [|n IH]; [done|].
      rewrite iter_S.
      change ("../" +:+ ?s) with (String "." (String "." (String "/" s))).
      cbn [list_ascii_of_string]. by repeat constructor. }
    assert (normalize q = q) as ->.
    { assert (normalizeString q true = q) as Hn.
      { unfold normalizeString, segments, q. rewrite split_up.
        unfold p. rewrite split_join_segments by done.
        rewrite (normalizeSegments_up 0), normalizeSegments_all by done.
        rewrite reverse_replicate, Nat.add_0_r.
        symmetry. by apply iter_dotdot_join. }
      unfold normalize. cbv zeta.
      assert (truthy q = true) as -> by done.
      assert (isAbsolute q = false) as -> by done.
      cbn [negb]. rewrite Hn.
      assert (endsWithSlash q = false) as ->.
      { unfold q. clear -Hl Hclean. fold p.
        induction (S (S k)) as [|n IH];
          [by apply endsWithSlash_join|].
        rewrite iter_S, endsWithSlash_app; [done|].
        clear IH. destruct n; [by apply truthy_join|done]. }
      assert (truthy q = true) as -> by done.
      cbn [negb]. by rewrite sapp_nil_r. }
    assert (removeDotDot q = Nat.iter (S (S k)) (String.append "/") p) as ->.
    { unfold q. induction (S (S k)) as [|n IH];
        [by apply removeDotDot_none|].
      rewrite !iter_S.
      change ("../" +:+ ?s) with (String "." (String "." (String "/" s))).
      rewrite removeDotDot_two. cbn [Ascii.eqb andb].
      change (Ascii.eqb "." ".") with true. cbv iota.
      rewrite removeDotDot_cons by done. by rewrite IH. }
    done. }
  unfold sanitizePath. rewrite Hs.
  by replace (MAX_PATH_LENGTH <? SecurityUtils.jsLength _)%nat
    with false by (symmetry; apply Nat.ltb_ge; lia).
Qed.

Lemma sanitizePath_absolute_witness :
  sanitizePath
    (Nat.iter 2 (String.append "../") (join "/" ["etc"; "passwd"]))
  = Some (Nat.iter 1 (String.append "/") (join "/" ["etc"; "passwd"]))
  ∧ isAbsolute (Nat.iter 1 (String.append "/") (join "/" ["etc"; "passwd"]))
    = true.
Proof.
  apply (sanitizePath_absolute 0 ["etc"; "passwd"]).
  - done.
  - by repeat constructor.
  - reflexivity.
  - by repeat constructor.
  - vm_compute. lia.
Defined.

End sanitize_facts.

(** *** The password given to [zip] *)

Section password_facts.

Variable sha512 : list Z → list Z.
Variable cwd : string.
Variable fl : Q → Q.
Variable deflate : Z → list Z → list Z.
Variable inflate : list Z → option (list Z).
Variable containerSize : Container → Z.
Variable fileHash : string → Container → string.




End password_facts.

